(** * code-atlas: the directory-walking and rendering engine

    A shallow embedding of [src/utils.ts] (both embedded revisions), of
    [src/main.ts] (the command line, [main] and the tree view) and of
    [src/config.ts], followed by the properties of the traversal engine, of
    the content renderer, of the whole run and of the configuration.

    Conventions of the embedding.
    - JavaScript strings are [string]s (their UTF-8 bytes).  Every string
      operation defined here searches for ASCII characters only ('.', '/',
      '$', '{', '}'), which UTF-8 keeps apart from all other characters.
    - The host platform (Node's [String.prototype.toLowerCase] and
      [localeCompare], the [minimatch] library, [path.join] and
      [path.relative], [fs.stat] and [fs.readFile]) is the class [Host]; the
      code is parametric in it.  [path.extname] and the [$]-patterns of
      [String.prototype.replace] decide claims and are written out.
    - The file system is a snapshot taken when the scan starts: a directory
      entry carries the result [readdir] gives for it.
    - The files a run writes are kept by the file, not by the path that
      names it; the host says which file a path names and which calls of
      [writeFileSync] and [mkdirSync] throw.
    - A rejected promise or a thrown exception is [Err e]; the state a
      computation had reached when it failed is kept, as the writes made
      before a failure stay on disk.
    - An object read from a configuration file holds, under the keys of
      [CodeAtlasConfig], values of the types that [src/types.ts] declares
      or [undefined]; a number is a whole number or [NaN]. *)

From Stdlib Require Import ZArith Permutation Ascii String.
From stdpp Require Import gmap strings list sorting.

Local Open Scope string_scope.

(** ** Results of fallible operations *)

Definition error := string.

Inductive result (A : Type) : Type :=
| Ok (a : A)
| Err (e : error).
Arguments Ok {A} a.
Arguments Err {A} e.

Global Instance result_ret : MRet result := @Ok.
Global Instance result_bind : MBind result := λ A B f r,
  match r with
  | Ok a => f a
  | Err e => Err e
  end.

(** [Promise.all(xs.map(f))]: every result, or the first rejection. *)
Fixpoint promiseAll {A B} (f : A → result B) (xs : list A) : result (list B) :=
  match xs with
  | [] => Ok []
  | x :: xs' => y ← f x; ys ← promiseAll f xs'; Ok (y :: ys)
  end.

(** ** JavaScript string primitives used by the code *)

Module JS.

(** [s.slice(1)] *)
Definition slice1 (s : string) : string :=
  match s with
  | EmptyString => EmptyString
  | String _ rest => rest
  end.

(** [s.replace(/^\./, '')] *)
Definition stripLeadingDot (s : string) : string :=
  match s with
  | String "."%char rest => rest
  | _ => s
  end.

Fixpoint isPrefix (p s : string) : bool :=
  match p, s with
  | EmptyString, _ => true
  | String a p', String b s' => if decide (a = b) then isPrefix p' s' else false
  | String _ _, EmptyString => false
  end.

Fixpoint dropN (n : nat) (s : string) : string :=
  match n, s with
  | O, _ => s
  | S n', String _ s' => dropN n' s'
  | S _, EmptyString => EmptyString
  end.

(** ECMAScript [GetSubstitution] for a pattern without capture groups:
    in the replacement text [$$] stands for a dollar sign, [$&] for the
    matched text, [$`] for the part of the subject before the match and
    [$'] for the part after it; every other character, a [$] followed by
    anything else included, stands for itself. *)
Fixpoint getSubstitution (matched before after replacement : string) : string :=
  match replacement with
  | EmptyString => EmptyString
  | String "$"%char (String "$"%char r) => String "$"%char (getSubstitution matched before after r)
  | String "$"%char (String "&"%char r) => matched +:+ getSubstitution matched before after r
  | String "$"%char (String "`"%char r) => before +:+ getSubstitution matched before after r
  | String "$"%char (String "'"%char r) => after +:+ getSubstitution matched before after r
  | String c r => String c (getSubstitution matched before after r)
  end.

(** The scan of [s.replace(/pat/g, replacement)] for a pattern that is a
    literal text [pat]: [before] is the part of the subject already
    scanned, [skip] counts the characters of a match still to be passed
    over.  Matches are found left to right and do not overlap. *)
Fixpoint replaceScan (pat replacement before : string) (skip : nat)
    (s : string) : string :=
  match s with
  | EmptyString => EmptyString
  | String c s' =>
      match skip with
      | S k => replaceScan pat replacement (before +:+ String c EmptyString) k s'
      | O =>
          if isPrefix pat s then
            getSubstitution pat before (dropN (String.length pat) s) replacement
              +:+ replaceScan pat replacement (before +:+ String c EmptyString)
                    (pred (String.length pat)) s'
          else
            String c (replaceScan pat replacement
                        (before +:+ String c EmptyString) O s')
      end
  end.

(** [s.replace(/pat/g, replacement)] with a non-empty literal [pat]. *)
Definition replaceAllLiteral (pat replacement s : string) : string :=
  replaceScan pat replacement EmptyString O s.

(** [xs.join(sep)] *)
Fixpoint joinWith (sep : string) (xs : list string) : string :=
  match xs with
  | [] => EmptyString
  | [x] => x
  | x :: xs' => x +:+ sep +:+ joinWith sep xs'
  end.

(** [s.split(c)] for a separator of one character: the pieces between the
    occurrences of [c], of which there is always at least one. *)
Fixpoint split (c : ascii) (s : string) : list string :=
  match s with
  | EmptyString => [EmptyString]
  | String a rest =>
      if decide (a = c) then EmptyString :: split c rest
      else match split c rest with
           | piece :: pieces => String a piece :: pieces
           | [] => [String a EmptyString]
           end
  end.

End JS.

(** ** [path.extname] (POSIX)

    Node documents it as: the extension of the path, from the last
    occurrence of the '.' character to the end of the string in the last
    portion of the path; if there is no '.' in the last portion, or if there
    are no '.' characters other than the first character of the basename,
    the empty string.  The portion [..] has no extension either. *)

Module Path.

(** Splits at the last occurrence of [c]: the text before it and the text
    after it, or [None] when [c] does not occur. *)
Fixpoint splitLast (c : ascii) (s : string) : option (string * string) :=
  match s with
  | EmptyString => None
  | String a rest =>
      match splitLast c rest with
      | Some (pre, post) => Some (String a pre, post)
      | None => if decide (a = c) then Some (EmptyString, rest) else None
      end
  end.

(** Drops the path separators that end [s]. *)
Fixpoint trimTrailingSlashes (s : string) : string :=
  match s with
  | EmptyString => EmptyString
  | String a rest =>
      match trimTrailingSlashes rest with
      | EmptyString => if decide (a = "/"%char) then EmptyString
                       else String a EmptyString
      | t => String a t
      end
  end.

(** The last portion of a path. *)
Definition lastPortion (p : string) : string :=
  let t := trimTrailingSlashes p in
  match splitLast "/"%char t with
  | Some (_, post) => post
  | None => t
  end.

Definition extname (p : string) : string :=
  let base := lastPortion p in
  match splitLast "."%char base with
  | None => EmptyString
  | Some (pre, post) =>
      if decide (pre = EmptyString) then EmptyString
      else if decide (base = "..") then EmptyString
      else String "."%char post
  end.

End Path.

(** ** The host platform *)

(** [fs.Stats]: the two fields the code reads.  [mtimeMs] is a time stamp
    of which only the order is used; it is counted in whole ticks. *)
Record Stats : Type := { size : Z; mtimeMs : Z }.

(** The part of the file system that a run writes: the text of the files,
    by file (a file that is not there has none), and the directories that
    the run has made with [mkdirSync], in the order of the calls. *)
Record Disk : Type := mkDisk {
  contents : gmap string string;
  made : list string;
}.

(** No file yet and no directory made. *)
Global Instance Disk_empty : Empty Disk := mkDisk ∅ [].

Class Host : Type := {
  (** [String.prototype.toLowerCase] *)
  toLowerCase : string → string;
  (** [a.localeCompare(b)]: negative, zero or positive *)
  localeCompare : string → string → Z;
  (** [minimatch(path, pattern, { dot: true })] *)
  minimatch : string → string → bool;
  (** [path.join(dir, name)] *)
  join : string → string → string;
  (** [path.relative(from, to)] *)
  relative : string → string → string;
  (** [await stat(path)] *)
  stat : string → result Stats;
  (** [await readFile(path, 'utf-8')] *)
  readFile : string → result string;
  (** the file that a path names: two paths name one file exactly when
      they have the same [fileOf] *)
  fileOf : string → string;
  (** [path.dirname(path)] *)
  dirname : string → string;
  (** [existsSync(path)], with the files as they are *)
  existsSync : string → Disk → bool;
  (** the error that [mkdirSync(path, { recursive: true })] throws with the
      files as they are, if it throws *)
  mkdirError : string → Disk → option error;
  (** the error that [writeFileSync(path, data, ...)] throws with the files
      as they are, if it throws (a missing directory, a path that cannot be
      written, a full disk), and the text that the failed call leaves in
      the file when it has touched it; the first argument tells whether the
      flag is ['a'] *)
  writeError : bool → string → string → Disk → option (error * option string);
}.

(** ** Directory entries *)

(** A [Dirent] as [readdir(dir, { withFileTypes: true })] returns it: a
    name and a kind.  Every kind other than a directory (regular file,
    symbolic link, socket, ...) answers [false] to [isDirectory()].  A
    directory entry also carries what [readdir] returns for it. *)
#[warnings="-register-all"]
Inductive Dirent : Type :=
| FileEntry (name : string)
| DirEntry (name : string) (listing : result (list Dirent)).

Definition name (e : Dirent) : string :=
  match e with
  | FileEntry n => n
  | DirEntry n _ => n
  end.

Definition isDirectory (e : Dirent) : bool :=
  match e with
  | FileEntry _ => false
  | DirEntry _ _ => true
  end.

(** [CodeAtlasConfig['sort']] and [CodeAtlasConfig['sortDirection']] *)
Inductive SortMethod : Type := SortName | SortSize | SortModified | SortType.
Inductive SortDirection : Type := Asc | Desc.

Global Instance SortMethod_eq_dec : EqDecision SortMethod.
Proof. solve_decision. Defined.
Global Instance SortDirection_eq_dec : EqDecision SortDirection.
Proof. solve_decision. Defined.

(** A number as the configuration meets it: a whole number or [NaN]. *)
Inductive JSNumber : Type := NaN | Num (z : Z).

(** [size > maxFileSize] on numbers; no number is greater than [NaN]. *)
Definition greater (size : Z) (maxFileSize : JSNumber) : bool :=
  match maxFileSize with
  | Num m => (size >? m)%Z
  | NaN => false
  end.

(** [CodeAtlasConfig] of [src/types.ts]; [None] is a missing key or one
    that holds [undefined].  The
    [Pick<CodeAtlasConfig, 'sort' | 'sortDirection'>] that [walkDir] takes
    is a record of this type of which only those two keys are read. *)
Record CodeAtlasConfig : Type := {
  dir : option string;
  output : option string;
  ignore : option (list string);
  includedPathsFile : option string;
  excludedPathsFile : option string;
  header : option string;
  maxFileSize : option JSNumber;
  alwaysIncludeExtensions : option (list string);
  fileTemplate : option string;
  sort : option SortMethod;
  sortDirection : option SortDirection;
}.

(** The object literal [{}]. *)
Definition emptyConfig : CodeAtlasConfig :=
  {| dir := None; output := None; ignore := None; includedPathsFile := None;
     excludedPathsFile := None; header := None; maxFileSize := None;
     alwaysIncludeExtensions := None; fileTemplate := None;
     sort := None; sortDirection := None |}.

(** The object literal [{ sort, sortDirection }]. *)
Definition sortConfig (s : option SortMethod) (d : option SortDirection)
    : CodeAtlasConfig :=
  {| dir := None; output := None; ignore := None; includedPathsFile := None;
     excludedPathsFile := None; header := None; maxFileSize := None;
     alwaysIncludeExtensions := None; fileTemplate := None;
     sort := s; sortDirection := d |}.

(** A value in a condition: a missing key and the empty string are falsy. *)
Definition truthy (s : option string) : option string :=
  match s with
  | Some EmptyString => None
  | other => other
  end.

(** ** The state a traversal runs in

    [depthOpen] is the one object every recursive call and every callback
    receives by reference, so it is a cell of the store and not an argument;
    [user] is whatever the callbacks close over (arrays they push to, the
    files they write).  A computation returns the store it reached together
    with its value or the error it threw. *)
Record World (St : Type) : Type := mkWorld {
  depthOpen : gmap nat bool;
  user : St;
}.
Arguments mkWorld {St} _ _.
Arguments depthOpen {St} _.
Arguments user {St} _.

Definition M (St A : Type) : Type := World St → World St * result A.

Global Instance M_ret {St} : MRet (M St) := λ A a w, (w, Ok a).
Global Instance M_bind {St} : MBind (M St) := λ A B f m w,
  match m w with
  | (w', Ok a) => f a w'
  | (w', Err e) => (w', Err e)
  end.

(** [await] of a promise of the file system. *)
Definition await {St A} (r : result A) : M St A := λ w, (w, r).

(** [depthOpen[depth] = b] *)
Definition setDepthOpen {St} (depth : nat) (b : bool) : M St unit :=
  λ w, (mkWorld (<[depth := b]> (depthOpen w)) (user w), Ok ()).

(** A state change of the callbacks' own data. *)
Definition modifyUser {St} (f : St → St) : M St unit :=
  λ w, (mkWorld (depthOpen w) (f (user w)), Ok ()).

(** A step on the callbacks' own data that can throw. *)
Definition stepUser {St A} (f : St → St * result A) : M St A :=
  λ w, (mkWorld (depthOpen w) (f (user w)).1, (f (user w)).2).

(** The callbacks [onFile] and [onDir]: [(path, relPath, depth, isLast,
    depthOpen) => Promise<void>], the last argument being the store's
    [depthOpen]. *)
Definition Callback (St : Type) : Type := string → string → nat → bool → M St unit.

(** [for (let i = start; i < entries.length; i++) body(i, entries[i])],
    run over the entries from index [i] on. *)
Fixpoint forEntries {St} (body : nat → Dirent → M St unit) (i : nat)
    (entries : list Dirent) : M St unit :=
  match entries with
  | [] => mret ()
  | entry :: rest => body i entry;; forEntries body (S i) rest
  end.

(** How deep the directories below a listing nest; it bounds the depth of
    the recursion of [walkDir]. *)
Fixpoint entryDepth (e : Dirent) : nat :=
  match e with
  | FileEntry _ => O
  | DirEntry _ (Ok entries) =>
      S (foldr (λ c acc, Nat.max (entryDepth c) acc) O entries)
  | DirEntry _ (Err _) => 1%nat
  end.

Definition listingDepth (listing : result (list Dirent)) : nat :=
  match listing with
  | Ok entries => foldr (λ c acc, Nat.max (entryDepth c) acc) O entries
  | Err _ => O
  end.

(** ** [Array.prototype.sort]

    The sort is stable and, for a consistent comparator, its result is the
    one stable sorted arrangement; this is the insertion sort that produces
    it.  [cmp a b < 0] puts [a] first, [cmp a b > 0] puts [b] first. *)
Section ArraySort.
Context {A : Type} (cmp : A → A → Z).

Fixpoint insertSorted (x : A) (l : list A) : list A :=
  match l with
  | [] => [x]
  | y :: l' => if (cmp x y <=? 0)%Z then x :: l else y :: insertSorted x l'
  end.

Definition arraySort (l : list A) : list A := foldr insertSorted [] l.
End ArraySort.

(** ** [src/utils.ts], release 1.1.0 *)

Section Utils.
Context `{Host}.

Definition shouldIgnore (path : string) (ignorePatterns : list string) : bool :=
  if decide (path = ".") then true
  else existsb (λ pattern, minimatch path pattern) ignorePatterns.

(** Compare function that always places directories before files;
    [None] is [null]: both are the same kind. *)
Definition directoriesFirst (a b : Dirent) : option Z :=
  if negb (eqb (isDirectory a) (isDirectory b)) then
    Some (if isDirectory a then (-1)%Z else 1%Z)
  else None.

(** The comparator of the size/modified branch. *)
Definition compareByStats (sort : SortMethod) (multiplier : Z)
    (a b : Dirent * Stats) : Z :=
  match directoriesFirst a.1 b.1 with
  | Some dirCompare => dirCompare
  | None =>
      let value := if decide (sort = SortSize)
                   then (size a.2 - size b.2)%Z
                   else (mtimeMs a.2 - mtimeMs b.2)%Z in
      (multiplier * value)%Z
  end.

(** The comparator of the name/type branch. *)
Definition compareByName (sort : SortMethod) (multiplier : Z)
    (a b : Dirent) : Z :=
  match directoriesFirst a b with
  | Some dirCompare => dirCompare
  | None =>
      if isDirectory a then
        (multiplier * localeCompare (name a) (name b))%Z
      else
        let extA := toLowerCase (Path.extname (name a)) in
        let extB := toLowerCase (Path.extname (name b)) in
        if bool_decide (sort = SortType) && negb (bool_decide (extA = extB)) then
          (multiplier * localeCompare extA extB)%Z
        else
          (multiplier * localeCompare (name a) (name b))%Z
  end.

(** Sort entries based on sort method and direction. *)
Definition sortEntries (entries : list Dirent) (dirPath : string)
    (sort : option SortMethod) (sortDirection : option SortDirection)
    : result (list Dirent) :=
  let sort := default SortName sort in
  let sortDirection := default Asc sortDirection in
  let multiplier := if decide (sortDirection = Asc) then 1%Z else (-1)%Z in
  if bool_decide (sort = SortSize) || bool_decide (sort = SortModified) then
    entriesWithStats ←
      promiseAll (λ entry, stats ← stat (join dirPath (name entry));
                           Ok (entry, stats)) entries;
    Ok ((arraySort (compareByStats sort multiplier) entriesWithStats).*1)
  else
    Ok (arraySort (compareByName sort multiplier) entries).

End Utils.

Section Traversal.
Context `{Host} {St : Type}.

(** Recursive function for directory traversal.  [listing] is what
    [readdir(dirPath, { withFileTypes: true })] returns; [fuel] bounds the
    depth of the recursion. *)
Fixpoint walkDirFuel (fuel : nat) (listing : result (list Dirent))
    (dirPath rootDir : string) (ignorePatterns : list string)
    (onFile : Callback St) (onDir : option (Callback St))
    (depth : nat) (options : CodeAtlasConfig) : M St unit :=
  match fuel with
  | O => await (Err "RangeError: Maximum call stack size exceeded")
  | S fuel' =>
      entries ← await listing;
      let filteredEntries :=
        List.filter (λ entry,
          negb (shouldIgnore (join dirPath (name entry)) ignorePatterns))
          entries in
      sortedEntries ←
        await (sortEntries filteredEntries dirPath (sort options)
                 (sortDirection options));
      forEntries (λ i entry,
        let fullPath := join dirPath (name entry) in
        let relPath := relative rootDir fullPath in
        let isLast := Nat.eqb i (length sortedEntries - 1) in
        match entry with
        | DirEntry _ sub =>
            match onDir with
            | Some onDir => onDir fullPath relPath depth isLast
            | None => mret ()
            end;;
            setDepthOpen depth (negb isLast);;
            walkDirFuel fuel' sub fullPath rootDir ignorePatterns onFile onDir
              (depth + 1) options;;
            setDepthOpen depth false
        | FileEntry _ => onFile fullPath relPath depth isLast
        end) O sortedEntries
  end.

(** [walkDir], with the budget the tree below [listing] needs;
    [walkDirFuel_budget] shows that a larger one changes nothing. *)
Definition walkDir (listing : result (list Dirent))
    (dirPath rootDir : string) (ignorePatterns : list string)
    (onFile : Callback St) (onDir : option (Callback St))
    (depth : nat) (options : CodeAtlasConfig) : M St unit :=
  walkDirFuel (S (listingDepth listing)) listing dirPath rootDir
    ignorePatterns onFile onDir depth options.

End Traversal.

(** ** [src/utils.ts], release 1.0.0: the traversal without sorting *)

Module Release_1_0_0.
Section Traversal.
Context `{Host} {St : Type}.

(** Recursive function for directory traversal: the entries are visited in
    the order [readdir] lists them. *)
Fixpoint walkDirFuel (fuel : nat) (listing : result (list Dirent))
    (dirPath rootDir : string) (ignorePatterns : list string)
    (onFile : Callback St) (onDir : option (Callback St))
    (depth : nat) : M St unit :=
  match fuel with
  | O => await (Err "RangeError: Maximum call stack size exceeded")
  | S fuel' =>
      entries ← await listing;
      let filteredEntries :=
        List.filter (λ entry,
          negb (shouldIgnore (join dirPath (name entry)) ignorePatterns))
          entries in
      forEntries (λ i entry,
        let fullPath := join dirPath (name entry) in
        let relPath := relative rootDir fullPath in
        let isLast := Nat.eqb i (length filteredEntries - 1) in
        match entry with
        | DirEntry _ sub =>
            match onDir with
            | Some onDir => onDir fullPath relPath depth isLast
            | None => mret ()
            end;;
            setDepthOpen depth (negb isLast);;
            walkDirFuel fuel' sub fullPath rootDir ignorePatterns onFile onDir
              (depth + 1);;
            setDepthOpen depth false
        | FileEntry _ => onFile fullPath relPath depth isLast
        end) O filteredEntries
  end.

Definition walkDir (listing : result (list Dirent))
    (dirPath rootDir : string) (ignorePatterns : list string)
    (onFile : Callback St) (onDir : option (Callback St))
    (depth : nat) : M St unit :=
  walkDirFuel (S (listingDepth listing)) listing dirPath rootDir
    ignorePatterns onFile onDir depth.

End Traversal.
End Release_1_0_0.

(** ** The content renderer *)

(** The line feed of the string literals of the code. *)
Definition LF : string := String "010"%char EmptyString.

Section Files.
Context `{Host}.

(** [writeFileSync(filePath, data, { flag })]: the text replaces that of the
    file, or follows it under the flag ['a'] ([append]).  When the call
    throws, the file keeps its text or holds what the call has left. *)
Definition writeFileSync (filePath data : string) (append : bool) (disk : Disk)
    : Disk * result unit :=
  let file := fileOf filePath in
  match writeError append filePath data disk with
  | Some (e, rest) =>
      (mkDisk match rest with
              | Some text => <[file := text]> (contents disk)
              | None => contents disk
              end (made disk),
       Err e)
  | None =>
      let before :=
        if append then default EmptyString (contents disk !! file)
        else EmptyString in
      (mkDisk (<[file := before +:+ data]> (contents disk)) (made disk), Ok ())
  end.

(** [mkdirSync(dir, { recursive: true })] *)
Definition mkdirSync (dir : string) (disk : Disk) : Disk * result unit :=
  match mkdirError dir disk with
  | Some e => (disk, Err e)
  | None => (mkDisk (contents disk) (made disk ++ [dir]), Ok ())
  end.

(** [appendToFile]: the directory of the file is made when it is named and
    missing, then the data is written with the flag ['a']. *)
Definition appendToFile (filePath data : string) (disk : Disk)
    : Disk * result unit :=
  let dir := dirname filePath in
  let ready :=
    if negb (bool_decide (dir = EmptyString)) && negb (bool_decide (dir = "."))
       && negb (existsSync dir disk)
    then mkdirSync dir disk
    else (disk, Ok ()) in
  match ready with
  | (disk1, Err e) => (disk1, Err e)
  | (disk1, Ok _) => writeFileSync filePath data true disk1
  end.

End Files.

(** What the callback of [writeFileContent] closes over. *)
Record ContentState : Type := mkContentState {
  includedPaths : list string;
  excludedPaths : list string;
  disk : Disk;
}.

Definition pushIncluded (relPath : string) (s : ContentState) : ContentState :=
  mkContentState (includedPaths s ++ [relPath]) (excludedPaths s) (disk s).

Definition pushExcluded (relPath : string) (s : ContentState) : ContentState :=
  mkContentState (includedPaths s) (excludedPaths s ++ [relPath]) (disk s).

(** [appendToFile(filePath, data)] in the callback. *)
Definition appendOutput `{Host} (filePath data : string) (s : ContentState)
    : ContentState * result unit :=
  (mkContentState (includedPaths s) (excludedPaths s)
     (appendToFile filePath data (disk s)).1,
   (appendToFile filePath data (disk s)).2).

Section Content.
Context `{Host}.

(** [extname(filePath).slice(1).toLowerCase()] *)
Definition extensionOf (filePath : string) : string :=
  toLowerCase (JS.slice1 (Path.extname filePath)).

(** [alwaysIncludeExtensions.some(ext => ext.toLowerCase().replace(/^\./, '')
    === extension)] *)
Definition shouldAlwaysInclude (alwaysIncludeExtensions : list string)
    (extension : string) : bool :=
  existsb (λ ext, bool_decide (JS.stripLeadingDot (toLowerCase ext) = extension))
    alwaysIncludeExtensions.

(** The template branch: the three chained [replace] calls. *)
Definition formatWithTemplate (fileTemplate relPath extension content : string)
    : string :=
  JS.replaceAllLiteral "{{content}}" content
    (JS.replaceAllLiteral "{{extension}}" extension
       (JS.replaceAllLiteral "{{path}}" relPath fileTemplate)).

(** The [onFile] callback of [writeFileContent]. *)
Definition contentOnFile (output : string) (maxFileSize : option JSNumber)
    (alwaysIncludeExtensions : list string) (fileTemplate : option string)
    : Callback ContentState :=
  λ filePath relPath _ _,
    let extension := extensionOf filePath in
    let emit : M ContentState unit :=
      modifyUser (pushIncluded relPath);;
      content ← await (readFile filePath);
      match truthy fileTemplate with
      | Some fileTemplate =>
          let formattedContent :=
            formatWithTemplate fileTemplate relPath extension content in
          stepUser (appendOutput output (formattedContent +:+ LF +:+ LF))
      | None =>
          stepUser (appendOutput output ("## " +:+ relPath +:+ LF));;
          stepUser (appendOutput output
            ("```" +:+ extension +:+ LF +:+ content +:+ LF +:+ "```" +:+ LF +:+ LF))
      end in
    match maxFileSize with
    | Some maxFileSize =>
        fileStat ← await (stat filePath);
        if greater (size fileStat) maxFileSize
           && negb (shouldAlwaysInclude alwaysIncludeExtensions extension)
        then modifyUser (pushExcluded relPath)
        else emit
    | None => emit
    end.

(** The traversal that [writeFileContent] starts, from the store it starts
    it in. *)
Definition contentWalk (options : CodeAtlasConfig)
    (rootListing : result (list Dirent)) (disk0 : Disk)
    : World ContentState * result unit :=
  let dir := default "." (dir options) in
  let output := default "codebase.md" (output options) in
  let ignore := default [] (ignore options) in
  let alwaysIncludeExtensions := default [] (alwaysIncludeExtensions options) in
  walkDir rootListing dir dir ignore
    (contentOnFile output (maxFileSize options) alwaysIncludeExtensions
       (fileTemplate options))
    None O (sortConfig (sort options) (sortDirection options))
    (mkWorld ∅ (mkContentState [] [] disk0)).

(** [if (pathsFile) writeFileSync(pathsFile, paths.join('\n'), 'utf-8')] *)
Definition writePaths (pathsFile : option string) (paths : list string)
    (disk : Disk) : Disk * result unit :=
  match truthy pathsFile with
  | Some pathsFile => writeFileSync pathsFile (JS.joinWith LF paths) false disk
  | None => (disk, Ok ())
  end.

(** [writeFileContent(options)], with the listing of [options.dir] and the
    files on disk when it is called; it returns the files on disk when it
    ends and [{ includedPaths, excludedPaths }], or the error it throws. *)
Definition writeFileContent (options : CodeAtlasConfig)
    (rootListing : result (list Dirent)) (disk0 : Disk)
    : Disk * result (list string * list string) :=
  let '(w, r) := contentWalk options rootListing disk0 in
  let s := user w in
  match r with
  | Err e => (disk s, Err e)
  | Ok _ =>
      match writePaths (includedPathsFile options) (includedPaths s) (disk s) with
      | (disk1, Err e) => (disk1, Err e)
      | (disk1, Ok _) =>
          match writePaths (excludedPathsFile options) (excludedPaths s) disk1 with
          | (disk2, Err e) => (disk2, Err e)
          | (disk2, Ok _) => (disk2, Ok (includedPaths s, excludedPaths s))
          end
      end
  end.

End Content.

(** ** [src/main.ts]: the tree view *)

Section Main.
Context `{Host}.

(** Function to build indentation with vertical lines. *)
Definition buildIndent (depth : nat) (depthOpen : gmap nat bool) : string :=
  foldl (λ indent i,
           indent +:+ (if default false (depthOpen !! i) then "│  " else "   "))
    EmptyString (seq 0 depth).

(** The two callbacks of the tree view; [slash] is the text that follows the
    name. *)
Definition treeLine (output slash : string) : Callback Disk :=
  λ _ relPath depth isLast w,
    let indent := buildIndent depth (depthOpen w) in
    let pipe := if isLast then "└─" else "├─" in
    stepUser
      (appendToFile output
         (indent +:+ pipe +:+ Path.lastPortion relPath +:+ slash +:+ LF)) w.

(** [validateConfig] of [src/config.ts] on a configuration of the declared
    type; the checks of [sort] and [sortDirection] cannot fail on a value
    of their type. *)
Definition validateConfig (config : CodeAtlasConfig) : result unit :=
  match maxFileSize config with
  | Some (Num m) => if negb (m =? 0)%Z && (m <? 0)%Z
                    then Err "maxFileSize must be a positive number" else Ok ()
  | Some NaN | None => Ok ()
  end.

End Main.

(** ** The command line of [src/main.ts] *)

Module CLI.

(** [CLIArgs] of [src/types.ts]; [None] is [undefined]. *)
Record CLIArgs : Type := {
  dir : option string;
  output : option string;
  ignore : option string;
  includedPathsFile : option string;
  excludedPathsFile : option string;
  config : option string;
  maxFileSize : option string;
  sort : option string;
  version : bool;
  help : bool;
}.

(** [args.find(arg => arg.startsWith(prefix))?.split('=')[1]] *)
Definition flagValue (prefix : string) (args : list string) : option string :=
  arg ← List.find (JS.isPrefix prefix) args; JS.split "="%char arg !! 1%nat.

(** The object [flags] that the script builds from
    [process.argv.slice(2)]. *)
Definition parseFlags (args : list string) : CLIArgs :=
  {| dir := flagValue "-dir=" args;
     output := flagValue "-output=" args;
     ignore := flagValue "-ignore=" args;
     includedPathsFile := flagValue "-included-paths-file=" args;
     excludedPathsFile := flagValue "-excluded-paths-file=" args;
     config := flagValue "-config=" args;
     maxFileSize := flagValue "-max-file-size=" args;
     sort := flagValue "-sort=" args;
     version := bool_decide ("-version" ∈ args);
     help := bool_decide ("-help" ∈ args) |}.

(** What the script does once the flags are parsed: it prints the version
    and exits with code 0, prints the help and exits with code 0, or calls
    [main()]. *)
Inductive Start : Type :=
| PrintVersion
| PrintHelp
| RunMain (flags : CLIArgs).

Definition start (args : list string) : Start :=
  let flags := parseFlags args in
  if version flags then PrintVersion
  else if help flags || bool_decide (length args = 0%nat) then PrintHelp
  else RunMain flags.

End CLI.

(** ** [src/config.ts]

    The configuration is handled here before [validateConfig] has seen it:
    [sort] and [sortDirection] hold whatever text the file or the command
    line gave, and [maxFileSize] whatever number [parseInt] returned.  An
    object is built with spreads, for which a key that holds [undefined] is
    not a missing key; both are kept apart. *)

Module Config.

(** The double quote of the string literals of the code. *)
Definition QUOTE : string := String "034"%char EmptyString.

(** The numbers of a configuration are those of [CodeAtlasConfig]. *)
Abbreviation JSNumber := JSNumber.
Abbreviation NaN := NaN.
Abbreviation Num := Num.

(** A key of an object: [None] when the object has no such key, [Some v]
    when it has, [v] being [None] for the value [undefined]. *)
Definition Key (A : Type) : Type := option (option A).

(** [object.key] *)
Definition read {A} (k : Key A) : option A :=
  match k with
  | Some v => v
  | None => None
  end.

(** The key of [{ ...base, ...override }]. *)
Definition spread {A} (base override : Key A) : Key A :=
  match override with
  | Some v => Some v
  | None => base
  end.

(** [a || b] for two values that are truthy whenever they are defined
    (arrays). *)
Definition orElse {A} (a b : option A) : option A :=
  match a with
  | Some v => Some v
  | None => b
  end.

(** [CodeAtlasConfig] of [src/types.ts], as an object. *)
Record RawConfig : Type := {
  dir : Key string;
  output : Key string;
  ignore : Key (list string);
  includedPathsFile : Key string;
  excludedPathsFile : Key string;
  header : Key string;
  maxFileSize : Key JSNumber;
  alwaysIncludeExtensions : Key (list string);
  fileTemplate : Key string;
  sort : Key string;
  sortDirection : Key string;
}.

(** The object literal [{}]. *)
Definition emptyRaw : RawConfig :=
  {| dir := None; output := None; ignore := None; includedPathsFile := None;
     excludedPathsFile := None; header := None; maxFileSize := None;
     alwaysIncludeExtensions := None; fileTemplate := None;
     sort := None; sortDirection := None |}.

(** Possible config file names (in priority order). *)
Definition CONFIG_FILES : list string :=
  [".code-atlas.json"; ".code-atlasrc"; ".code-atlasrc.json";
   "code-atlas.config.json"; "code-atlas.config.js"].

(** What [src/config.ts] takes from the platform. *)
Class ConfigHost : Type := {
  (** [parseInt(text)] *)
  parseInt : string → JSNumber;
  (** [existsSync(path)] *)
  existsSync : string → bool;
  (** [process.cwd()] *)
  cwd : string;
  (** [path.resolve(path)] *)
  resolve : string → string;
  (** [readFileSync(path, 'utf-8')] *)
  readFileSync : string → result string;
  (** [JSON.parse(content)], read as a configuration; [None] is [null],
      the one value of JSON whose keys cannot be read *)
  parseConfig : string → result (option RawConfig);
  (** [JSON.parse(content)['code-atlas'] || null], [None] being [null] *)
  parsePackage : string → result (option RawConfig);
  (** [module.default || module] of [await import(url)], which is never
      [null] *)
  importConfig : string → result RawConfig;
}.

(** Merges configurations (second argument takes priority). *)
Definition mergeConfigs (base override : RawConfig) : RawConfig :=
  {| dir := spread (dir base) (dir override);
     output := spread (output base) (output override);
     ignore := Some (orElse (read (ignore override)) (read (ignore base)));
     includedPathsFile :=
       spread (includedPathsFile base) (includedPathsFile override);
     excludedPathsFile :=
       spread (excludedPathsFile base) (excludedPathsFile override);
     header := spread (header base) (header override);
     maxFileSize := spread (maxFileSize base) (maxFileSize override);
     alwaysIncludeExtensions :=
       Some (orElse (read (alwaysIncludeExtensions override))
               (read (alwaysIncludeExtensions base)));
     fileTemplate := spread (fileTemplate base) (fileTemplate override);
     sort := spread (sort base) (sort override);
     sortDirection := spread (sortDirection base) (sortDirection override) |}.

(** [if (arg !== undefined) merged.key = convert(arg)] on [{ ...config }]. *)
Definition assign {A B} (convert : A → B) (arg : option A) (key : Key B)
    : Key B :=
  match arg with
  | Some a => Some (Some (convert a))
  | None => key
  end.

(** Validates configuration. *)
Definition validateConfig (config : RawConfig) : result unit :=
  if match read (maxFileSize config) with
     | Some (Num m) => negb (m =? 0)%Z && (m <? 0)%Z
     | Some NaN | None => false
     end
  then Err "maxFileSize must be a positive number"
  else if match read (sort config) with
          | Some s => negb (bool_decide (s = EmptyString))
                      && negb (bool_decide
                                 (s ∈ ["name"; "size"; "modified"; "type"]))
          | None => false
          end
  then Err "sort must be one of: name, size, modified, type"
  else if match read (sortDirection config) with
          | Some s => negb (bool_decide (s = EmptyString))
                      && negb (bool_decide (s ∈ ["asc"; "desc"]))
          | None => false
          end
  then Err ("sortDirection must be either " +:+ QUOTE +:+ "asc" +:+ QUOTE
            +:+ " or " +:+ QUOTE +:+ "desc" +:+ QUOTE)
  else Ok ().

(** The object [options] that [main] of [src/main.ts] builds from the merged
    configuration: [{ dir: finalConfig.dir || '.', output: finalConfig.output
    || 'codebase.md', ignore: finalConfig.ignore || ['\\.git.*'],
    ...finalConfig }]. *)
Definition mainOptions (finalConfig : RawConfig) : RawConfig :=
  {| dir := spread (Some (Some (default "." (truthy (read (dir finalConfig))))))
              (dir finalConfig);
     output := spread (Some (Some (default "codebase.md"
                                     (truthy (read (output finalConfig))))))
                 (output finalConfig);
     ignore := spread (Some (Some (default ["\.git.*"]
                                     (read (ignore finalConfig)))))
                 (ignore finalConfig);
     includedPathsFile := includedPathsFile finalConfig;
     excludedPathsFile := excludedPathsFile finalConfig;
     header := header finalConfig;
     maxFileSize := maxFileSize finalConfig;
     alwaysIncludeExtensions := alwaysIncludeExtensions finalConfig;
     fileTemplate := fileTemplate finalConfig;
     sort := sort finalConfig;
     sortDirection := sortDirection finalConfig |}.

Section Loading.
Context `{Host} `{ConfigHost}.

(** Merges configuration with CLI arguments.  [args.ignore] is the text of
    the flag, so [Array.isArray(args.ignore)] is false. *)
Definition mergeConfigWithArgs (config : RawConfig) (args : CLI.CLIArgs)
    : RawConfig :=
  {| dir := assign id (CLI.dir args) (dir config);
     output := assign id (CLI.output args) (output config);
     ignore := assign (JS.split ","%char) (CLI.ignore args) (ignore config);
     includedPathsFile :=
       assign id (CLI.includedPathsFile args) (includedPathsFile config);
     excludedPathsFile :=
       assign id (CLI.excludedPathsFile args) (excludedPathsFile config);
     header := header config;
     maxFileSize := assign parseInt (CLI.maxFileSize args) (maxFileSize config);
     alwaysIncludeExtensions := alwaysIncludeExtensions config;
     fileTemplate := fileTemplate config;
     sort := assign id (CLI.sort args) (sort config);
     sortDirection := sortDirection config |}.

(** Loads configuration from a specific file; [None] is [null]. *)
Definition loadConfigFile (filePath : string) : result (option RawConfig) :=
  let attempt : result (option RawConfig) :=
    let ext := toLowerCase <$> last (JS.split "."%char filePath) in
    if decide (ext = Some "js") then
      let fullPath := resolve filePath in
      module ← importConfig ("file://" +:+ fullPath);
      Ok (Some module)
    else
      content ← readFileSync filePath;
      parseConfig content in
  match attempt with
  | Ok config => Ok config
  | Err error =>
      Err ("Failed to load config from " +:+ filePath +:+ ": " +:+ error)
  end.

(** The loop of [findAndLoadConfig] over the names that are left. *)
Fixpoint findAmong (dir : string) (configFiles : list string)
    : result (option RawConfig) :=
  match configFiles with
  | [] => Ok (Some emptyRaw)
  | configFile :: rest =>
      let configPath := join dir configFile in
      if existsSync configPath then loadConfigFile configPath
      else findAmong dir rest
  end.

(** Finds and loads config file in the specified directory. *)
Definition findAndLoadConfig (dir : string) : result (option RawConfig) :=
  findAmong dir CONFIG_FILES.

(** Loads configuration from package.json; [None] is [null]. *)
Definition loadPackageJsonConfig : option RawConfig :=
  let packageJsonPath := join cwd "package.json" in
  if negb (existsSync packageJsonPath) then None
  else
    match content ← readFileSync packageJsonPath; parsePackage content with
    | Ok section => section
    | Err _ => None
    end.

(** Loads configuration from a file; [None] is [null].  With a section in
    [package.json], [mergeConfigs(packageConfig, config)] reads
    [config.ignore], which throws a [TypeError] when [config] is [null]. *)
Definition loadConfig (configPath : option string) : result (option RawConfig) :=
  config ←
    match truthy configPath with
    | Some configPath =>
        if negb (existsSync configPath)
        then Err ("Config file not found: " +:+ configPath)
        else loadConfigFile configPath
    | None => findAndLoadConfig cwd
    end;
  match loadPackageJsonConfig with
  | Some packageConfig =>
      match config with
      | Some config => Ok (Some (mergeConfigs packageConfig config))
      | None => Err "Cannot read properties of null (reading 'ignore')"
      end
  | None => Ok config
  end.

(** The first two statements of [main] of [src/main.ts]:
    [mergeConfigWithArgs(await loadConfig(flags.config), flags)].  The
    spread [{ ...config }] of [null] is [{}]. *)
Definition finalConfig (flags : CLI.CLIArgs) : result RawConfig :=
  config ← loadConfig (CLI.config flags);
  Ok (mergeConfigWithArgs (default emptyRaw config) flags).

End Loading.

End Config.

(** A configuration of the declared type as the object it is: a key is
    there when it holds a value. *)
Definition sortText (s : SortMethod) : string :=
  match s with
  | SortName => "name"
  | SortSize => "size"
  | SortModified => "modified"
  | SortType => "type"
  end.

Definition directionText (d : SortDirection) : string :=
  match d with
  | Asc => "asc"
  | Desc => "desc"
  end.

Definition asObject (c : CodeAtlasConfig) : Config.RawConfig :=
  {| Config.dir := Some <$> dir c;
     Config.output := Some <$> output c;
     Config.ignore := Some <$> ignore c;
     Config.includedPathsFile := Some <$> includedPathsFile c;
     Config.excludedPathsFile := Some <$> excludedPathsFile c;
     Config.header := Some <$> header c;
     Config.maxFileSize := Some <$> maxFileSize c;
     Config.alwaysIncludeExtensions := Some <$> alwaysIncludeExtensions c;
     Config.fileTemplate := Some <$> fileTemplate c;
     Config.sort := (λ s, Some (sortText s)) <$> sort c;
     Config.sortDirection := (λ d, Some (directionText d)) <$> sortDirection c |}.

(** An object as the functions of [src/utils.ts] read it.  A destructuring
    with defaults and the test [!== undefined] treat a key that holds
    [undefined] as a missing key.  [sortEntries] compares [sort] with
    ['size'], ['modified'] and ['type'] and sorts by name for every other
    text, and it compares [sortDirection] with ['asc'] only. *)
Definition sortOf (s : string) : SortMethod :=
  if decide (s = "size") then SortSize
  else if decide (s = "modified") then SortModified
  else if decide (s = "type") then SortType
  else SortName.

Definition directionOf (s : string) : SortDirection :=
  if decide (s = "asc") then Asc else Desc.

Definition declared (o : Config.RawConfig) : CodeAtlasConfig :=
  {| dir := Config.read (Config.dir o);
     output := Config.read (Config.output o);
     ignore := Config.read (Config.ignore o);
     includedPathsFile := Config.read (Config.includedPathsFile o);
     excludedPathsFile := Config.read (Config.excludedPathsFile o);
     header := Config.read (Config.header o);
     maxFileSize := Config.read (Config.maxFileSize o);
     alwaysIncludeExtensions := Config.read (Config.alwaysIncludeExtensions o);
     fileTemplate := Config.read (Config.fileTemplate o);
     sort := sortOf <$> Config.read (Config.sort o);
     sortDirection := directionOf <$> Config.read (Config.sortDirection o) |}.

(** ** [src/main.ts]: [main] *)

Section Run.
Context `{Host}.

(** [main()]: [finalConfig] is what [loadConfig] and [mergeConfigWithArgs]
    produce ([Err] when loading throws), [rootListing] is the listing of the
    scan root.  The result is the files on disk and the exit code of the
    process; whatever is thrown inside [try] ends it with code 1: an error
    of [validateConfig], the [TypeError] of [options.ignore.length] when
    [ignore] holds [undefined], that of [writeFileSync] or [readdir] when
    the path does, and the errors of the file system.  Console output is
    not modelled. *)
Definition main (finalConfig : result Config.RawConfig)
    (rootListing : result (list Dirent)) (disk0 : Disk) : Disk * Z :=
  match finalConfig with
  | Err _ => (disk0, 1%Z)
  | Ok finalConfig =>
      let options := Config.mainOptions finalConfig in
      match Config.validateConfig options with
      | Err _ => (disk0, 1%Z)
      | Ok _ =>
      (* [options.ignore.length] *)
      match Config.read (Config.ignore options) with
      | None => (disk0, 1%Z)
      | Some ignore =>
      let header :=
        default ("# Code Atlas Documentation" +:+ LF +:+ LF +:+
                 "Generated with Code Atlas" +:+ LF +:+ LF)
          (truthy (Config.read (Config.header options))) in
      (* [writeFileSync(options.output, ...)] *)
      match Config.read (Config.output options) with
      | None => (disk0, 1%Z)
      | Some output =>
      match writeFileSync output
              (header +:+ "## Tree View:" +:+ LF +:+ "```" +:+ LF)
              false disk0 with
      | (disk1, Err _) => (disk1, 1%Z)
      | (disk1, Ok _) =>
      (* [readdir(options.dir, ...)] in [walkDir] *)
      match Config.read (Config.dir options) with
      | None => (disk1, 1%Z)
      | Some dir =>
      match walkDir rootListing dir dir ignore
              (treeLine output EmptyString) (Some (treeLine output "/"))
              O emptyConfig (mkWorld ∅ disk1) with
      | (w, Err _) => (user w, 1%Z)
      | (w, Ok _) =>
      match appendToFile output
              ("```" +:+ LF +:+ LF +:+ "## Content:" +:+ LF) (user w) with
      | (disk2, Err _) => (disk2, 1%Z)
      | (disk2, Ok _) =>
      match writeFileContent (declared options) rootListing disk2 with
      | (disk3, Err _) => (disk3, 1%Z)
      | (disk3, Ok _) => (disk3, 0%Z)
      end end end end end end end end
  end.

End Run.

(** ** Observing a traversal

    The callbacks that record what they are called with, the [depthOpen]
    they see included. *)

Inductive Kind : Type := KFile | KDir.

Global Instance Kind_eq_dec : EqDecision Kind.
Proof. solve_decision. Defined.

Record Visit : Type := mkVisit {
  vKind : Kind;
  vPath : string;
  vRelPath : string;
  vDepth : nat;
  vIsLast : bool;
  vDepthOpen : gmap nat bool;
}.

Definition recordVisit (k : Kind) : Callback (list Visit) :=
  λ path relPath depth isLast w,
    (mkWorld (depthOpen w)
       (user w ++ [mkVisit k path relPath depth isLast (depthOpen w)])%list,
     Ok ()).

Section Observation.
Context `{Host}.

(** The traversal of release 1.1.0 under the recording callbacks, from the
    [depthOpen] it is started with. *)
Definition traced (listing : result (list Dirent)) (dirPath rootDir : string)
    (ignorePatterns : list string) (depth : nat) (options : CodeAtlasConfig)
    (depthOpen0 : gmap nat bool) : World (list Visit) * result unit :=
  walkDir listing dirPath rootDir ignorePatterns
    (recordVisit KFile) (Some (recordVisit KDir)) depth options
    (mkWorld depthOpen0 []).

(** The same for release 1.0.0. *)
Definition traced_1_0_0 (listing : result (list Dirent))
    (dirPath rootDir : string) (ignorePatterns : list string) (depth : nat)
    (depthOpen0 : gmap nat bool) : World (list Visit) * result unit :=
  Release_1_0_0.walkDir listing dirPath rootDir ignorePatterns
    (recordVisit KFile) (Some (recordVisit KDir)) depth
    (mkWorld depthOpen0 []).

End Observation.

(** ** The script of a traversal

    What a traversal does to the store is a sequence of callback calls and
    of writes to [depthOpen], followed by how it ends.  The sequence does not
    depend on the callbacks; [walkDirFuel_script] below shows that running
    it is what [walkDir] does. *)

Inductive Action : Type :=
| ACall (k : Kind) (path relPath : string) (depth : nat) (isLast : bool)
| ASet (depth : nat) (b : bool).

Definition Script : Type := list Action * result unit.

(** One script after another; a script that fails ends the sequence. *)
Definition seqScript (p q : Script) : Script :=
  match p.2 with
  | Ok _ => (p.1 ++ q.1, q.2)%list
  | Err e => (p.1, Err e)
  end.

Fixpoint scriptEntries (body : nat → Dirent → Script) (i : nat)
    (entries : list Dirent) : Script :=
  match entries with
  | [] => ([], Ok ())
  | entry :: rest => seqScript (body i entry) (scriptEntries body (S i) rest)
  end.

Section Script.
Context `{Host}.

(** The script of one entry, given the script of the directory below it. *)
Definition scriptEntry (below : result (list Dirent) → string → Script)
    (dirPath rootDir : string) (depth n i : nat) (entry : Dirent) : Script :=
  let fullPath := join dirPath (name entry) in
  let relPath := relative rootDir fullPath in
  let isLast := Nat.eqb i (n - 1) in
  match entry with
  | DirEntry _ sub =>
      seqScript ([ACall KDir fullPath relPath depth isLast;
                  ASet depth (negb isLast)], Ok ())
        (seqScript (below sub fullPath) ([ASet depth false], Ok ()))
  | FileEntry _ => ([ACall KFile fullPath relPath depth isLast], Ok ())
  end.

Fixpoint scriptFuel (fuel : nat) (listing : result (list Dirent))
    (dirPath rootDir : string) (ignorePatterns : list string)
    (depth : nat) (options : CodeAtlasConfig) : Script :=
  match fuel with
  | O => ([], Err "RangeError: Maximum call stack size exceeded")
  | S fuel' =>
      match listing with
      | Err e => ([], Err e)
      | Ok entries =>
          let filteredEntries :=
            List.filter (λ entry,
              negb (shouldIgnore (join dirPath (name entry)) ignorePatterns))
              entries in
          match sortEntries filteredEntries dirPath (sort options)
                  (sortDirection options) with
          | Err e => ([], Err e)
          | Ok sortedEntries =>
              scriptEntries
                (scriptEntry
                   (λ sub fullPath,
                      scriptFuel fuel' sub fullPath rootDir ignorePatterns
                        (depth + 1) options)
                   dirPath rootDir depth (length sortedEntries))
                O sortedEntries
          end
      end
  end.

(** The script of release 1.0.0. *)
Fixpoint scriptFuel_1_0_0 (fuel : nat) (listing : result (list Dirent))
    (dirPath rootDir : string) (ignorePatterns : list string)
    (depth : nat) : Script :=
  match fuel with
  | O => ([], Err "RangeError: Maximum call stack size exceeded")
  | S fuel' =>
      match listing with
      | Err e => ([], Err e)
      | Ok entries =>
          let filteredEntries :=
            List.filter (λ entry,
              negb (shouldIgnore (join dirPath (name entry)) ignorePatterns))
              entries in
          scriptEntries
            (scriptEntry
               (λ sub fullPath,
                  scriptFuel_1_0_0 fuel' sub fullPath rootDir ignorePatterns
                    (depth + 1))
               dirPath rootDir depth (length filteredEntries))
            O filteredEntries
      end
  end.

End Script.

Section RunScript.
Context {St : Type} (onFile : Callback St) (onDir : option (Callback St)).

Definition runAction (a : Action) : M St unit :=
  match a with
  | ACall KFile path relPath depth isLast => onFile path relPath depth isLast
  | ACall KDir path relPath depth isLast =>
      match onDir with
      | Some onDir => onDir path relPath depth isLast
      | None => mret ()
      end
  | ASet depth b => setDepthOpen depth b
  end.

Fixpoint runActions (acts : list Action) : M St unit :=
  match acts with
  | [] => mret ()
  | a :: rest => runAction a;; runActions rest
  end.

Definition runScript (p : Script) : M St unit :=
  runActions p.1;; await p.2.

End RunScript.

(** * Notions used in the statements *)

(** ** A concrete host

    ASCII lower-casing, the byte order of strings, patterns that match
    themselves, paths joined with one separator, and a table of files.  A
    path names the same file with and without a leading ['./'].  A
    directory is there when the table has something in it or the run has
    made it; a write throws for the empty path and for a file in a
    directory that is not there.  It agrees with Node on the inputs of the
    examples below. *)

Module Example.

Definition lowerChar (c : ascii) : ascii :=
  let n := nat_of_ascii c in
  if (65 <=? n)%nat && (n <=? 90)%nat then ascii_of_nat (n + 32) else c.

Fixpoint lower (s : string) : string :=
  match s with
  | EmptyString => EmptyString
  | String c rest => String (lowerChar c) (lower rest)
  end.

Definition byteOrder (a b : string) : Z :=
  match String.compare a b with
  | Lt => (-1)%Z
  | Eq => 0%Z
  | Gt => 1%Z
  end.

Fixpoint lookupFile {A} (table : list (string * A)) (path : string) : result A :=
  match table with
  | [] => Err "ENOENT"
  | (p, a) :: rest => if decide (p = path) then Ok a else lookupFile rest path
  end.

(** The path without its leading ['./']s. *)
Fixpoint plain (path : string) : string :=
  match path with
  | String "." (String "/" rest) => plain rest
  | _ => path
  end.

(** The text before the last ['/'], or ['.'] without one. *)
Definition parent (path : string) : string :=
  match Path.splitLast "/" path with
  | Some (dir, _) => dir
  | None => "."
  end.

Definition present {A} (table : list (string * A)) (dir : string) (disk : Disk)
    : bool :=
  bool_decide (dir = ".") || bool_decide (dir ∈ made disk)
  || existsb (λ entry, JS.isPrefix (dir +:+ "/") entry.1) table.

Definition host (table : list (string * (Stats * string))) : Host :=
  {| toLowerCase := lower;
     localeCompare := byteOrder;
     minimatch := λ path pattern, bool_decide (path = pattern);
     join := λ dir name, dir +:+ "/" +:+ name;
     relative := λ from to, JS.dropN (String.length from + 1)%nat to;
     stat := λ path, x ← lookupFile table path; Ok x.1;
     readFile := λ path, x ← lookupFile table path; Ok x.2;
     fileOf := plain;
     dirname := λ path, parent (plain path);
     existsSync := λ path disk, present table (plain path) disk;
     mkdirError := λ _ _, None;
     writeError := λ _ path _ disk,
       if bool_decide (path = EmptyString)
          || negb (present table (parent (plain path)) disk)
       then Some ("ENOENT", None) else None |}.

End Example.

(** ** A host that compares as Unicode asks

    [localeCompare] takes canonically equivalent strings as equal: the
    letter [é] as one code point (the bytes 195, 169) and as [e] followed
    by the combining acute accent (the bytes 204, 129) compare as 0.  All
    else is as in the host above. *)
Module Canonical.

(** The one composition the example needs. *)
Fixpoint compose (s : string) : string :=
  match s with
  | String "e" (String "204" (String "129" rest)) =>
      String "195" (String "169" (compose rest))
  | String c rest => String c (compose rest)
  | EmptyString => EmptyString
  end.

Definition host : Host :=
  {| toLowerCase := Example.lower;
     localeCompare := λ a b, Example.byteOrder (compose a) (compose b);
     minimatch := @minimatch (Example.host []);
     join := @join (Example.host []);
     relative := @relative (Example.host []);
     stat := @stat (Example.host []);
     readFile := @readFile (Example.host []);
     fileOf := @fileOf (Example.host []);
     dirname := @dirname (Example.host []);
     existsSync := @existsSync (Example.host []);
     mkdirError := @mkdirError (Example.host []);
     writeError := @writeError (Example.host []) |}.

(** [é] in its two forms. *)
Definition composed : string := String "195" (String "169" EmptyString).
Definition decomposed : string :=
  String "e" (String "204" (String "129" EmptyString)).

End Canonical.

(** A comparator is consistent when its sign is that of a total preorder. *)
Definition consistent {A : Type} (cmp : A → A → Z) : Prop :=
  (∀ x y, (0 < cmp x y)%Z → (cmp y x ≤ 0)%Z)
  ∧ (∀ x y z, (cmp x y ≤ 0)%Z → (cmp y z ≤ 0)%Z → (cmp x z ≤ 0)%Z).

(** The same among the values that [P] holds of. *)
Definition consistentAmong {A : Type} (P : A → Prop) (cmp : A → A → Z) : Prop :=
  (∀ x y, P x → P y → (0 < cmp x y)%Z → (cmp y x ≤ 0)%Z)
  ∧ (∀ x y z, P x → P y → P z →
       (cmp x y ≤ 0)%Z → (cmp y z ≤ 0)%Z → (cmp x z ≤ 0)%Z).

(** The visits a script makes and the [depthOpen] it leaves, from the
    [depthOpen] it starts with. *)
Fixpoint snapshots (dO : gmap nat bool) (acts : list Action)
    : list Visit * gmap nat bool :=
  match acts with
  | [] => ([], dO)
  | ACall k path relPath depth isLast :: rest =>
      (mkVisit k path relPath depth isLast dO :: (snapshots dO rest).1,
       (snapshots dO rest).2)
  | ASet depth b :: rest => snapshots (<[depth := b]> dO) rest
  end.

(** The text after the last [c] of [s], or all of [s] when it has no
    [c]. *)
Definition afterLast (c : ascii) (s : string) : string :=
  match Path.splitLast c s with
  | Some (_, post) => post
  | None => s
  end.

(** Whether the character [c] occurs in [s]. *)
Fixpoint occurs (c : ascii) (s : string) : bool :=
  match s with
  | EmptyString => false
  | String a rest => bool_decide (a = c) || occurs c rest
  end.

(** The level an action is about: the depth of the entry a callback is
    called for, or the slot of [depthOpen] that is written. *)
Definition actionDepth (a : Action) : nat :=
  match a with
  | ACall _ _ _ depth _ => depth
  | ASet depth _ => depth
  end.

(** What a callback was called with, the [depthOpen] it saw left out. *)
Definition visitKey (v : Visit) : Kind * string * string * nat * bool :=
  (vKind v, vPath v, vRelPath v, vDepth v, vIsLast v).

Definition kindOf (e : Dirent) : Kind := if isDirectory e then KDir else KFile.

(** The visits made at one depth, in the order they were made. *)
Definition visitsAt (depth : nat) (vs : list Visit) : list Visit :=
  List.filter (λ v, Nat.eqb (vDepth v) depth) vs.

(** A callback call for an entry deeper than [depth]; writes to [depthOpen]
    are no calls. *)
Definition deeperCall (depth : nat) (a : Action) : Prop :=
  match a with
  | ACall _ _ _ d _ => (depth + 1 ≤ d)%nat
  | ASet _ _ => True
  end.

(** No level from [depth] on is marked open in [dO], except where [base],
    the [depthOpen] the traversal was started with, marked it open. *)
Definition closedFrom (base : gmap nat bool) (depth : nat)
    (dO : gmap nat bool) : Prop :=
  ∀ j, (depth ≤ j)%nat → dO !! j = Some true → base !! j = Some true.

(** A visit saw no such open level at its own depth or deeper. *)
Definition sawClosed (base : gmap nat bool) (v : Visit) : Prop :=
  closedFrom base (vDepth v) (vDepthOpen v).

(** What is assumed of the script of a directory one level down. *)
Definition belowClosed (base : gmap nat bool)
    (below : result (list Dirent) → string → Script) (depth : nat) : Prop :=
  ∀ sub fullPath dO, closedFrom base (depth + 1) dO →
    Forall (sawClosed base) (snapshots dO (below sub fullPath).1).1
    ∧ ((below sub fullPath).2 = Ok () →
       closedFrom base (depth + 1) (snapshots dO (below sub fullPath).1).2).

(** What identifies a visited entry: its relative path, its depth and its
    kind. *)
Definition visitTriple (v : Visit) : string * nat * Kind :=
  (vRelPath v, vDepth v, vKind v).

Fixpoint callTriples (acts : list Action) : list (string * nat * Kind) :=
  match acts with
  | [] => []
  | ACall k _ relPath depth _ :: rest => (relPath, depth, k) :: callTriples rest
  | ASet _ _ :: rest => callTriples rest
  end.

(** The file calls of a script: the path and the relative path of every
    file the [onFile] callback is called for, in order. *)
Fixpoint fileCalls (acts : list Action) : list (string * string) :=
  match acts with
  | [] => []
  | ACall KFile path relPath _ _ :: rest => (path, relPath) :: fileCalls rest
  | _ :: rest => fileCalls rest
  end.

(** The visits of files among the visits of a traversal. *)
Definition fileVisits (vs : list Visit) : list Visit :=
  List.filter (λ v, bool_decide (vKind v = KFile)) vs.

(** The path and the relative path of every file a traversal visited. *)
Definition visitedFiles (w : World (list Visit)) : list (string * string) :=
  (λ v, (vPath v, vRelPath v)) <$> fileVisits (user w).

(** Every directory below the entry can be listed. *)
Fixpoint readableEntry (e : Dirent) : Prop :=
  match e with
  | FileEntry _ => True
  | DirEntry _ (Ok entries) =>
      (fix all (l : list Dirent) : Prop :=
         match l with
         | [] => True
         | x :: rest => readableEntry x ∧ all rest
         end) entries
  | DirEntry _ (Err _) => False
  end.

Definition readableListing (listing : result (list Dirent)) : Prop :=
  match listing with
  | Ok entries => Forall readableEntry entries
  | Err _ => False
  end.

Section Notions.
Context `{Host}.

(** The order that the sort gives two entries of the same kind, [a] before
    [b]: by the size or the modification time of their [stat] under the
    methods [size] and [modified], whatever their kind; otherwise by name,
    except that two files under the method [type] go by lower-cased
    extension when their extensions differ. *)
Definition sameKindOrder (dirPath : string) (method : SortMethod)
    (multiplier : Z) (a b : Dirent) : Prop :=
  match method with
  | SortSize =>
      ∃ sa sb, stat (join dirPath (name a)) = Ok sa
               ∧ stat (join dirPath (name b)) = Ok sb
               ∧ (multiplier * (size sa - size sb) ≤ 0)%Z
  | SortModified =>
      ∃ sa sb, stat (join dirPath (name a)) = Ok sa
               ∧ stat (join dirPath (name b)) = Ok sb
               ∧ (multiplier * (mtimeMs sa - mtimeMs sb) ≤ 0)%Z
  | SortName => (multiplier * localeCompare (name a) (name b) ≤ 0)%Z
  | SortType =>
      let extA := toLowerCase (Path.extname (name a)) in
      let extB := toLowerCase (Path.extname (name b)) in
      if isDirectory a then (multiplier * localeCompare (name a) (name b) ≤ 0)%Z
      else if decide (extA = extB)
           then (multiplier * localeCompare (name a) (name b) ≤ 0)%Z
           else (multiplier * localeCompare extA extB ≤ 0)%Z
  end.

(** [localeCompare] tells the extensions of the files among [entries]
    apart: no two of their lower-cased extensions are different texts that
    it takes as equal. *)
Definition extensionsApart (entries : list Dirent) : Prop :=
  ∀ a b, a ∈ entries → b ∈ entries →
    isDirectory a = false → isDirectory b = false →
    localeCompare (toLowerCase (Path.extname (name a)))
      (toLowerCase (Path.extname (name b))) = 0%Z →
    toLowerCase (Path.extname (name a)) = toLowerCase (Path.extname (name b)).

(** [sortDirection === 'asc' ? 1 : -1] *)
Definition multiplierOf (sortDirection : option SortDirection) : Z :=
  if decide (default Asc sortDirection = Asc) then 1%Z else (-1)%Z.

(** Directories first, and the order of [sameKindOrder] within a kind. *)
Definition orderedPair (dirPath : string) (method : SortMethod)
    (multiplier : Z) (a b : Dirent) : Prop :=
  (isDirectory b = true → isDirectory a = true)
  ∧ (isDirectory a = isDirectory b →
     sameKindOrder dirPath method multiplier a b).

(** What the callback of the [k]-th of [n] sorted entries is called with. *)
Definition entryKey (dirPath rootDir : string) (depth n k : nat) (entry : Dirent)
    : Kind * string * string * nat * bool :=
  (kindOf entry, join dirPath (name entry),
   relative rootDir (join dirPath (name entry)), depth, Nat.eqb k (n - 1)).

(** Whether the traversal of an entry completes, and the triples it visits,
    given the script of the directory below it. *)
Definition entryOk (below : result (list Dirent) → string → Script)
    (dirPath : string) (entry : Dirent) : Prop :=
  match entry with
  | FileEntry _ => True
  | DirEntry nm sub => (below sub (join dirPath nm)).2 = Ok ()
  end.

Definition entryTriples (below : result (list Dirent) → string → Script)
    (dirPath rootDir : string) (depth : nat) (entry : Dirent)
    : list (string * nat * Kind) :=
  match entry with
  | FileEntry nm => [(relative rootDir (join dirPath nm), depth, KFile)]
  | DirEntry nm sub =>
      (relative rootDir (join dirPath nm), depth, KDir)
      :: callTriples (below sub (join dirPath nm)).1
  end.

(** The size policy as a test on a path: the file is larger than the
    configured maximum and its extension is not exempt. *)
Definition excludedBySize (maxFileSize : option JSNumber)
    (alwaysIncludeExtensions : list string) (filePath : string) : bool :=
  match maxFileSize, stat filePath with
  | Some maxFileSize, Ok fileStat =>
      greater (size fileStat) maxFileSize
      && negb (shouldAlwaysInclude alwaysIncludeExtensions (extensionOf filePath))
  | _, _ => false
  end.

(** What is appended to the output for an included file. *)
Definition emitted (fileTemplate : option string)
    (filePath relPath : string) : string :=
  let extension := extensionOf filePath in
  let content := match readFile filePath with
                 | Ok content => content
                 | Err _ => EmptyString
                 end in
  match truthy fileTemplate with
  | Some fileTemplate =>
      formatWithTemplate fileTemplate relPath extension content +:+ LF +:+ LF
  | None =>
      ("## " +:+ relPath +:+ LF) +:+
      ("```" +:+ extension +:+ LF +:+ content +:+ LF +:+ "```" +:+ LF +:+ LF)
  end.

(** No [writeFileSync(filePath, ...)] throws, whatever the data and
    whatever the run has done before; the same for [appendToFile]. *)
Definition writable (filePath : string) : Prop :=
  ∀ data disk, (writeFileSync filePath data false disk).2 = Ok ().

Definition appendable (filePath : string) : Prop :=
  ∀ data disk, (appendToFile filePath data disk).2 = Ok ().

(** The text of the files that are not left out, one after another. *)
Definition emittedAll (maxFileSize : option JSNumber) (exts : list string)
    (fileTemplate : option string) (files : list (string * string)) : string :=
  foldr (λ f acc, emitted fileTemplate f.1 f.2 +:+ acc) EmptyString
    (List.filter (λ f, negb (excludedBySize maxFileSize exts f.1)) files).

(** The traversal that the content pass of [options] makes, observed. *)
Definition contentTraversal (options : CodeAtlasConfig)
    (rootListing : result (list Dirent)) : World (list Visit) * result unit :=
  traced rootListing (default "." (dir options)) (default "." (dir options))
    (default [] (ignore options)) 0
    (sortConfig (sort options) (sortDirection options)) ∅.

End Notions.

(** ** A small tree

    The tree of the specification's examples: a small file, a large file
    and a directory [zdir] with one file, scanned with a maximum size of
    1000 bytes. *)

Module Scenario.

Definition table : list (string * (Stats * string)) :=
  [("root/small.ts", ({| size := 1; mtimeMs := 10 |}, "x"));
   ("root/big.bin", ({| size := 10000; mtimeMs := 20 |}, "BIG"));
   ("root/zdir", ({| size := 4096; mtimeMs := 30 |}, EmptyString));
   ("root/zdir/inner.ts", ({| size := 5; mtimeMs := 40 |}, "inner"))].

Definition host : Host := Example.host table.

Definition listing : result (list Dirent) :=
  Ok [FileEntry "small.ts"; FileEntry "big.bin";
      DirEntry "zdir" (Ok [FileEntry "inner.ts"])].

Definition options : CodeAtlasConfig :=
  {| dir := Some "root"; output := Some "out.md"; ignore := None;
     includedPathsFile := None; excludedPathsFile := None; header := None;
     maxFileSize := Some (Num 1000); alwaysIncludeExtensions := None;
     fileTemplate := None; sort := None; sortDirection := None |}.


(** A listing with a directory that cannot be read. *)
Definition unreadable : result (list Dirent) :=
  Ok [FileEntry "b"; DirEntry "a" (Err "EACCES")].

End Scenario.

(** ** The tree below a listing

    The entries that are to be visited below a listing, written down from
    the tree alone: in the order of [readdir], an entry that is not ignored
    is followed by what is below it. *)

Section Tree.
Context `{Host}.

Fixpoint entryTree (rootDir : string) (ignorePatterns : list string)
    (dirPath : string) (depth : nat) (e : Dirent)
    : list (string * nat * Kind) :=
  let fullPath := join dirPath (name e) in
  if shouldIgnore fullPath ignorePatterns then []
  else
    (relative rootDir fullPath, depth, kindOf e)
    :: match e with
       | DirEntry _ (Ok entries) =>
           (fix below (l : list Dirent) : list (string * nat * Kind) :=
              match l with
              | [] => []
              | x :: rest =>
                  (entryTree rootDir ignorePatterns fullPath (depth + 1) x
                   ++ below rest)%list
              end) entries
       | _ => []
       end.

Definition listingTree (rootDir : string) (ignorePatterns : list string)
    (dirPath : string) (depth : nat) (listing : result (list Dirent))
    : list (string * nat * Kind) :=
  match listing with
  | Ok entries => entries ≫= entryTree rootDir ignorePatterns dirPath depth
  | Err _ => []
  end.

(** Every directory that is not ignored can be listed, and so can those
    below it. *)
Fixpoint listableEntry (ignorePatterns : list string) (dirPath : string)
    (e : Dirent) : Prop :=
  let fullPath := join dirPath (name e) in
  if shouldIgnore fullPath ignorePatterns then True
  else
    match e with
    | FileEntry _ => True
    | DirEntry _ (Ok entries) =>
        (fix all (l : list Dirent) : Prop :=
           match l with
           | [] => True
           | x :: rest => listableEntry ignorePatterns fullPath x ∧ all rest
           end) entries
    | DirEntry _ (Err _) => False
    end.

Definition listableListing (ignorePatterns : list string) (dirPath : string)
    (listing : result (list Dirent)) : Prop :=
  match listing with
  | Ok entries => Forall (listableEntry ignorePatterns dirPath) entries
  | Err _ => False
  end.

End Tree.

(** ** The tree view as a drawing

    The text of the tree view written down with the indentation passed
    along: a line is the indentation of its level, the connector, the name
    and, for a directory, a slash; the lines below a directory are indented
    by one more segment, a bar while the directory has siblings to come. *)

(** The line that the callbacks of the tree view write for a visit. *)
Definition treeLineOf (v : Visit) : string :=
  buildIndent (vDepth v) (vDepthOpen v)
  +:+ (if vIsLast v then "└─" else "├─")
  +:+ Path.lastPortion (vRelPath v)
  +:+ match vKind v with KDir => "/" | KFile => EmptyString end
  +:+ LF.

Definition treeText (vs : list Visit) : string :=
  foldr (λ v text, treeLineOf v +:+ text) EmptyString vs.

Fixpoint drawEntries (body : nat → Dirent → string) (i : nat)
    (entries : list Dirent) : string :=
  match entries with
  | [] => EmptyString
  | entry :: rest => body i entry +:+ drawEntries body (S i) rest
  end.

Section Drawing.
Context `{Host}.

(** The [i]-th of [n] entries of a listing: its line, and below it what
    [drawBelow] draws for the directory with the longer indentation. *)
Definition drawEntry (drawBelow : result (list Dirent) → string → string → string)
    (dirPath rootDir : string) (n : nat) (indent : string) (i : nat)
    (entry : Dirent) : string :=
  let fullPath := join dirPath (name entry) in
  let relPath := relative rootDir fullPath in
  let isLast := Nat.eqb i (n - 1) in
  (indent +:+ (if isLast then "└─" else "├─") +:+ Path.lastPortion relPath
   +:+ (if isDirectory entry then "/" else EmptyString) +:+ LF)
  +:+ match entry with
      | DirEntry _ sub =>
          drawBelow sub fullPath (indent +:+ (if isLast then "   " else "│  "))
      | FileEntry _ => EmptyString
      end.

Fixpoint drawFuel (fuel : nat) (listing : result (list Dirent))
    (dirPath rootDir : string) (ignorePatterns : list string)
    (options : CodeAtlasConfig) (indent : string) : string :=
  match fuel with
  | O => EmptyString
  | S fuel' =>
      match listing with
      | Err _ => EmptyString
      | Ok entries =>
          let filteredEntries :=
            List.filter (λ entry,
              negb (shouldIgnore (join dirPath (name entry)) ignorePatterns))
              entries in
          match sortEntries filteredEntries dirPath (sort options)
                  (sortDirection options) with
          | Err _ => EmptyString
          | Ok sortedEntries =>
              drawEntries
                (drawEntry
                   (λ sub fullPath indent',
                      drawFuel fuel' sub fullPath rootDir ignorePatterns
                        options indent')
                   dirPath rootDir (length sortedEntries) indent)
                O sortedEntries
          end
      end
  end.

Definition drawTree (listing : result (list Dirent))
    (dirPath rootDir : string) (ignorePatterns : list string)
    (options : CodeAtlasConfig) : string :=
  drawFuel (S (listingDepth listing)) listing dirPath rootDir ignorePatterns
    options EmptyString.

End Drawing.

(** ** Replacing with a text that is taken as it is

    [s.replace(/pat/g, () => replacement)]: every match, from left to right,
    gives way to the replacement text itself. *)

Fixpoint replacePlainScan (pat replacement : string) (skip : nat)
    (s : string) : string :=
  match s with
  | EmptyString => EmptyString
  | String c s' =>
      match skip with
      | S k => replacePlainScan pat replacement k s'
      | O =>
          if JS.isPrefix pat s then
            replacement
              +:+ replacePlainScan pat replacement
                    (pred (String.length pat)) s'
          else String c (replacePlainScan pat replacement O s')
      end
  end.

Definition replaceAllPlain (pat replacement s : string) : string :=
  replacePlainScan pat replacement O s.

(** ** A configuration host

    No file exists but those of the table; [parseInt] reads a text of
    decimal digits. *)

Module ConfigExample.

Fixpoint digits (acc : Z) (s : string) : option Z :=
  match s with
  | EmptyString => Some acc
  | String c rest =>
      let n := nat_of_ascii c in
      if (48 <=? n)%nat && (n <=? 57)%nat
      then digits (10 * acc + Z.of_nat (n - 48))%Z rest
      else None
  end.

Definition readInt (s : string) : Config.JSNumber :=
  match s with
  | EmptyString => Config.NaN
  | _ => match digits 0 s with
         | Some z => Config.Num z
         | None => Config.NaN
         end
  end.

Definition fromDir (dir : string) : Config.RawConfig :=
  {| Config.dir := Some (Some dir); Config.output := None;
     Config.ignore := None; Config.includedPathsFile := None;
     Config.excludedPathsFile := None; Config.header := None;
     Config.maxFileSize := None; Config.alwaysIncludeExtensions := None;
     Config.fileTemplate := None; Config.sort := None;
     Config.sortDirection := None |}.

(** The files of the table hold a configuration that sets [dir] to their
    text; [package.json] holds a section that does the same. *)
Definition host (files : list (string * string)) : Config.ConfigHost :=
  {| Config.parseInt := readInt;
     Config.existsSync := λ path,
       bool_decide (path ∈ files.*1);
     Config.cwd := "/work";
     Config.resolve := λ path, "/work/" +:+ path;
     Config.readFileSync := λ path, Example.lookupFile files path;
     Config.parseConfig := λ content,
       if decide (content = EmptyString) then Err "SyntaxError"
       else if decide (content = "null") then Ok None
       else Ok (Some (fromDir content));
     Config.parsePackage := λ content,
       if decide (content = EmptyString) then Err "SyntaxError"
       else if decide (content = "{}") then Ok None
       else Ok (Some (fromDir content));
     Config.importConfig := λ url, Ok (fromDir url) |}.

End ConfigExample.

(** * Properties *)

(** ** The monad *)

Lemma bind_unfold {St A B} (m : M St A) (k : A → M St B) (w : World St) :
  (m ≫= k) w = match m w with
               | (w', Ok a) => k a w'
               | (w', Err e) => (w', Err e)
               end.
Proof. reflexivity. Qed.

Lemma result_bind_Ok {A B} (r : result A) (k : A → result B) (b : B) :
  r ≫= k = Ok b → ∃ a, r = Ok a ∧ k a = Ok b.
Proof. destruct r as [a|e]; [eauto | discriminate]. Qed.

(** ** Running a script *)

Section RunScriptFacts.
Context {St : Type} (onFile : Callback St) (onDir : option (Callback St)).

Lemma runActions_app (xs ys : list Action) (w : World St) :
  runActions onFile onDir (xs ++ ys) w
  = (runActions onFile onDir xs;; runActions onFile onDir ys) w.
Proof.
  revert w. induction xs as [|a xs IH]; intros w.
  - rewrite bind_unfold. reflexivity.
  - simpl. rewrite !bind_unfold.
    destruct (runAction onFile onDir a w) as [w1 [[]|e]]; [|reflexivity].
    rewrite IH, bind_unfold. reflexivity.
Qed.

Lemma runScript_seq (p q : Script) (w : World St) :
  runScript onFile onDir (seqScript p q) w
  = (runScript onFile onDir p;; runScript onFile onDir q) w.
Proof.
  destruct p as [xs [[]|e]], q as [ys r]; unfold runScript, seqScript; simpl.
  - rewrite !bind_unfold, runActions_app, bind_unfold.
    destruct (runActions onFile onDir xs w) as [w1 [[]|e]]; [|reflexivity].
    unfold await. rewrite bind_unfold. reflexivity.
  - rewrite !bind_unfold.
    destruct (runActions onFile onDir xs w) as [w1 [[]|e']]; reflexivity.
Qed.

Lemma forEntries_script (body : nat → Dirent → M St unit)
    (sbody : nat → Dirent → Script) (entries : list Dirent) :
  (∀ i entry w, entry ∈ entries →
     body i entry w = runScript onFile onDir (sbody i entry) w) →
  ∀ i w, forEntries body i entries w
         = runScript onFile onDir (scriptEntries sbody i entries) w.
Proof.
  induction entries as [|entry rest IH]; intros Hbody i w.
  - reflexivity.
  - simpl. rewrite runScript_seq, !bind_unfold.
    rewrite Hbody by apply list_elem_of_here.
    destruct (runScript onFile onDir (sbody i entry) w) as [w1 [[]|e]];
      [|reflexivity].
    apply IH. intros j x w' Hx. apply Hbody. by apply list_elem_of_further.
Qed.

End RunScriptFacts.

Section ScriptFacts.
Context `{Host} {St : Type} (onFile : Callback St) (onDir : option (Callback St)).

(** [walkDir] runs its script, whatever the callbacks are and however much
    fuel it is given. *)
Lemma walkDirFuel_script fuel listing dirPath rootDir ignorePatterns depth
    options (w : World St) :
  walkDirFuel fuel listing dirPath rootDir ignorePatterns onFile onDir depth
    options w
  = runScript onFile onDir
      (scriptFuel fuel listing dirPath rootDir ignorePatterns depth options) w.
Proof.
  revert listing dirPath depth w.
  induction fuel as [|fuel IH]; intros listing dirPath depth w; [reflexivity|].
  simpl. rewrite bind_unfold. unfold await at 1.
  destruct listing as [entries|e]; [|reflexivity].
  rewrite bind_unfold. unfold await at 1.
  destruct (sortEntries _ dirPath (sort options) (sortDirection options))
    as [sortedEntries|e]; [|reflexivity].
  apply forEntries_script. intros i entry w' _.
  destruct entry as [n|n sub]; unfold scriptEntry.
  - unfold runScript; simpl. rewrite !bind_unfold.
    destruct (onFile _ _ _ _ w') as [w1 [[]|e]]; reflexivity.
  - rewrite !runScript_seq, !bind_unfold.
    unfold runScript at 1; simpl. rewrite !bind_unfold.
    destruct onDir as [f|]; simpl.
    + destruct (f _ _ _ _ w') as [w1 [[]|e]]; [|reflexivity]. simpl.
      rewrite runScript_seq, !bind_unfold. unfold setDepthOpen at 1.
      rewrite bind_unfold, IH.
      destruct (runScript _ _ _ _) as [w2 [[]|e]]; reflexivity.
    + rewrite runScript_seq, !bind_unfold. unfold setDepthOpen at 1.
      rewrite bind_unfold, IH.
      destruct (runScript _ _ _ _) as [w2 [[]|e]]; reflexivity.
Qed.

Lemma walkDirFuel_script_1_0_0 fuel listing dirPath rootDir ignorePatterns
    depth (w : World St) :
  Release_1_0_0.walkDirFuel fuel listing dirPath rootDir ignorePatterns
    onFile onDir depth w
  = runScript onFile onDir
      (scriptFuel_1_0_0 fuel listing dirPath rootDir ignorePatterns depth) w.
Proof.
  revert listing dirPath depth w.
  induction fuel as [|fuel IH]; intros listing dirPath depth w; [reflexivity|].
  simpl. rewrite bind_unfold. unfold await at 1.
  destruct listing as [entries|e]; [|reflexivity].
  apply forEntries_script. intros i entry w' _.
  destruct entry as [n|n sub]; unfold scriptEntry.
  - unfold runScript; simpl. rewrite !bind_unfold.
    destruct (onFile _ _ _ _ w') as [w1 [[]|e]]; reflexivity.
  - rewrite !runScript_seq, !bind_unfold.
    unfold runScript at 1; simpl. rewrite !bind_unfold.
    destruct onDir as [f|]; simpl.
    + destruct (f _ _ _ _ w') as [w1 [[]|e]]; [|reflexivity]. simpl.
      rewrite runScript_seq, !bind_unfold. unfold setDepthOpen at 1.
      rewrite bind_unfold, IH.
      destruct (runScript _ _ _ _) as [w2 [[]|e]]; reflexivity.
    + rewrite runScript_seq, !bind_unfold. unfold setDepthOpen at 1.
      rewrite bind_unfold, IH.
      destruct (runScript _ _ _ _) as [w2 [[]|e]]; reflexivity.
Qed.

End ScriptFacts.

(** ** What the recording callbacks see *)

Lemma runActions_record acts dO (log : list Visit) :
  runActions (recordVisit KFile) (Some (recordVisit KDir)) acts (mkWorld dO log)
  = (mkWorld (snapshots dO acts).2 (log ++ (snapshots dO acts).1)%list, Ok ()).
Proof.
  revert dO log. induction acts as [|a acts IH]; intros dO log; simpl.
  - by rewrite app_nil_r.
  - rewrite bind_unfold. destruct a as [[] path relPath depth isLast|depth b];
      simpl; rewrite IH; simpl; by rewrite <- ?app_assoc.
Qed.

Lemma snapshots_app dO xs ys :
  snapshots dO (xs ++ ys)
  = ((snapshots dO xs).1 ++ (snapshots (snapshots dO xs).2 ys).1,
     (snapshots (snapshots dO xs).2 ys).2)%list.
Proof.
  revert dO. induction xs as [|a xs IH]; intros dO; simpl.
  - by destruct (snapshots dO ys).
  - destruct a as [k path relPath depth isLast|depth b]; simpl; by rewrite IH.
Qed.

Section TracedFacts.
Context `{Host}.

Lemma traced_script listing dirPath rootDir ignorePatterns depth options dO :
  traced listing dirPath rootDir ignorePatterns depth options dO
  = let s := scriptFuel (S (listingDepth listing)) listing dirPath rootDir
               ignorePatterns depth options in
    (mkWorld (snapshots dO s.1).2 (snapshots dO s.1).1, s.2).
Proof.
  unfold traced, walkDir. rewrite walkDirFuel_script.
  unfold runScript. rewrite bind_unfold, runActions_record. reflexivity.
Qed.

Lemma traced_script_1_0_0 listing dirPath rootDir ignorePatterns depth dO :
  traced_1_0_0 listing dirPath rootDir ignorePatterns depth dO
  = let s := scriptFuel_1_0_0 (S (listingDepth listing)) listing dirPath
               rootDir ignorePatterns depth in
    (mkWorld (snapshots dO s.1).2 (snapshots dO s.1).1, s.2).
Proof.
  unfold traced_1_0_0, Release_1_0_0.walkDir. rewrite walkDirFuel_script_1_0_0.
  unfold runScript. rewrite bind_unfold, runActions_record. reflexivity.
Qed.

(** A script that fails makes the traversal fail, whatever the callbacks
    do. *)
Lemma runScript_Err {St} (onFile : Callback St) onDir (s : Script) e w :
  s.2 = Err e → ∃ e', (runScript onFile onDir s w).2 = Err e'.
Proof.
  intros Hs. unfold runScript. rewrite bind_unfold.
  destruct (runActions onFile onDir s.1 w) as [w1 [[]|e1]]; simpl; [|eauto].
  rewrite Hs. eauto.
Qed.

End TracedFacts.

(** ** Errors of the file system *)

Section Errors.
Context `{Host}.

(** C9.  When listing a directory fails, [walkDir] returns that very error
    and leaves the store as it found it: no callback has run and nothing of
    the listing is produced.  The error is not suppressed further up either:
    when the traversal under the recording callbacks ends with an error,
    the traversal ends with an error under any callbacks.  At the boundary,
    [main] ends the process with exit code 1 when the listing of the scan
    root fails. *)
Theorem walkDir_listing_error_propagates {St} (e : error)
    (listing : result (list Dirent)) (dirPath rootDir : string)
    (ignorePatterns : list string) (onFile : Callback St)
    (onDir : option (Callback St)) (depth : nat) (options : CodeAtlasConfig)
    (w : World St) (dO : gmap nat bool)
    (finalConfig : result Config.RawConfig) (disk0 : Disk) :
  walkDir (Err e) dirPath rootDir ignorePatterns onFile onDir depth options w
    = (w, Err e)
  ∧ ((traced listing dirPath rootDir ignorePatterns depth options dO).2 = Err e →
     ∃ e', (walkDir listing dirPath rootDir ignorePatterns onFile onDir depth
              options w).2 = Err e')
  ∧ (main finalConfig (Err e) disk0).2 = 1%Z
  ∧ (main finalConfig (Err e) disk0).2 ≠ 0%Z.
Proof.
  assert (Hmain : (main finalConfig (Err e) disk0).2 = 1%Z).
  { unfold main. destruct finalConfig as [c|e0]; [|reflexivity].
    destruct (Config.validateConfig _); [|reflexivity].
    destruct (Config.read (Config.ignore _)); [|reflexivity].
    destruct (Config.read (Config.output _)); [|reflexivity].
    destruct (writeFileSync _ _ _ _) as [disk1 [[]|e1]]; [|reflexivity].
    destruct (Config.read (Config.dir _)); reflexivity. }
  split; [reflexivity|]. split; [|split; [exact Hmain|by rewrite Hmain]].
  rewrite traced_script. simpl. intros Hs.
  unfold walkDir. rewrite walkDirFuel_script. by eapply runScript_Err.
Qed.

End Errors.

(** ** The extension of a file *)

Lemma splitLast_absent c s : occurs c s = false → Path.splitLast c s = None.
Proof.
  induction s as [|a s IH]; simpl; [done|].
  intros [Ha Hs]%orb_false_elim. rewrite (IH Hs).
  apply bool_decide_eq_false in Ha. by destruct (decide (a = c)).
Qed.

Lemma splitLast_last c pre post :
  occurs c post = false →
  Path.splitLast c (pre +:+ String c post) = Some (pre, post).
Proof.
  intros Hpost. induction pre as [|a pre IH]; simpl.
  - rewrite (splitLast_absent _ _ Hpost). by destruct (decide (c = c)).
  - by rewrite IH.
Qed.

Section Extension.
Context `{Host}.

(** C6, as amended.  Let the file name be the last portion of the path.  If
    the final '.' of the name is not its first character, the derived
    extension is the lower-casing of the characters after it.  If the name
    contains no '.', or if its only '.' is its first character, the derived
    extension is the empty string. *)
Theorem extensionOf_file_name (filePath : string)
    (Hlower : toLowerCase EmptyString = EmptyString) :
  let fileName := Path.lastPortion filePath in
  (∀ pre post, fileName = pre +:+ String "."%char post →
     occurs "." post = false → pre ≠ EmptyString →
     extensionOf filePath = toLowerCase post)
  ∧ (occurs "." fileName = false → extensionOf filePath = EmptyString)
  ∧ (∀ post, fileName = String "."%char post → occurs "." post = false →
     extensionOf filePath = EmptyString).
Proof.
  intros fileName. unfold extensionOf, Path.extname. fold fileName.
  split; [|split].
  - intros pre post -> Hpost Hpre. rewrite (splitLast_last _ _ _ Hpost).
    destruct (decide (pre = EmptyString)) as [|_]; [done|].
    destruct (decide (pre +:+ String "."%char post = "..")) as [Heq|_]; [|done].
    destruct pre as [|a [|b pre]]; [done| |]; compute in Heq; simplify_eq/=.
    + done.
    + by destruct pre.
  - intros Hno. by rewrite (splitLast_absent _ _ Hno).
  - intros post -> Hpost.
    change (String "."%char post) with (EmptyString +:+ String "."%char post).
    rewrite (splitLast_last _ EmptyString _ Hpost). simpl. done.
Qed.

End Extension.

(** C6 as the specification words it fails on a dotfile: for
    [src/.gitignore] the characters after the final '.' of the name are
    [gitignore], and the derived extension is empty. *)
Lemma extensionOf_dotfile_counterexample :
  let host := Example.host [] in
  Path.lastPortion "src/.gitignore" = String "."%char "gitignore"
  ∧ occurs "." "gitignore" = false
  ∧ @extensionOf host "src/.gitignore" = EmptyString
  ∧ @extensionOf host "src/.gitignore" ≠ @toLowerCase host "gitignore".
Proof. repeat split; done. Qed.

(** ** The file template *)

(** A replacement text without a dollar sign is inserted as it is. *)
Lemma getSubstitution_without_dollar matched before after replacement :
  occurs "$" replacement = false →
  JS.getSubstitution matched before after replacement = replacement.
Proof.
  induction replacement as [|c r IH]; [done|].
  simpl occurs. intros [Hc Hr]%orb_false_elim.
  apply bool_decide_eq_false in Hc.
  assert (JS.getSubstitution matched before after (String c r)
          = String c (JS.getSubstitution matched before after r)) as ->.
  { destruct c as [[] [] [] [] [] [] [] []]; try done; by destruct r. }
  by rewrite IH.
Qed.

(** C5 fails on the code: with the template [{{content}}], a file whose
    text is [echo $$] is emitted as [echo $], since [replace] reads the [$$]
    of its replacement text as one dollar sign.  The same happens to [$&],
    which is replaced by the placeholder itself. *)
Theorem template_dollar_patterns :
  let host := Example.host
    [("root/pid.sh", ({| size := 7; mtimeMs := 0 |}, "echo $$"))] in
  let options :=
    {| dir := Some "root"; output := Some "out.md"; ignore := None;
       includedPathsFile := None; excludedPathsFile := None; header := None;
       maxFileSize := None; alwaysIncludeExtensions := None;
       fileTemplate := Some "{{content}}"; sort := None;
       sortDirection := None |} in
  formatWithTemplate "{{content}}" "pid.sh" "sh" "echo $$" = "echo $"
  ∧ formatWithTemplate "<{{content}}>" "a.js" "js" "s.replace(x, '$&')"
    = "<s.replace(x, '{{content}}')>"
  ∧ contents (@writeFileContent host options (Ok [FileEntry "pid.sh"])
                ∅).1 !! "out.md"
    = Some ("echo $" +:+ LF +:+ LF).
Proof. repeat split; vm_compute; reflexivity. Qed.

(** ** The concrete host is a host of the kind the theorems assume *)

Module ExampleFacts.

Lemma byteOrder_flip (a b : string) :
  (Example.byteOrder a b < 0 ↔ 0 < Example.byteOrder b a)%Z.
Proof.
  unfold Example.byteOrder. rewrite (String.compare_antisym a b).
  destruct (String.compare b a); simpl; lia.
Qed.

Lemma byteOrder_le (a b : string) :
  (Example.byteOrder a b ≤ 0)%Z ↔ String.le a b.
Proof.
  unfold Example.byteOrder, String.le, String.leb.
  destruct (String.compare a b); simpl; split; (done || lia).
Qed.

Lemma byteOrder_trans (a b c : string) :
  (Example.byteOrder a b ≤ 0 → Example.byteOrder b c ≤ 0 →
   Example.byteOrder a c ≤ 0)%Z.
Proof. rewrite !byteOrder_le. intros Hab Hbc. by etrans. Qed.

Lemma byteOrder_zero (a b : string) : Example.byteOrder a b = 0%Z → a = b.
Proof.
  unfold Example.byteOrder. destruct (String.compare a b) eqn:Hc; try done.
  intros _. by apply String.compare_eq_iff.
Qed.

End ExampleFacts.

(** ** Sorting *)

Section ArraySortFacts.
Context {A : Type} (cmp : A → A → Z).

Lemma insertSorted_perm x l : insertSorted cmp x l ≡ₚ x :: l.
Proof.
  induction l as [|y l IH]; simpl; [done|].
  destruct (cmp x y <=? 0)%Z; [done|]. rewrite IH. apply Permutation_swap.
Qed.

Lemma arraySort_perm l : arraySort cmp l ≡ₚ l.
Proof.
  induction l as [|x l IH]; simpl; [done|].
  unfold arraySort in *. simpl. by rewrite insertSorted_perm, IH.
Qed.

Lemma insertSorted_sorted x l :
  consistent cmp →
  StronglySorted (λ a b, (cmp a b ≤ 0)%Z) l →
  StronglySorted (λ a b, (cmp a b ≤ 0)%Z) (insertSorted cmp x l).
Proof.
  intros [Htotal Htrans]. induction l as [|y l IH]; intros Hl; simpl.
  - by repeat constructor.
  - apply StronglySorted_cons in Hl as [Hy Hl].
    destruct (cmp x y <=? 0)%Z eqn:Hxy.
    + apply Z.leb_le in Hxy. apply StronglySorted_cons. split.
      * constructor; [done|]. eapply Forall_impl; [exact Hy|].
        intros z Hz. by eapply Htrans.
      * by apply StronglySorted_cons.
    + apply Z.leb_gt in Hxy. apply StronglySorted_cons. split; [|by apply IH].
      rewrite insertSorted_perm. constructor; [by apply Htotal|done].
Qed.

Lemma arraySort_sorted l :
  consistent cmp → StronglySorted (λ a b, (cmp a b ≤ 0)%Z) (arraySort cmp l).
Proof.
  intros Hcmp. induction l as [|x l IH]; simpl; [constructor|].
  by apply insertSorted_sorted.
Qed.

(** The same for a comparator that is consistent on the elements of the
    list, whatever it does elsewhere. *)
Lemma insertSorted_sorted_among (P : A → Prop) x l :
  consistentAmong P cmp → P x → Forall P l →
  StronglySorted (λ a b, (cmp a b ≤ 0)%Z) l →
  StronglySorted (λ a b, (cmp a b ≤ 0)%Z) (insertSorted cmp x l).
Proof.
  intros [Htotal Htrans] Hx. induction l as [|y l IH]; intros HP Hl; simpl.
  - by repeat constructor.
  - apply Forall_cons in HP as [Hy HP].
    apply StronglySorted_cons in Hl as [Hyl Hl].
    destruct (cmp x y <=? 0)%Z eqn:Hxy.
    + apply Z.leb_le in Hxy. apply StronglySorted_cons. split.
      * constructor; [done|]. rewrite Forall_forall in Hyl, HP |- *.
        intros z Hz. apply (Htrans x y z); auto.
      * by apply StronglySorted_cons.
    + apply Z.leb_gt in Hxy. apply StronglySorted_cons.
      split; [|by apply IH].
      rewrite insertSorted_perm. constructor; [by apply Htotal|done].
Qed.

Lemma arraySort_sorted_among (P : A → Prop) l :
  consistentAmong P cmp → Forall P l →
  StronglySorted (λ a b, (cmp a b ≤ 0)%Z) (arraySort cmp l).
Proof.
  intros Hcmp. induction l as [|x l IH]; simpl; [constructor|].
  intros [Hx Hl]%Forall_cons.
  apply (insertSorted_sorted_among P); [done..| |by apply IH].
  unfold arraySort. fold (arraySort cmp l). by rewrite arraySort_perm.
Qed.

End ArraySortFacts.

Lemma StronglySorted_lookup_lt {A} (R : A → A → Prop) (l : list A) i j a b :
  StronglySorted R l → (i < j)%nat → l !! i = Some a → l !! j = Some b → R a b.
Proof.
  intros Hl. revert i j. induction Hl as [|x l Hl IH Hx]; intros i j Hij Hi Hj.
  - done.
  - destruct j as [|j]; [lia|]. destruct i as [|i]; simpl in *.
    + simplify_eq. rewrite Forall_forall in Hx. apply Hx.
      by eapply list_elem_of_lookup_2.
    + eapply IH; [|done..]. lia.
Qed.

Lemma promiseAll_Ok {A B} (f : A → result B) xs ys :
  promiseAll f xs = Ok ys → Forall2 (λ x y, f x = Ok y) xs ys.
Proof.
  revert ys. induction xs as [|x xs IH]; intros ys; simpl.
  - intros [= <-]. constructor.
  - intros (y & Hy & (ys' & Hys & [= <-])%result_bind_Ok)%result_bind_Ok.
    constructor; auto.
Qed.

Lemma promiseAll_stat_fst `{Host} (dirPath : string) entries
    (pairs : list (Dirent * Stats)) :
  promiseAll (λ entry, stats ← stat (join dirPath (name entry));
                       Ok (entry, stats)) entries = Ok pairs →
  pairs.*1 = entries
  ∧ ∀ e s, (e, s) ∈ pairs → stat (join dirPath (name e)) = Ok s.
Proof.
  intros Hall%promiseAll_Ok.
  induction Hall as [|x [e s] xs ys Hx Hall [IH1 IH2]]; simpl.
  - split; [done|]. intros e s Hin. by apply elem_of_nil in Hin.
  - apply result_bind_Ok in Hx as (s' & Hs & [= <- <-]).
    split; [f_equal; exact IH1|].
    intros e' s'' [[= -> ->]|Hin]%elem_of_cons; auto.
Qed.

(** The sort rearranges the listing: it neither drops nor adds an entry. *)
Lemma sortEntries_perm `{Host} entries dirPath sort sortDirection out :
  sortEntries entries dirPath sort sortDirection = Ok out → out ≡ₚ entries.
Proof.
  unfold sortEntries.
  destruct (bool_decide _ || bool_decide _).
  - intros (pairs & Hpairs & [= <-])%result_bind_Ok.
    apply promiseAll_stat_fst in Hpairs as [<- _].
    apply fmap_Permutation, arraySort_perm.
  - intros [= <-]. apply arraySort_perm.
Qed.

Section SortEntriesFacts.
Context `{Host}.

(** [localeCompare] as a consistent comparator: the sign of a total
    preorder on strings. *)
Hypothesis localeCompare_flip :
  ∀ a b, (localeCompare a b < 0 ↔ 0 < localeCompare b a)%Z.
Hypothesis localeCompare_trans :
  ∀ a b c, (localeCompare a b ≤ 0 → localeCompare b c ≤ 0 →
            localeCompare a c ≤ 0)%Z.

Lemma compareByStats_consistent method multiplier :
  multiplier = 1%Z ∨ multiplier = (-1)%Z →
  consistent (compareByStats method multiplier).
Proof.
  intros Hm. split.
  - intros [a sa] [b sb]. unfold compareByStats, directoriesFirst; simpl.
    destruct (isDirectory a), (isDirectory b); simpl;
      destruct (decide (method = SortSize)); lia.
  - intros [a sa] [b sb] [c sc]. unfold compareByStats, directoriesFirst; simpl.
    destruct (isDirectory a), (isDirectory b), (isDirectory c); simpl;
      destruct (decide (method = SortSize)); lia.
Qed.

(** The comparator of the name and type sort is consistent among entries
    whose extensions [localeCompare] tells apart; this matters under the
    method [type] only. *)
Lemma compareByName_consistent_among (P : Dirent → Prop) method multiplier :
  multiplier = 1%Z ∨ multiplier = (-1)%Z →
  (method = SortType →
   ∀ a b, P a → P b → isDirectory a = false → isDirectory b = false →
     localeCompare (toLowerCase (Path.extname (name a)))
       (toLowerCase (Path.extname (name b))) = 0%Z →
     toLowerCase (Path.extname (name a)) = toLowerCase (Path.extname (name b))) →
  consistentAmong P (compareByName method multiplier).
Proof.
  intros Hm Hext. split.
  - intros a b _ _. unfold compareByName, directoriesFirst.
    pose proof (localeCompare_flip (name a) (name b)).
    pose proof (localeCompare_flip (name b) (name a)).
    pose proof (localeCompare_flip (toLowerCase (Path.extname (name a)))
                  (toLowerCase (Path.extname (name b)))).
    pose proof (localeCompare_flip (toLowerCase (Path.extname (name b)))
                  (toLowerCase (Path.extname (name a)))).
    destruct Hm; subst multiplier;
      destruct (isDirectory a), (isDirectory b); simpl; try lia;
      destruct (bool_decide (method = SortType)); simpl; try lia;
      repeat case_bool_decide; simpl; try congruence; lia.
  - intros a b c Pa Pb Pc. unfold compareByName, directoriesFirst.
    pose proof (localeCompare_flip (name a) (name b)).
    pose proof (localeCompare_flip (name b) (name a)).
    pose proof (localeCompare_flip (name b) (name c)).
    pose proof (localeCompare_flip (name c) (name b)).
    pose proof (localeCompare_flip (name a) (name c)).
    pose proof (localeCompare_flip (name c) (name a)).
    pose proof (localeCompare_trans (name a) (name b) (name c)).
    pose proof (localeCompare_trans (name c) (name b) (name a)).
    destruct (isDirectory a) eqn:Ha, (isDirectory b) eqn:Hb,
      (isDirectory c) eqn:Hc; simpl; try (destruct Hm; subst multiplier; lia).
    destruct (bool_decide (method = SortType)) eqn:Hmethod; simpl;
      [|destruct Hm; subst multiplier; lia].
    apply bool_decide_eq_true in Hmethod. specialize (Hext Hmethod).
    pose proof (Hext a b Pa Pb Ha Hb) as Hab.
    pose proof (Hext b a Pb Pa Hb Ha) as Hba.
    pose proof (Hext b c Pb Pc Hb Hc) as Hbc.
    pose proof (Hext c b Pc Pb Hc Hb) as Hcb.
    pose proof (Hext a c Pa Pc Ha Hc) as Hac.
    pose proof (Hext c a Pc Pa Hc Ha) as Hca.
    revert Hab Hba Hbc Hcb Hac Hca.
    set (ea := toLowerCase (Path.extname (name a))).
    set (eb := toLowerCase (Path.extname (name b))).
    set (ec := toLowerCase (Path.extname (name c))).
    clearbody ea eb ec. intros Hab Hba Hbc Hcb Hac Hca.
    pose proof (localeCompare_flip ea eb). pose proof (localeCompare_flip eb ea).
    pose proof (localeCompare_flip eb ec). pose proof (localeCompare_flip ec eb).
    pose proof (localeCompare_flip ea ec). pose proof (localeCompare_flip ec ea).
    pose proof (localeCompare_trans ea eb ec).
    pose proof (localeCompare_trans ec eb ea).
    destruct (decide (ea = eb)) as [Heab|Heab],
      (decide (eb = ec)) as [Hebc|Hebc], (decide (ea = ec)) as [Heac|Heac];
      try congruence;
      rewrite ?(bool_decide_eq_true_2 _ Heab), ?(bool_decide_eq_false_2 _ Heab),
        ?(bool_decide_eq_true_2 _ Hebc), ?(bool_decide_eq_false_2 _ Hebc),
        ?(bool_decide_eq_true_2 _ Heac), ?(bool_decide_eq_false_2 _ Heac);
      simpl.
    + destruct Hm; subst multiplier; lia.
    + subst eb. destruct Hm; subst multiplier; lia.
    + subst ec. destruct Hm; subst multiplier; lia.
    + subst ec. intros Hle1 Hle2. exfalso. apply Heab, Hab.
      destruct Hm; subst multiplier; lia.
    + assert (localeCompare ea eb ≠ 0%Z) by (intros Hz; by apply Heab, Hab).
      assert (localeCompare eb ec ≠ 0%Z) by (intros Hz; by apply Hebc, Hbc).
      assert (localeCompare ec ea ≠ 0%Z)
        by (intros Hz; by apply Heac; symmetry; apply Hca).
      assert (localeCompare ea ec ≠ 0%Z) by (intros Hz; by apply Heac, Hac).
      destruct Hm; subst multiplier; lia.
Qed.

Lemma compareByName_consistent method multiplier :
  (∀ a b, localeCompare a b = 0%Z → a = b) →
  multiplier = 1%Z ∨ multiplier = (-1)%Z →
  consistent (compareByName method multiplier).
Proof.
  intros Hzero Hm.
  destruct (compareByName_consistent_among (λ _, True) method multiplier Hm)
    as [Htotal Htrans]; [by auto|].
  split; [intros x y; by apply Htotal|intros x y z; by apply Htrans].
Qed.

Lemma multiplierOf_cases sortDirection :
  multiplierOf sortDirection = 1%Z ∨ multiplierOf sortDirection = (-1)%Z.
Proof. unfold multiplierOf. destruct (decide _); auto. Qed.

Lemma sortEntries_sorted entries dirPath sort sortDirection out :
  (default SortName sort = SortType → extensionsApart entries) →
  sortEntries entries dirPath sort sortDirection = Ok out →
  ∀ i j a b, (i < j)%nat → out !! i = Some a → out !! j = Some b →
    orderedPair dirPath (default SortName sort) (multiplierOf sortDirection) a b.
Proof.
  intros Hext. unfold sortEntries. fold (multiplierOf sortDirection).
  pose proof (multiplierOf_cases sortDirection) as Hm.
  revert Hext.
  set (method := default SortName sort). set (m := multiplierOf sortDirection).
  fold m in Hm. intros Hext.
  destruct (bool_decide (method = SortSize) || bool_decide (method = SortModified))
    eqn:Hbranch.
  - intros (pairs & Hpairs & [= <-])%result_bind_Ok i j a b Hij Ha Hb.
    apply promiseAll_stat_fst in Hpairs as [_ Hstat].
    apply list_lookup_fmap_Some in Ha as ([a' sa] & -> & Ha).
    apply list_lookup_fmap_Some in Hb as ([b' sb] & -> & Hb). simpl.
    pose proof (StronglySorted_lookup_lt _ _ _ _ _ _
      (arraySort_sorted _ pairs (compareByStats_consistent method m Hm))
      Hij Ha Hb) as Hcmp.
    assert (Hsa : stat (join dirPath (name a')) = Ok sa).
    { apply Hstat. rewrite <- (arraySort_perm (compareByStats method m) pairs).
      by eapply list_elem_of_lookup_2. }
    assert (Hsb : stat (join dirPath (name b')) = Ok sb).
    { apply Hstat. rewrite <- (arraySort_perm (compareByStats method m) pairs).
      by eapply list_elem_of_lookup_2. }
    revert Hcmp. unfold compareByStats, directoriesFirst, orderedPair; simpl.
    destruct (isDirectory a'), (isDirectory b'); simpl;
      try (intros; split; [done|done]); try lia.
    all: intros Hcmp; split; [done|intros _].
    all: unfold sameKindOrder; destruct (decide (method = SortSize)) as [->|Hne];
      [by eauto|].
    all: destruct method; try done; by eauto.
  - intros [= <-] i j a b Hij Ha Hb.
    assert (Hcons : consistentAmong (λ e, e ∈ entries) (compareByName method m)).
    { apply compareByName_consistent_among; [done|].
      intros Htype x y Hx Hy. by apply Hext. }
    pose proof (StronglySorted_lookup_lt _ _ _ _ _ _
      (arraySort_sorted_among _ (λ e, e ∈ entries) entries Hcons
         (proj2 (Forall_forall _ _) (λ _ Hin, Hin)))
      Hij Ha Hb) as Hcmp.
    revert Hcmp. unfold compareByName, directoriesFirst, orderedPair; simpl.
    destruct (isDirectory a) eqn:Hda, (isDirectory b) eqn:Hdb; simpl;
      try (intros; split; [done|done]); try lia.
    all: intros Hcmp; split; [done|intros _].
    all: unfold sameKindOrder; rewrite ?Hda.
    all: destruct method; try done; simpl in Hcmp; try done.
    all: destruct (decide _); by rewrite ?bool_decide_eq_true_2,
           ?bool_decide_eq_false_2 in Hcmp by done.
Qed.

End SortEntriesFacts.

(** C3, as amended.  Let [localeCompare] be a consistent comparator, as
    ECMAScript asks of it, and, for the method [type] only, let it tell the
    lower-cased extensions of the files of the listing apart.  Then for
    every listing, sort method and direction, the list [sortEntries]
    returns is a rearrangement of the listing in which every directory comes
    before every file and any two entries of the same kind are in the order
    of [sameKindOrder]: by the [stat] size or modification time under the
    methods [size] and [modified] (directories included), by name under
    [name], and under [type] directories by name and files by lower-cased
    extension with the name breaking ties.  The direction enters only through
    the multiplier of the comparison within a kind. *)
Theorem sortEntries_directories_first_then_method `{Host}
    (Hflip : ∀ a b, (localeCompare a b < 0 ↔ 0 < localeCompare b a)%Z)
    (Htrans : ∀ a b c, (localeCompare a b ≤ 0 → localeCompare b c ≤ 0 →
                        localeCompare a c ≤ 0)%Z)
    (entries : list Dirent) (dirPath : string) (sort : option SortMethod)
    (sortDirection : option SortDirection) (out : list Dirent)
    (Hext : default SortName sort = SortType → extensionsApart entries) :
  sortEntries entries dirPath sort sortDirection = Ok out →
  out ≡ₚ entries
  ∧ ∀ i j a b, (i < j)%nat → out !! i = Some a → out !! j = Some b →
      (isDirectory b = true → isDirectory a = true)
      ∧ (isDirectory a = isDirectory b →
         sameKindOrder dirPath (default SortName sort)
           (multiplierOf sortDirection) a b).
Proof.
  intros Hsort. split; [by eapply sortEntries_perm|].
  intros i j a b Hij Ha Hb.
  exact (sortEntries_sorted Hflip Htrans _ _ _ _ _ Hext Hsort i j a b Hij Ha Hb).
Qed.

(** C3 as the specification words it fails in the size/modified branch: two
    directories sorted by size, ascending, come out by size ([b] of 100
    bytes before [a] of 200), not by name. *)
Lemma sortEntries_directories_by_size_counterexample :
  let host := Example.host
    [("root/a", ({| size := 200; mtimeMs := 0 |}, EmptyString));
     ("root/b", ({| size := 100; mtimeMs := 0 |}, EmptyString))] in
  @sortEntries host [DirEntry "a" (Ok []); DirEntry "b" (Ok [])] "root"
    (Some SortSize) (Some Asc)
  = Ok [DirEntry "b" (Ok []); DirEntry "a" (Ok [])]
  ∧ ¬ (1 * @localeCompare host "b" "a" ≤ 0)%Z.
Proof. split; [reflexivity|]. vm_compute. intros Hle. by apply Hle. Qed.

(** C7, as amended.  Let [localeCompare] be a consistent comparator that
    tells the lower-cased extensions of the files apart.  Then sorting files
    by the method [type], ascending, always succeeds and arranges them by
    lower-cased extension, the name breaking ties between equal extensions.
    When moreover [localeCompare] puts [.css] before [.json] before [.ts]
    (and lower-casing leaves these three unchanged), the files [script.ts],
    [style.css], [data.json] come out as [style.css], [data.json],
    [script.ts]; this needs no more of [localeCompare]. *)
Theorem sortEntries_type_ascending `{Host}
    (Hflip : ∀ a b, (localeCompare a b < 0 ↔ 0 < localeCompare b a)%Z)
    (Htrans : ∀ a b c, (localeCompare a b ≤ 0 → localeCompare b c ≤ 0 →
                        localeCompare a c ≤ 0)%Z)
    (Hts : toLowerCase ".ts" = ".ts") (Hcss : toLowerCase ".css" = ".css")
    (Hjson : toLowerCase ".json" = ".json")
    (Hcj : (localeCompare ".css" ".json" < 0)%Z)
    (Hjt : (localeCompare ".json" ".ts" < 0)%Z)
    (names : list string) (dirPath : string) :
  (extensionsApart (FileEntry <$> names) →
   ∃ out, sortEntries (FileEntry <$> names) dirPath (Some SortType) (Some Asc)
          = Ok out
     ∧ out ≡ₚ FileEntry <$> names
     ∧ ∀ i j a b, (i < j)%nat → out !! i = Some a → out !! j = Some b →
         let extA := toLowerCase (Path.extname (name a)) in
         let extB := toLowerCase (Path.extname (name b)) in
         if decide (extA = extB)
         then (localeCompare (name a) (name b) ≤ 0)%Z
         else (localeCompare extA extB ≤ 0)%Z)
  ∧ sortEntries [FileEntry "script.ts"; FileEntry "style.css";
                 FileEntry "data.json"] dirPath (Some SortType) (Some Asc)
    = Ok [FileEntry "style.css"; FileEntry "data.json"; FileEntry "script.ts"].
Proof.
  split.
  - intros Hext. eexists. split; [reflexivity|]. split; [apply arraySort_perm|].
    intros i j a b Hij Ha Hb.
    assert (Hfile : ∀ k x, arraySort (compareByName SortType 1)
                             (FileEntry <$> names) !! k = Some x →
                           isDirectory x = false).
    { intros k x Hx%list_elem_of_lookup_2.
      rewrite (arraySort_perm (compareByName SortType 1)) in Hx.
      apply list_elem_of_fmap in Hx as (n & -> & _). done. }
    destruct (sortEntries_sorted Hflip Htrans (FileEntry <$> names)
                dirPath (Some SortType) (Some Asc) _ (λ _, Hext) eq_refl
                i j a b Hij Ha Hb)
      as [_ Hkind].
    specialize (Hkind ltac:(by rewrite (Hfile i a Ha), (Hfile j b Hb))).
    simpl in Hkind. rewrite (Hfile i a Ha) in Hkind.
    change (multiplierOf (Some Asc)) with 1%Z in Hkind.
    revert Hkind. simpl. repeat case_decide; try done; lia.
  - assert (Hct : (localeCompare ".css" ".ts" < 0)%Z).
    { pose proof (Htrans ".css" ".json" ".ts").
      pose proof (Htrans ".ts" ".css" ".json").
      pose proof (Hflip ".css" ".ts"). pose proof (Hflip ".ts" ".css").
      pose proof (Hflip ".json" ".ts"). lia. }
    assert (H1 : (1 * localeCompare ".css" ".json" <=? 0)%Z = true)
      by (apply Z.leb_le; lia).
    assert (H2 : (1 * localeCompare ".ts" ".css" <=? 0)%Z = false)
      by (apply Z.leb_gt; apply Hflip in Hct; lia).
    assert (H3 : (1 * localeCompare ".ts" ".json" <=? 0)%Z = false)
      by (apply Z.leb_gt; apply Hflip in Hjt; lia).
    assert (Hcmp : ∀ x y ex ey,
              Path.extname x = ex → Path.extname y = ey →
              toLowerCase ex = ex → toLowerCase ey = ey → ex ≠ ey →
              compareByName SortType 1 (FileEntry x) (FileEntry y)
              = (1 * localeCompare ex ey)%Z).
    { intros x y ex ey <- <- Hx Hy Hne. unfold compareByName; simpl.
      rewrite Hx, Hy. by rewrite bool_decide_eq_false_2. }
    change (sortEntries _ dirPath (Some SortType) (Some Asc))
      with (Ok (insertSorted (compareByName SortType 1) (FileEntry "script.ts")
                  (insertSorted (compareByName SortType 1) (FileEntry "style.css")
                     [FileEntry "data.json"]))).
    cbn [insertSorted].
    rewrite (Hcmp "style.css" "data.json" ".css" ".json") by done.
    rewrite H1. cbn [insertSorted].
    rewrite (Hcmp "script.ts" "style.css" ".ts" ".css") by done.
    rewrite H2.
    rewrite (Hcmp "script.ts" "data.json" ".ts" ".json") by done.
    rewrite H3. reflexivity.
Qed.

(** C7 as the specification words it fails for a [localeCompare] that
    takes canonically equivalent strings as equal, as that of ECMAScript
    does: it is a consistent comparator, the two extensions are different
    texts that compare as 0, so [sortEntries] takes the two files as equal
    and leaves [b] before [a], whereas by name [a] comes before [b].  The
    name does not break the tie. *)
Lemma sortEntries_type_ascending_counterexample :
  let a := FileEntry ("a." +:+ Canonical.decomposed) in
  let b := FileEntry ("b." +:+ Canonical.composed) in
  let extA := @toLowerCase Canonical.host (Path.extname (name a)) in
  let extB := @toLowerCase Canonical.host (Path.extname (name b)) in
  (∀ x y, (@localeCompare Canonical.host x y < 0
           ↔ 0 < @localeCompare Canonical.host y x)%Z)
  ∧ (∀ x y z, (@localeCompare Canonical.host x y ≤ 0 →
               @localeCompare Canonical.host y z ≤ 0 →
               @localeCompare Canonical.host x z ≤ 0)%Z)
  ∧ extA ≠ extB
  ∧ @localeCompare Canonical.host extA extB = 0%Z
  ∧ (@localeCompare Canonical.host (name a) (name b) < 0)%Z
  ∧ @sortEntries Canonical.host [b; a] "root" (Some SortType) (Some Asc)
    = Ok [b; a].
Proof.
  cbn zeta. split; [|split; [|by vm_compute]].
  - intros x y. apply ExampleFacts.byteOrder_flip.
  - intros x y z. apply ExampleFacts.byteOrder_trans.
Qed.

(** ** The shape of a script *)

Lemma seqScript_Forall (P : Action → Prop) (p q : Script) :
  Forall P p.1 → Forall P q.1 → Forall P (seqScript p q).1.
Proof.
  intros Hp Hq. unfold seqScript. destruct p.2; simpl; [|done].
  by apply Forall_app.
Qed.

Lemma scriptEntries_Forall (P : Action → Prop) body i entries :
  (∀ k entry, entry ∈ entries → Forall P (body k entry).1) →
  Forall P (scriptEntries body i entries).1.
Proof.
  revert i. induction entries as [|entry rest IH]; intros i Hbody; simpl.
  - constructor.
  - apply seqScript_Forall; [apply Hbody, list_elem_of_here|].
    apply IH. intros k x Hx. apply Hbody. by apply list_elem_of_further.
Qed.

Lemma seqScript_Ok (p q : Script) :
  (seqScript p q).2 = Ok () → p.2 = Ok () ∧ q.2 = Ok ().
Proof.
  unfold seqScript. destruct p as [xs [[]|e]]; simpl; [done|discriminate].
Qed.

Lemma seqScript_Ok_fst (p q : Script) :
  p.2 = Ok () → (seqScript p q).1 = (p.1 ++ q.1)%list.
Proof. unfold seqScript. by intros ->. Qed.

Section ScriptShape.
Context `{Host}.

Lemma scriptEntry_levels below dirPath rootDir depth n i entry :
  (∀ sub fullPath, Forall (λ a, (depth + 1 ≤ actionDepth a)%nat)
                     (below sub fullPath).1) →
  Forall (λ a, (depth ≤ actionDepth a)%nat)
    (scriptEntry below dirPath rootDir depth n i entry).1.
Proof.
  intros Hbelow. destruct entry as [nm|nm sub]; unfold scriptEntry.
  - by repeat constructor.
  - apply seqScript_Forall; [by repeat constructor|].
    apply seqScript_Forall; [|by repeat constructor].
    eapply Forall_impl; [apply Hbelow|]. simpl. intros; lia.
Qed.

(** Every action of a traversal started at [depth] is about that level or a
    deeper one. *)
Lemma scriptFuel_levels fuel listing dirPath rootDir ignorePatterns depth options :
  Forall (λ a, (depth ≤ actionDepth a)%nat)
    (scriptFuel fuel listing dirPath rootDir ignorePatterns depth options).1.
Proof.
  revert listing dirPath depth.
  induction fuel as [|fuel IH]; intros listing dirPath depth; simpl;
    [constructor|].
  destruct listing as [entries|e]; [|constructor].
  destruct (sortEntries _ _ _ _) as [sortedEntries|e]; [|constructor].
  apply scriptEntries_Forall. intros k entry _.
  apply scriptEntry_levels. intros sub fullPath. apply IH.
Qed.

Lemma scriptFuel_levels_1_0_0 fuel listing dirPath rootDir ignorePatterns depth :
  Forall (λ a, (depth ≤ actionDepth a)%nat)
    (scriptFuel_1_0_0 fuel listing dirPath rootDir ignorePatterns depth).1.
Proof.
  revert listing dirPath depth.
  induction fuel as [|fuel IH]; intros listing dirPath depth; simpl;
    [constructor|].
  destruct listing as [entries|e]; [|constructor].
  apply scriptEntries_Forall. intros k entry _.
  apply scriptEntry_levels. intros sub fullPath. apply IH.
Qed.

End ScriptShape.

(** ** Siblings and [isLast] *)

Lemma visitsAt_app depth xs ys :
  visitsAt depth (xs ++ ys) = (visitsAt depth xs ++ visitsAt depth ys)%list.
Proof. apply List.filter_app. Qed.

Lemma visitsAt_deeper depth dO acts :
  Forall (deeperCall depth) acts →
  visitsAt depth (snapshots dO acts).1 = [].
Proof.
  intros Hacts. revert dO.
  induction Hacts as [|a acts Ha Hacts IH]; intros dO; simpl; [done|].
  destruct a as [k path relPath d isLast|d b]; simpl in *; [|apply IH].
  unfold visitsAt in *. simpl.
  destruct (Nat.eqb_spec d depth); [lia|apply IH].
Qed.

Section Siblings.
Context `{Host}.

(** Of the actions of one entry, the callback of the entry itself is the
    only one called at [depth]. *)
Lemma scriptEntry_head below dirPath rootDir depth n i entry dO :
  (∀ sub fullPath, Forall (λ a, (depth + 1 ≤ actionDepth a)%nat)
                     (below sub fullPath).1) →
  visitKey <$> visitsAt depth
    (snapshots dO (scriptEntry below dirPath rootDir depth n i entry).1).1
  = [entryKey dirPath rootDir depth n i entry].
Proof.
  intros Hbelow. destruct entry as [nm|nm sub]; unfold scriptEntry.
  - simpl. unfold visitsAt. simpl. by rewrite Nat.eqb_refl.
  - assert (Hdeep : ∀ tail, Forall (deeperCall depth) tail →
              Forall (deeperCall depth)
                ((below sub (join dirPath (name (DirEntry nm sub)))).1 ++ tail)).
    { intros tail Htail. apply Forall_app. split; [|done].
      eapply Forall_impl; [apply Hbelow|]. by intros []. }
    unfold seqScript.
    destruct (below sub (join dirPath (name (DirEntry nm sub))))
      as [acts [[]|e]] eqn:Hb; simpl in *.
    all: unfold visitsAt at 1; simpl; rewrite Nat.eqb_refl; simpl; f_equal.
    all: match goal with |- context [List.filter _ (snapshots ?d ?a).1] =>
           pose proof (visitsAt_deeper depth d a) as Hdeeper
         end.
    all: unfold visitsAt in Hdeeper; rewrite Hdeeper; [done|].
    + apply Hdeep. by repeat constructor.
    + rewrite <- (app_nil_r acts). by apply Hdeep.
Qed.

(** The callbacks called at [depth] are those of the first entries, in
    order; of all the entries when the script completes. *)
Lemma scriptEntries_siblings_prefix below dirPath rootDir depth n entries i dO :
  (∀ sub fullPath, Forall (λ a, (depth + 1 ≤ actionDepth a)%nat)
                     (below sub fullPath).1) →
  ∃ k, visitKey <$> visitsAt depth
         (snapshots dO
            (scriptEntries (scriptEntry below dirPath rootDir depth n) i
               entries).1).1
       = take k (imap (λ j entry, entryKey dirPath rootDir depth n (i + j) entry)
                   entries).
Proof.
  intros Hbelow. revert i dO.
  induction entries as [|entry rest IH]; intros i dO; simpl; [by exists 0%nat|].
  pose proof (scriptEntry_head below dirPath rootDir depth n i entry dO Hbelow)
    as Hhead.
  rewrite Nat.add_0_r. unfold seqScript.
  destruct (scriptEntry below dirPath rootDir depth n i entry).2 as [[]|e].
  - cbn [fst]. rewrite snapshots_app. cbn [fst].
    rewrite visitsAt_app, fmap_app, Hhead.
    destruct (IH (S i) (snapshots dO
                (scriptEntry below dirPath rootDir depth n i entry).1).2)
      as [k Hk].
    exists (S k). rewrite Hk. simpl. do 2 f_equal.
    apply imap_ext. intros j x _. simpl. f_equal. lia.
  - cbn [fst]. rewrite Hhead. by exists 1%nat.
Qed.

Lemma scriptEntries_siblings below dirPath rootDir depth n entries i dO :
  (∀ sub fullPath, Forall (λ a, (depth + 1 ≤ actionDepth a)%nat)
                     (below sub fullPath).1) →
  (scriptEntries (scriptEntry below dirPath rootDir depth n) i entries).2 = Ok () →
  visitKey <$> visitsAt depth
    (snapshots dO
       (scriptEntries (scriptEntry below dirPath rootDir depth n) i entries).1).1
  = imap (λ k entry, entryKey dirPath rootDir depth n (i + k) entry) entries.
Proof.
  intros Hbelow. revert i dO.
  induction entries as [|entry rest IH]; intros i dO; simpl; [done|].
  intros [Hentry Hrest]%seqScript_Ok.
  rewrite seqScript_Ok_fst by done. rewrite snapshots_app.
  cbn [fst snd]. rewrite visitsAt_app, fmap_app. rewrite (IH (S i)) by exact Hrest.
  rewrite Nat.add_0_r, scriptEntry_head by done. simpl. f_equal.
  apply imap_ext. intros k x _. simpl. f_equal. lia.
Qed.

End Siblings.

(** C8, as amended.  Take a traversal of a listing at [depth], however it
    ends, and the filtered and sorted children of the listing, [n] of them.
    The callbacks called at that depth are, in order, those of the first
    children, the [i]-th being passed its kind, its paths, [depth] and
    [isLast = (i == n - 1)]; they are those of all the children when the
    traversal completes.  So a sibling received [isLast = true] only as the
    last of the [n] children, and when the traversal completes exactly the
    sibling visited last received it. *)
Theorem walkDir_siblings_isLast `{Host} (listing : result (list Dirent))
    (dirPath rootDir : string) (ignorePatterns : list string) (depth : nat)
    (options : CodeAtlasConfig) (dO : gmap nat bool) (w : World (list Visit))
    (r : result unit) :
  traced listing dirPath rootDir ignorePatterns depth options dO = (w, r) →
  let siblings := visitsAt depth (user w) in
  (∀ entries sortedEntries,
     listing = Ok entries →
     sortEntries
       (List.filter (λ entry,
          negb (shouldIgnore (join dirPath (name entry)) ignorePatterns))
          entries)
       dirPath (sort options) (sortDirection options) = Ok sortedEntries →
     let expected :=
       imap (λ i entry,
               (kindOf entry, join dirPath (name entry),
                relative rootDir (join dirPath (name entry)), depth,
                Nat.eqb i (length sortedEntries - 1))) sortedEntries in
     (∃ k, visitKey <$> siblings = take k expected)
     ∧ (r = Ok () → visitKey <$> siblings = expected)
     ∧ ∀ k v, siblings !! k = Some v →
         (vIsLast v = true ↔ k = (length sortedEntries - 1)%nat))
  ∧ (r = Ok () →
     (∃ entries sortedEntries,
        listing = Ok entries
        ∧ sortEntries
            (List.filter (λ entry,
               negb (shouldIgnore (join dirPath (name entry)) ignorePatterns))
               entries)
            dirPath (sort options) (sortDirection options) = Ok sortedEntries)
     ∧ ∀ k v, siblings !! k = Some v →
         (vIsLast v = true ↔ k = (length siblings - 1)%nat)).
Proof.
  rewrite traced_script. cbn zeta. intros Heq.
  pose proof (f_equal snd Heq) as Hres. apply (f_equal fst) in Heq.
  cbn [fst snd] in Heq, Hres. subst w. cbn [user].
  assert (Hgeneral : ∀ entries sortedEntries,
     listing = Ok entries →
     sortEntries
       (List.filter (λ entry,
          negb (shouldIgnore (join dirPath (name entry)) ignorePatterns))
          entries)
       dirPath (sort options) (sortDirection options) = Ok sortedEntries →
     let expected :=
       imap (λ i entry,
               (kindOf entry, join dirPath (name entry),
                relative rootDir (join dirPath (name entry)), depth,
                Nat.eqb i (length sortedEntries - 1))) sortedEntries in
     let siblings := visitsAt depth (snapshots dO
       (scriptFuel (S (listingDepth listing)) listing dirPath rootDir
          ignorePatterns depth options).1).1 in
     (∃ k, visitKey <$> siblings = take k expected)
     ∧ (r = Ok () → visitKey <$> siblings = expected)
     ∧ ∀ k v, siblings !! k = Some v →
         (vIsLast v = true ↔ k = (length sortedEntries - 1)%nat)).
  { intros entries sortedEntries Hl Hsort. revert Hres.
    generalize (listingDepth listing). intros fuel. subst listing.
    simpl scriptFuel. rewrite Hsort. intros Hres. cbn zeta.
    pose proof (λ sub fullPath, scriptFuel_levels fuel
                  sub fullPath rootDir ignorePatterns (depth + 1) options)
      as Hbelow.
    destruct (scriptEntries_siblings_prefix _ dirPath rootDir depth
                (length sortedEntries) sortedEntries 0 dO Hbelow) as [k Hk].
    split; [by exists k|]. split.
    - intros ->. by apply (scriptEntries_siblings _ dirPath rootDir depth
                             (length sortedEntries) sortedEntries 0 dO Hbelow).
    - intros j v Hv. apply (f_equal (λ l, l !! j)) in Hk.
      rewrite list_lookup_fmap, Hv in Hk. simpl in Hk. symmetry in Hk.
      apply lookup_take_Some in Hk as [Hk _].
      rewrite list_lookup_imap in Hk.
      destruct (sortedEntries !! j) as [entry|]; [|discriminate].
      simpl in Hk. injection Hk as _ _ _ _ Hlast. rewrite <- Hlast.
      apply Nat.eqb_eq. }
  split; [exact Hgeneral|].
  intros ->.
  assert (Hlisting : ∃ entries sortedEntries,
     listing = Ok entries
     ∧ sortEntries
         (List.filter (λ entry,
            negb (shouldIgnore (join dirPath (name entry)) ignorePatterns))
            entries)
         dirPath (sort options) (sortDirection options) = Ok sortedEntries).
  { revert Hres. generalize (listingDepth listing). intros fuel.
    simpl scriptFuel.
    destruct listing as [entries|e]; [|discriminate].
    destruct (sortEntries _ _ _ _) as [sortedEntries|e] eqn:Hsort; [|discriminate].
    intros _. by exists entries, sortedEntries. }
  split; [exact Hlisting|].
  destruct Hlisting as (entries & sortedEntries & Hl & Hsort).
  destruct (Hgeneral entries sortedEntries Hl Hsort) as (_ & Hall & Hlast).
  specialize (Hall eq_refl).
  intros k v Hv. rewrite (Hlast k v Hv).
  apply (f_equal length) in Hall. rewrite length_fmap, length_imap in Hall.
  by rewrite Hall.
Qed.

(** C8 as stated fails on a traversal that an error ends.  In the listing
    [b], [a] with [a] unreadable, the sorted children are [a], [b]; the
    callback of [a] is called with [isLast = false], the listing of [a]
    fails, and [b] is never visited: no sibling received [isLast = true]. *)
Lemma walkDir_siblings_isLast_counterexample :
  let siblings :=
    visitsAt 0 (user (@traced Scenario.host Scenario.unreadable "root" "root"
                        [] 0 emptyConfig ∅).1) in
  @sortEntries Scenario.host
    [FileEntry "b"; DirEntry "a" (Err "EACCES")] "root" None None
  = Ok [DirEntry "a" (Err "EACCES"); FileEntry "b"]
  ∧ visitKey <$> siblings = [(KDir, "root/a", "a", 0%nat, false)]
  ∧ ¬ ∃ v, v ∈ siblings ∧ vIsLast v = true.
Proof.
  split; [reflexivity|]. split; [reflexivity|].
  intros (v & Hv & Hlast). cbv zeta in Hv.
  change (visitsAt 0 _)
    with [mkVisit KDir "root/a" "a" 0 false (∅ : gmap nat bool)] in Hv.
  apply list_elem_of_singleton in Hv. by subst v.
Qed.

(** ** The connector state *)

Lemma closedFrom_insert_below base depth b dO :
  closedFrom base depth dO → closedFrom base (depth + 1) (<[depth := b]> dO).
Proof.
  intros Hc j Hj. rewrite lookup_insert_ne by lia. apply Hc. lia.
Qed.

Lemma closedFrom_insert_false base depth dO :
  closedFrom base (depth + 1) dO → closedFrom base depth (<[depth := false]> dO).
Proof.
  intros Hc j Hj. destruct (decide (depth = j)) as [->|Hne].
  - by rewrite lookup_insert_eq.
  - rewrite lookup_insert_ne by done. apply Hc. lia.
Qed.

Lemma snapshots_preserve d dO acts :
  Forall (λ a, (d < actionDepth a)%nat) acts →
  (snapshots dO acts).2 !! d = dO !! d.
Proof.
  intros Hacts. revert dO.
  induction Hacts as [|a acts Ha Hacts IH]; intros dO; simpl; [done|].
  destruct a as [k path relPath depth isLast|depth b]; simpl in *; [apply IH|].
  rewrite IH. apply lookup_insert_ne. lia.
Qed.

Section ConnectorState.
Context `{Host}.

Lemma scriptEntry_closed base below dirPath rootDir depth n i entry dO :
  belowClosed base below depth → closedFrom base depth dO →
  Forall (sawClosed base)
    (snapshots dO (scriptEntry below dirPath rootDir depth n i entry).1).1
  ∧ ((scriptEntry below dirPath rootDir depth n i entry).2 = Ok () →
     closedFrom base depth
       (snapshots dO (scriptEntry below dirPath rootDir depth n i entry).1).2).
Proof.
  intros Hbelow Hc. destruct entry as [nm|nm sub]; unfold scriptEntry.
  - simpl. split; [by repeat constructor|done].
  - set (b := negb (i =? n - 1)%nat).
    destruct (Hbelow sub (join dirPath (name (DirEntry nm sub)))
                (<[depth := b]> dO) (closedFrom_insert_below _ _ _ _ Hc))
      as [Hvisits Hfinal].
    destruct (below sub (join dirPath (name (DirEntry nm sub))))
      as [acts [[]|e]] eqn:Hb; unfold seqScript; simpl in *.
    + rewrite snapshots_app. simpl. split.
      * constructor; [done|]. by rewrite app_nil_r.
      * intros _. by apply closedFrom_insert_false, Hfinal.
    + split; [by constructor|discriminate].
Qed.

Lemma scriptEntries_closed base below dirPath rootDir depth n entries i dO :
  belowClosed base below depth → closedFrom base depth dO →
  Forall (sawClosed base)
    (snapshots dO
       (scriptEntries (scriptEntry below dirPath rootDir depth n) i entries).1).1
  ∧ ((scriptEntries (scriptEntry below dirPath rootDir depth n) i entries).2
       = Ok () →
     closedFrom base depth
       (snapshots dO
          (scriptEntries (scriptEntry below dirPath rootDir depth n) i
             entries).1).2).
Proof.
  intros Hbelow. revert i dO.
  induction entries as [|entry rest IH]; intros i dO Hc; simpl.
  - split; [constructor|done].
  - destruct (scriptEntry_closed base below dirPath rootDir depth n i entry dO
                Hbelow Hc) as [Hvisits Hfinal].
    unfold seqScript.
    destruct (scriptEntry below dirPath rootDir depth n i entry).2
      as [[]|e] eqn:Hentry; simpl.
    + rewrite snapshots_app. simpl.
      destruct (IH (S i) _ (Hfinal eq_refl)) as [Hvisits' Hfinal'].
      split; [by apply Forall_app|done].
    + split; [done|discriminate].
Qed.

Lemma scriptFuel_closed base fuel listing dirPath rootDir ignorePatterns depth
    options dO :
  closedFrom base depth dO →
  let s := scriptFuel fuel listing dirPath rootDir ignorePatterns depth
             options in
  Forall (sawClosed base) (snapshots dO s.1).1
  ∧ (s.2 = Ok () → closedFrom base depth (snapshots dO s.1).2).
Proof.
  revert listing dirPath depth dO.
  induction fuel as [|fuel IH]; intros listing dirPath depth dO Hc; simpl.
  - split; [constructor|discriminate].
  - destruct listing as [entries|e]; [|split; [constructor|discriminate]].
    destruct (sortEntries _ _ _ _) as [sortedEntries|e];
      [|split; [constructor|discriminate]].
    apply scriptEntries_closed; [|done].
    intros sub fullPath dO' Hc'. by apply IH.
Qed.

Lemma scriptEntries_resets below dirPath rootDir depth n entries i dO :
  (∀ sub fullPath, Forall (λ a, (depth + 1 ≤ actionDepth a)%nat)
                     (below sub fullPath).1) →
  (scriptEntries (scriptEntry below dirPath rootDir depth n) i entries).2 = Ok () →
  (snapshots dO
     (scriptEntries (scriptEntry below dirPath rootDir depth n) i entries).1).2
    !! depth
  = if existsb isDirectory entries then Some false else dO !! depth.
Proof.
  intros Hbelow. revert i dO.
  induction entries as [|entry rest IH]; intros i dO; simpl; [done|].
  intros [Hentry Hrest]%seqScript_Ok.
  rewrite seqScript_Ok_fst by done. rewrite snapshots_app. cbn [fst snd].
  rewrite (IH (S i)) by exact Hrest.
  destruct entry as [nm|nm sub]; unfold scriptEntry in Hentry |- *;
    cbn [existsb isDirectory orb]; [done|].
  destruct (existsb isDirectory rest); [done|].
  apply seqScript_Ok in Hentry as [_ [Hsub _]%seqScript_Ok].
  rewrite seqScript_Ok_fst by done.
  rewrite (seqScript_Ok_fst (below _ _)) by done. simpl.
  rewrite snapshots_app. simpl. apply lookup_insert_eq.
Qed.

(** C4.  In a traversal started at [depth], every callback, at whatever
    depth [d] it is called, sees a level from [d] on marked open in
    [depthOpen] only if that level was marked open before the traversal
    started (never, from the empty [depthOpen] the callers start with): what
    an earlier subtree set at a level is not seen as open by a later entry
    at that level or a shallower one.  When the traversal completes, the
    same holds of the [depthOpen] it leaves from [depth] on, and
    [depthOpen[depth]] is [false] as soon as the listing has a directory
    that is not ignored, the reset after the recursive call. *)
Theorem walkDir_depthOpen_closed (listing : result (list Dirent))
    (dirPath rootDir : string) (ignorePatterns : list string) (depth : nat)
    (options : CodeAtlasConfig) (dO : gmap nat bool) (w : World (list Visit))
    (r : result unit) :
  traced listing dirPath rootDir ignorePatterns depth options dO = (w, r) →
  (∀ v, v ∈ user w → ∀ j, (vDepth v ≤ j)%nat →
     vDepthOpen v !! j = Some true → dO !! j = Some true)
  ∧ (r = Ok () → ∀ j, (depth ≤ j)%nat →
     depthOpen w !! j = Some true → dO !! j = Some true)
  ∧ (r = Ok () → ∀ entries entry,
       listing = Ok entries → entry ∈ entries → isDirectory entry = true →
       shouldIgnore (join dirPath (name entry)) ignorePatterns = false →
       depthOpen w !! depth = Some false).
Proof.
  rewrite traced_script. cbn zeta. intros [= <- <-]. cbn [user depthOpen].
  destruct (scriptFuel_closed dO (S (listingDepth listing)) listing dirPath
              rootDir ignorePatterns depth options dO ltac:(by intros j _))
    as [Hvisits Hfinal].
  split; [|split].
  - intros v Hv. rewrite Forall_forall in Hvisits. exact (Hvisits v Hv).
  - exact Hfinal.
  - intros Hok entries entry -> Hin Hdir Hign. revert Hok. simpl scriptFuel.
    destruct (sortEntries _ _ _ _) as [sortedEntries|e] eqn:Hsort; [|discriminate].
    intros Hok. rewrite scriptEntries_resets; [|intros; apply scriptFuel_levels|done].
    assert (Hex : existsb isDirectory sortedEntries = true); [|by rewrite Hex].
    apply existsb_exists. exists entry. split; [|done].
    apply list_elem_of_In. rewrite (sortEntries_perm _ _ _ _ _ Hsort).
    apply list_elem_of_In, filter_In. split; [by apply list_elem_of_In|].
    by rewrite Hign.
Qed.

End ConnectorState.

(** ** The two releases of the traversal *)

Lemma callTriples_app xs ys :
  callTriples (xs ++ ys) = (callTriples xs ++ callTriples ys)%list.
Proof.
  induction xs as [|[k p r d l|d b] xs IH]; simpl; by rewrite ?IH.
Qed.

Lemma snapshots_triples dO acts :
  visitTriple <$> (snapshots dO acts).1 = callTriples acts.
Proof.
  revert dO. induction acts as [|[k p r d l|d b] acts IH]; intros dO; simpl;
    [done| |apply IH].
  f_equal. apply IH.
Qed.

Lemma bind_Permutation_pointwise {A B} (f g : A → list B) (l : list A) :
  Forall (λ x, f x ≡ₚ g x) l → l ≫= f ≡ₚ l ≫= g.
Proof.
  induction 1 as [|x l Hx _ IH]; [done|].
  change (f x ++ (l ≫= f) ≡ₚ g x ++ (l ≫= g)). by rewrite Hx, IH.
Qed.

Section Releases.
Context `{Host}.

Lemma scriptEntry_Ok below dirPath rootDir depth n i entry :
  (scriptEntry below dirPath rootDir depth n i entry).2 = Ok ()
  ↔ entryOk below dirPath entry.
Proof.
  destruct entry as [nm|nm sub]; unfold scriptEntry, seqScript; simpl; [done|].
  by destruct (below sub (join dirPath nm)) as [acts [[]|e]].
Qed.

Lemma scriptEntry_triples below dirPath rootDir depth n i entry :
  entryOk below dirPath entry →
  callTriples (scriptEntry below dirPath rootDir depth n i entry).1
  = entryTriples below dirPath rootDir depth entry.
Proof.
  destruct entry as [nm|nm sub]; unfold scriptEntry, seqScript; simpl; [done|].
  intros ->. simpl. f_equal. rewrite callTriples_app. simpl. apply app_nil_r.
Qed.

Lemma scriptEntries_Ok below dirPath rootDir depth n entries i :
  (scriptEntries (scriptEntry below dirPath rootDir depth n) i entries).2 = Ok ()
  ↔ Forall (entryOk below dirPath) entries.
Proof.
  revert i. induction entries as [|entry rest IH]; intros i; simpl.
  - split; [constructor|done].
  - rewrite Forall_cons, <- (IH (S i)),
      <- (scriptEntry_Ok below dirPath rootDir depth n i entry).
    split; [apply seqScript_Ok|].
    intros [Hentry Hrest]. unfold seqScript. by rewrite Hentry.
Qed.

Lemma scriptEntries_triples below dirPath rootDir depth n entries i :
  Forall (entryOk below dirPath) entries →
  callTriples
    (scriptEntries (scriptEntry below dirPath rootDir depth n) i entries).1
  = entries ≫= entryTriples below dirPath rootDir depth.
Proof.
  intros Hall. revert i.
  induction Hall as [|entry rest Hentry Hrest IH]; intros i; simpl; [done|].
  rewrite seqScript_Ok_fst by by apply scriptEntry_Ok.
  rewrite callTriples_app, IH, scriptEntry_triples by done.
  reflexivity.
Qed.

(** When the script of release 1.1.0 completes, so does the script of
    release 1.0.0, and the two call the callbacks for the same entries. *)
Lemma scripts_same_entries fuel listing dirPath rootDir ignorePatterns depth
    options :
  (scriptFuel fuel listing dirPath rootDir ignorePatterns depth options).2
    = Ok () →
  (scriptFuel_1_0_0 fuel listing dirPath rootDir ignorePatterns depth).2 = Ok ()
  ∧ callTriples
      (scriptFuel_1_0_0 fuel listing dirPath rootDir ignorePatterns depth).1
    ≡ₚ callTriples
         (scriptFuel fuel listing dirPath rootDir ignorePatterns depth options).1.
Proof.
  revert listing dirPath depth.
  induction fuel as [|fuel IH]; intros listing dirPath depth; simpl;
    [discriminate|].
  destruct listing as [entries|e]; [|discriminate].
  set (filteredEntries := List.filter _ entries).
  destruct (sortEntries _ _ _ _) as [sortedEntries|e] eqn:Hsort; [|discriminate].
  apply sortEntries_perm in Hsort.
  rewrite !scriptEntries_Ok. intros Hall.
  assert (Hall1 : Forall (λ entry,
            entryOk (λ sub fullPath, scriptFuel_1_0_0 fuel sub fullPath rootDir
                       ignorePatterns (depth + 1)) dirPath entry
            ∧ entryTriples (λ sub fullPath, scriptFuel_1_0_0 fuel sub fullPath
                  rootDir ignorePatterns (depth + 1)) dirPath rootDir depth entry
              ≡ₚ entryTriples (λ sub fullPath, scriptFuel fuel sub fullPath
                    rootDir ignorePatterns (depth + 1) options) dirPath rootDir
                    depth entry) sortedEntries).
  { eapply Forall_impl; [exact Hall|].
    intros [nm|nm sub]; simpl; [done|]. intros Hsub.
    destruct (IH _ _ _ Hsub) as [Hok Hperm]. split; [done|]. by constructor. }
  apply Forall_and in Hall1 as [Hok1 Hperm1].
  assert (Hok0 : Forall (entryOk (λ sub fullPath, scriptFuel_1_0_0 fuel sub
              fullPath rootDir ignorePatterns (depth + 1)) dirPath)
            filteredEntries).
  { rewrite Forall_forall in Hok1 |- *. intros x Hx. apply Hok1.
    by rewrite Hsort. }
  split; [done|].
  rewrite !scriptEntries_triples by done.
  etrans; [|by apply bind_Permutation_pointwise].
  apply bind_Permutation. by symmetry.
Qed.

(** Sorted by name or by type, the script of release 1.1.0 completes
    whenever the script of release 1.0.0 does. *)
Lemma scripts_complete_together fuel listing dirPath rootDir ignorePatterns
    depth options :
  default SortName (sort options) = SortName
  ∨ default SortName (sort options) = SortType →
  (scriptFuel_1_0_0 fuel listing dirPath rootDir ignorePatterns depth).2
    = Ok () →
  (scriptFuel fuel listing dirPath rootDir ignorePatterns depth options).2
    = Ok ().
Proof.
  intros Hmethod. revert listing dirPath depth.
  induction fuel as [|fuel IH]; intros listing dirPath depth; simpl;
    [discriminate|].
  destruct listing as [entries|e]; [|discriminate].
  set (filteredEntries := List.filter _ entries).
  destruct (sortEntries _ _ _ _) as [sortedEntries|e] eqn:Hsort.
  - apply sortEntries_perm in Hsort. rewrite !scriptEntries_Ok.
    rewrite !Forall_forall. intros Hall entry Hentry.
    rewrite Hsort in Hentry. specialize (Hall entry Hentry).
    destruct entry as [nm|nm sub]; simpl in *; [done|]. by apply IH.
  - unfold sortEntries in Hsort. cbn zeta in Hsort.
    destruct Hmethod as [Hm|Hm]; rewrite Hm in Hsort; discriminate.
Qed.

(** C10, as amended.  Whenever the traversal of release 1.1.0 completes, the
    traversal of release 1.0.0 of the same listing under the same ignore
    patterns completes as well, and the two visit the same entries, that is
    the same (relative path, depth, kind) triples the same number of times,
    in an order that may differ.  Sorted by name or by type, the traversal
    of release 1.1.0 completes whenever that of release 1.0.0 does. *)
Theorem walkDir_releases_visit_same_entries (listing : result (list Dirent))
    (dirPath rootDir : string) (ignorePatterns : list string) (depth : nat)
    (options : CodeAtlasConfig) (dO : gmap nat bool) :
  (∀ w, traced listing dirPath rootDir ignorePatterns depth options dO
        = (w, Ok ()) →
     ∃ w0, traced_1_0_0 listing dirPath rootDir ignorePatterns depth dO
           = (w0, Ok ())
           ∧ visitTriple <$> user w0 ≡ₚ visitTriple <$> user w)
  ∧ (default SortName (sort options) = SortName
     ∨ default SortName (sort options) = SortType →
     (traced_1_0_0 listing dirPath rootDir ignorePatterns depth dO).2 = Ok () →
     (traced listing dirPath rootDir ignorePatterns depth options dO).2 = Ok ()).
Proof.
  rewrite traced_script, traced_script_1_0_0. cbn zeta. split.
  - intros w Heq.
    pose proof (f_equal snd Heq) as Hok. apply (f_equal fst) in Heq.
    cbn [fst snd] in Heq, Hok. subst w.
    destruct (scripts_same_entries _ _ _ _ _ _ _ Hok) as [Hok0 Hperm].
    eexists. split; [by rewrite Hok0|].
    cbn [user]. by rewrite !snapshots_triples.
  - cbn [snd]. apply scripts_complete_together.
Qed.

End Releases.

(** C10 as stated fails when the file system fails.  With sorting by size, a
    file whose [stat] fails (a dangling link) makes release 1.1.0 fail
    before it visits anything, while release 1.0.0 completes and visits the
    file.  With any sorting, in a listing of the file [b] and the unreadable
    directory [a], release 1.0.0 calls the callback of [b] and then fails on
    [a]; release 1.1.0 goes to the directory first and never reaches [b]. *)
Lemma walkDir_releases_counterexample :
  let host := Example.host [] in
  let dangling := Ok [FileEntry "gone"] in
  let old := @traced_1_0_0 host dangling "root" "root" [] 0 ∅ in
  let new := @traced host dangling "root" "root" [] 0
               (sortConfig (Some SortSize) None) ∅ in
  let old' := visitTriple <$>
    user (@traced_1_0_0 host Scenario.unreadable "root" "root" [] 0 ∅).1 in
  let new' := visitTriple <$>
    user (@traced host Scenario.unreadable "root" "root" [] 0 emptyConfig ∅).1 in
  (old.2 = Ok () ∧ visitTriple <$> user old.1 = [("gone", 0%nat, KFile)]
   ∧ new.2 = Err "ENOENT" ∧ visitTriple <$> user new.1 = []
   ∧ ¬ visitTriple <$> user old.1 ≡ₚ visitTriple <$> user new.1)
  ∧ (old' = [("b", 0%nat, KFile); ("a", 0%nat, KDir)]
     ∧ new' = [("a", 0%nat, KDir)]
     ∧ ¬ old' ≡ₚ new').
Proof.
  split.
  - repeat (split; [reflexivity|]).
    intros Hperm%Permutation_length. vm_compute in Hperm. discriminate.
  - split; [reflexivity|]. split; [reflexivity|].
    intros Hperm%Permutation_length. vm_compute in Hperm. discriminate.
Qed.

(** ** The recursion budget

    The fuel [walkDir] starts with is enough: with any larger budget the
    traversal is the same, and on a tree of readable directories sorted by
    name or by type it completes. *)

Lemma entryDepth_dir nm sub :
  entryDepth (DirEntry nm sub) = S (listingDepth sub).
Proof. by destruct sub. Qed.

Lemma entryDepth_le_listing entries e :
  e ∈ entries → (entryDepth e ≤ listingDepth (Ok entries))%nat.
Proof.
  induction 1 as [e rest|e x rest _ IH]; simpl in *; lia.
Qed.

Lemma readableEntry_dir nm sub :
  readableEntry (DirEntry nm sub) ↔ readableListing sub.
Proof.
  destruct sub as [entries|e]; simpl; [|done].
  induction entries as [|x rest IH]; [by split; [constructor|]|].
  rewrite Forall_cons. by rewrite IH.
Qed.

Lemma scriptEntries_ext (body1 body2 : nat → Dirent → Script) i entries :
  (∀ k entry, entry ∈ entries → body1 k entry = body2 k entry) →
  scriptEntries body1 i entries = scriptEntries body2 i entries.
Proof.
  revert i. induction entries as [|entry rest IH]; intros i Hbody; simpl;
    [done|].
  rewrite Hbody by apply list_elem_of_here. f_equal.
  apply IH. intros k x Hx. apply Hbody. by apply list_elem_of_further.
Qed.

Section Budget.
Context `{Host}.

Lemma filtered_sorted_elem entries dirPath ignorePatterns sort sortDirection
    sortedEntries entry :
  sortEntries
    (List.filter (λ entry,
       negb (shouldIgnore (join dirPath (name entry)) ignorePatterns)) entries)
    dirPath sort sortDirection = Ok sortedEntries →
  entry ∈ sortedEntries → entry ∈ entries.
Proof.
  intros Hsort%sortEntries_perm Hin. rewrite Hsort in Hin.
  apply list_elem_of_In, filter_In in Hin as [Hin _]. by apply list_elem_of_In.
Qed.

Lemma scriptFuel_budget fuel1 fuel2 listing dirPath rootDir ignorePatterns
    depth options :
  (listingDepth listing < fuel1)%nat → (listingDepth listing < fuel2)%nat →
  scriptFuel fuel1 listing dirPath rootDir ignorePatterns depth options
  = scriptFuel fuel2 listing dirPath rootDir ignorePatterns depth options.
Proof.
  revert fuel2 listing dirPath depth.
  induction fuel1 as [|fuel1 IH]; intros [|fuel2] listing dirPath depth H1 H2;
    try lia.
  simpl. destruct listing as [entries|e]; [|done].
  destruct (sortEntries _ _ _ _) as [sortedEntries|e] eqn:Hsort; [|done].
  apply scriptEntries_ext. intros k entry Hentry.
  destruct entry as [nm|nm sub]; unfold scriptEntry; [done|].
  rewrite (IH fuel2); [done| |].
  all: pose proof (entryDepth_le_listing entries (DirEntry nm sub)
         (filtered_sorted_elem _ _ _ _ _ _ _ Hsort Hentry)) as Hle.
  all: rewrite entryDepth_dir in Hle; lia.
Qed.

(** More fuel than [walkDir] takes changes nothing. *)
Lemma walkDirFuel_budget {St} fuel listing dirPath rootDir ignorePatterns
    (onFile : Callback St) onDir depth options w :
  (listingDepth listing < fuel)%nat →
  walkDirFuel fuel listing dirPath rootDir ignorePatterns onFile onDir depth
    options w
  = walkDir listing dirPath rootDir ignorePatterns onFile onDir depth options w.
Proof.
  intros Hfuel. unfold walkDir. rewrite !walkDirFuel_script.
  by rewrite (scriptFuel_budget fuel (S (listingDepth listing))) by lia.
Qed.

(** On a tree whose directories can all be listed, a traversal sorted by
    name or by type runs its whole script. *)
Lemma scriptFuel_readable fuel listing dirPath rootDir ignorePatterns depth
    options :
  (listingDepth listing < fuel)%nat → readableListing listing →
  default SortName (sort options) = SortName
  ∨ default SortName (sort options) = SortType →
  (scriptFuel fuel listing dirPath rootDir ignorePatterns depth options).2
  = Ok ().
Proof.
  intros Hfuel Hread Hmethod. revert listing dirPath depth Hfuel Hread.
  induction fuel as [|fuel IH]; intros listing dirPath depth Hfuel Hread;
    [lia|].
  simpl. destruct listing as [entries|e]; [|done].
  destruct (sortEntries _ _ _ _) as [sortedEntries|e] eqn:Hsort.
  - apply scriptEntries_Ok, Forall_forall. intros entry Hentry.
    pose proof (filtered_sorted_elem _ _ _ _ _ _ _ Hsort Hentry) as Hin.
    destruct entry as [nm|nm sub]; simpl; [done|].
    apply IH.
    + pose proof (entryDepth_le_listing _ _ Hin) as Hle.
      rewrite entryDepth_dir in Hle. lia.
    + unfold readableListing in Hread. rewrite Forall_forall in Hread.
      apply (readableEntry_dir nm sub), Hread, Hin.
  - unfold sortEntries in Hsort. cbn zeta in Hsort.
    destruct Hmethod as [Hm|Hm]; rewrite Hm in Hsort; discriminate.
Qed.

Lemma traced_readable listing dirPath rootDir ignorePatterns depth options dO :
  readableListing listing →
  default SortName (sort options) = SortName
  ∨ default SortName (sort options) = SortType →
  (traced listing dirPath rootDir ignorePatterns depth options dO).2 = Ok ().
Proof.
  intros Hread Hmethod. rewrite traced_script. cbn zeta. cbn [snd].
  apply scriptFuel_readable; [lia|done..].
Qed.

End Budget.

(** ** The content pass *)

Lemma string_app_assoc (a b c : string) : (a +:+ b) +:+ c = a +:+ (b +:+ c).
Proof.
  induction a as [|x a IH]; [done|].
  change (String x ((a +:+ b) +:+ c) = String x (a +:+ (b +:+ c))).
  by rewrite IH.
Qed.

Lemma string_app_nil_r (a : string) : a +:+ EmptyString = a.
Proof.
  induction a as [|x a IH]; [done|].
  change (String x (a +:+ EmptyString) = String x a). by rewrite IH.
Qed.

Lemma snapshots_fileCalls dO acts :
  (λ v, (vPath v, vRelPath v)) <$> fileVisits (snapshots dO acts).1
  = fileCalls acts.
Proof.
  revert dO.
  induction acts as [|[[] p r d l|d b] acts IH]; intros dO;
    unfold fileVisits in *; simpl; [done| |apply IH..].
  f_equal. apply IH.
Qed.

(** ** What a write does to the files *)

Section FilesFacts.
Context `{Host}.

Lemma writeFileSync_Ok filePath data append d d' :
  writeFileSync filePath data append d = (d', Ok ()) →
  contents d'
  = <[fileOf filePath :=
        (if append then default EmptyString (contents d !! fileOf filePath)
         else EmptyString) +:+ data]> (contents d).
Proof.
  unfold writeFileSync. destruct (writeError _ _ _ _) as [[e rest]|]; [done|].
  by intros [= <-].
Qed.

Lemma writeFileSync_other filePath data append d file :
  file ≠ fileOf filePath →
  contents (writeFileSync filePath data append d).1 !! file = contents d !! file.
Proof.
  intros Hfile. unfold writeFileSync.
  destruct (writeError _ _ _ _) as [[e [text|]]|]; cbn [fst contents];
    by rewrite ?lookup_insert_ne.
Qed.

Lemma appendToFile_Ok filePath data d d' :
  appendToFile filePath data d = (d', Ok ()) →
  contents d'
  = <[fileOf filePath :=
        default EmptyString (contents d !! fileOf filePath) +:+ data]>
      (contents d).
Proof.
  unfold appendToFile. destruct (_ && _).
  - unfold mkdirSync. destruct (mkdirError _ _); [done|].
    intros Hwrite. by apply writeFileSync_Ok in Hwrite.
  - intros Hwrite. by apply writeFileSync_Ok in Hwrite.
Qed.

Lemma appendToFile_other filePath data d file :
  file ≠ fileOf filePath →
  contents (appendToFile filePath data d).1 !! file = contents d !! file.
Proof.
  intros Hfile. unfold appendToFile. destruct (_ && _).
  - unfold mkdirSync. destruct (mkdirError _ _); [done|].
    by rewrite writeFileSync_other.
  - by rewrite writeFileSync_other.
Qed.

Lemma writePaths_Ok pathsFile paths d d' :
  writePaths pathsFile paths d = (d', Ok ()) →
  contents d'
  = match truthy pathsFile with
    | Some f => <[fileOf f := JS.joinWith LF paths]> (contents d)
    | None => contents d
    end.
Proof.
  unfold writePaths. destruct (truthy pathsFile) as [f|]; [|by intros [= <-]].
  intros Hwrite. by apply writeFileSync_Ok in Hwrite.
Qed.

Lemma writePaths_other pathsFile paths d file :
  (∀ f, truthy pathsFile = Some f → file ≠ fileOf f) →
  contents (writePaths pathsFile paths d).1 !! file = contents d !! file.
Proof.
  intros Hfile. unfold writePaths. destruct (truthy pathsFile) as [f|]; [|done].
  apply writeFileSync_other. by apply Hfile.
Qed.

End FilesFacts.

Section ContentPass.
Context `{Host}.

(** One [appendToFile] of the callback that returns. *)
Lemma appendOutput_Ok output data (w w' : World ContentState) :
  stepUser (appendOutput output data) w = (w', Ok ()) →
  depthOpen w' = depthOpen w
  ∧ includedPaths (user w') = includedPaths (user w)
  ∧ excludedPaths (user w') = excludedPaths (user w)
  ∧ contents (disk (user w'))
    = <[fileOf output :=
          default EmptyString (contents (disk (user w)) !! fileOf output)
          +:+ data]> (contents (disk (user w))).
Proof.
  unfold stepUser, appendOutput. cbn [fst snd].
  destruct (appendToFile output data (disk (user w))) as [d r] eqn:Happend.
  cbn [fst snd]. intros [= <- ->]. apply appendToFile_Ok in Happend. done.
Qed.

(** One [appendToFile] of the callback, however it ends. *)
Lemma appendOutput_keeps output data (w : World ContentState) :
  let w' := (stepUser (appendOutput output data) w).1 in
  includedPaths (user w') = includedPaths (user w)
  ∧ excludedPaths (user w') = excludedPaths (user w)
  ∧ ∀ file, file ≠ fileOf output →
      contents (disk (user w')) !! file = contents (disk (user w)) !! file.
Proof.
  cbn zeta. unfold stepUser, appendOutput. cbn [fst user includedPaths
    excludedPaths disk]. split; [done|]. split; [done|].
  intros file Hfile. by apply appendToFile_other.
Qed.

(** A call of the callback that returns has recorded the path on one side,
    and for a file that is not left out it has appended the text emitted
    for it to the output. *)
Lemma contentOnFile_Ok output maxFileSize exts fileTemplate filePath relPath
    depth isLast w w' :
  contentOnFile output maxFileSize exts fileTemplate filePath relPath depth
    isLast w = (w', Ok ()) →
  let leftOut := excludedBySize maxFileSize exts filePath in
  depthOpen w' = depthOpen w
  ∧ includedPaths (user w')
    = (includedPaths (user w) ++ if leftOut then [] else [relPath])%list
  ∧ excludedPaths (user w')
    = (excludedPaths (user w) ++ if leftOut then [relPath] else [])%list
  ∧ contents (disk (user w'))
    = if leftOut then contents (disk (user w))
      else <[fileOf output :=
               default EmptyString (contents (disk (user w)) !! fileOf output)
               +:+ emitted fileTemplate filePath relPath]>
             (contents (disk (user w))).
Proof.
  cbn zeta. unfold contentOnFile, excludedBySize.
  set (emit := (modifyUser (pushIncluded relPath);; _) : M ContentState unit).
  assert (Hemit : ∀ w0, emit w0 = (w', Ok ()) →
    depthOpen w' = depthOpen w0
    ∧ includedPaths (user w') = (includedPaths (user w0) ++ [relPath])%list
    ∧ excludedPaths (user w') = (excludedPaths (user w0) ++ [])%list
    ∧ contents (disk (user w'))
      = <[fileOf output :=
            default EmptyString (contents (disk (user w0)) !! fileOf output)
            +:+ emitted fileTemplate filePath relPath]>
          (contents (disk (user w0)))).
  { intros w0. unfold emit, emitted. rewrite !bind_unfold.
    unfold modifyUser at 1, await at 1. cbn [fst snd].
    destruct (readFile filePath) as [content|e]; [|discriminate].
    rewrite app_nil_r.
    destruct (truthy fileTemplate) as [t|].
    - intros (HdO & Hinc & Hexc & Hdisk)%appendOutput_Ok. done.
    - rewrite !bind_unfold.
      destruct (stepUser (appendOutput output ("## " +:+ relPath +:+ LF)) _)
        as [w1 [[]|e]] eqn:Hfirst; [|discriminate].
      apply appendOutput_Ok in Hfirst as (HdO1 & Hinc1 & Hexc1 & Hdisk1).
      intros (HdO & Hinc & Hexc & Hdisk)%appendOutput_Ok.
      rewrite HdO, Hinc, Hexc, Hdisk, HdO1, Hinc1, Hexc1, Hdisk1.
      cbn [depthOpen user includedPaths excludedPaths disk pushIncluded].
      split; [done|]. split; [done|]. split; [done|].
      rewrite lookup_insert_eq, insert_insert_eq.
      cbn [default from_option]. unfold id. by rewrite string_app_assoc. }
  destruct maxFileSize as [m|].
  - rewrite bind_unfold. unfold await at 1.
    destruct (stat filePath) as [fileStat|e]; [|discriminate].
    destruct (_ && _); [|apply Hemit].
    unfold modifyUser. intros [= <-]. cbn. by rewrite app_nil_r.
  - destruct (stat filePath); apply Hemit.
Qed.

(** The callbacks of a script that all return. *)
Lemma runActions_content output maxFileSize exts fileTemplate acts w w' :
  runActions (contentOnFile output maxFileSize exts fileTemplate) None acts w
    = (w', Ok ()) →
  let leftOut := λ f : string * string, excludedBySize maxFileSize exts f.1 in
  includedPaths (user w')
  = (includedPaths (user w)
     ++ (List.filter (λ f, negb (leftOut f)) (fileCalls acts)).*2)%list
  ∧ excludedPaths (user w')
    = (excludedPaths (user w) ++ (List.filter leftOut (fileCalls acts)).*2)%list
  ∧ default EmptyString (contents (disk (user w')) !! fileOf output)
    = default EmptyString (contents (disk (user w)) !! fileOf output)
      +:+ emittedAll maxFileSize exts fileTemplate (fileCalls acts).
Proof.
  cbn zeta. revert w. induction acts as [|a acts IH]; intros w; simpl.
  - intros [= <-]. by rewrite !app_nil_r, string_app_nil_r.
  - rewrite bind_unfold.
    destruct (runAction _ None a w) as [w1 [[]|e]] eqn:Ha; [|discriminate].
    intros (Hinc & Hexc & Hout)%IH. rewrite Hinc, Hexc, Hout. clear IH.
    destruct a as [[] path relPath depth isLast|depth b]; simpl in Ha.
    + apply contentOnFile_Ok in Ha as (_ & Hinc1 & Hexc1 & Hdisk1).
      rewrite Hinc1, Hexc1, Hdisk1. unfold emittedAll. cbn [List.filter fst].
      destruct (excludedBySize maxFileSize exts path); cbn [negb].
      * by rewrite app_nil_r, <- app_assoc.
      * rewrite app_nil_r, <- app_assoc, lookup_insert_eq.
        cbn [fmap list_fmap foldr default from_option fst snd app].
        unfold id. by rewrite string_app_assoc.
    + by injection Ha as <-.
    + by injection Ha as <-.
Qed.

End ContentPass.

Section ContentRenderer.
Context `{Host}.


(** A scan that returns has visited what the observed traversal visits, and
    its state is the one the files lead to one after another. *)
Lemma writeFileContent_scan options rootListing disk0 disk1 included excluded :
  writeFileContent options rootListing disk0 = (disk1, Ok (included, excluded)) →
  let output := default "codebase.md" (output options) in
  let exts := default [] (alwaysIncludeExtensions options) in
  let leftOut := λ f : string * string,
    excludedBySize (maxFileSize options) exts f.1 in
  ∃ wT w,
    contentTraversal options rootListing = (wT, Ok ())
    ∧ contentWalk options rootListing disk0 = (w, Ok ())
    ∧ included = (List.filter (λ f, negb (leftOut f)) (visitedFiles wT)).*2
    ∧ excluded = (List.filter leftOut (visitedFiles wT)).*2
    ∧ default EmptyString (contents (disk (user w)) !! fileOf output)
      = default EmptyString (contents disk0 !! fileOf output)
        +:+ emittedAll (maxFileSize options) exts (fileTemplate options)
              (visitedFiles wT).
Proof.
  cbn zeta. unfold writeFileContent.
  destruct (contentWalk options rootListing disk0) as [w [[]|e]] eqn:Hwalk;
    [|discriminate].
  destruct (writePaths (includedPathsFile options) _ _) as [d1 [[]|e1]];
    [|discriminate].
  destruct (writePaths (excludedPathsFile options) _ _) as [d2 [[]|e2]];
    [|discriminate].
  intros [= _ <- <-].
  unfold contentTraversal. rewrite traced_script. cbn zeta.
  unfold contentWalk, walkDir in Hwalk. rewrite walkDirFuel_script in Hwalk.
  unfold runScript in Hwalk. rewrite bind_unfold in Hwalk.
  destruct (runActions _ None _ _) as [w1 [[]|e]] eqn:Hrun; [|discriminate].
  unfold await in Hwalk.
  pose proof (f_equal snd Hwalk) as Hok. apply (f_equal fst) in Hwalk.
  cbn [fst snd] in Hwalk, Hok. subst w1.
  eexists _, w. split; [by rewrite Hok|]. split; [done|].
  apply runActions_content in Hrun as (Hinc & Hexc & Hout).
  unfold visitedFiles. cbn [user fst]. rewrite snapshots_fileCalls.
  by rewrite Hinc, Hexc, Hout.
Qed.



(** C2.  Let no two visited files share a relative path unless they are the
    same path.  Then the two sequences a scan returns are disjoint, and the
    relative path of every visited file is in exactly one of them. *)
Theorem writeFileContent_paths_partition (options : CodeAtlasConfig)
    (rootListing : result (list Dirent)) (disk0 disk1 : Disk)
    (included excluded : list string)
    (Hunique : ∀ f g,
       f ∈ visitedFiles (contentTraversal options rootListing).1 →
       g ∈ visitedFiles (contentTraversal options rootListing).1 →
       f.2 = g.2 → f.1 = g.1) :
  writeFileContent options rootListing disk0 = (disk1, Ok (included, excluded)) →
  (∀ relPath, relPath ∈ included → relPath ∉ excluded)
  ∧ ∀ f, f ∈ visitedFiles (contentTraversal options rootListing).1 →
      (f.2 ∈ included ∧ f.2 ∉ excluded) ∨ (f.2 ∈ excluded ∧ f.2 ∉ included).
Proof.
  intros Hscan.
  destruct (writeFileContent_scan _ _ _ _ _ _ Hscan)
    as (wT & w & HwT & Hw & -> & -> & _).
  rewrite HwT in Hunique |- *. cbn [fst] in Hunique |- *.
  set (P := λ f : string * string,
         excludedBySize (maxFileSize options)
           (default [] (alwaysIncludeExtensions options)) f.1).
  assert (Hin : ∀ relPath, relPath ∈ (List.filter (λ f, negb (P f))
                                        (visitedFiles wT)).*2
                ↔ ∃ f, f ∈ visitedFiles wT ∧ P f = false ∧ f.2 = relPath).
  { intros relPath. rewrite list_elem_of_fmap. split.
    - intros (f & -> & [Hf HP]%list_elem_of_In%filter_In).
      exists f. rewrite list_elem_of_In. by apply negb_true_iff in HP.
    - intros (f & Hf & HP & <-). exists f. split; [done|].
      apply list_elem_of_In, filter_In. rewrite <- list_elem_of_In.
      by rewrite HP. }
  assert (Hex : ∀ relPath, relPath ∈ (List.filter P (visitedFiles wT)).*2
                ↔ ∃ f, f ∈ visitedFiles wT ∧ P f = true ∧ f.2 = relPath).
  { intros relPath. rewrite list_elem_of_fmap. split.
    - intros (f & -> & [Hf HP]%list_elem_of_In%filter_In).
      exists f. by rewrite list_elem_of_In.
    - intros (f & Hf & HP & <-). exists f. split; [done|].
      apply list_elem_of_In, filter_In. by rewrite <- list_elem_of_In. }
  assert (Hdisj : ∀ relPath,
            relPath ∈ (List.filter (λ f, negb (P f)) (visitedFiles wT)).*2 →
            relPath ∉ (List.filter P (visitedFiles wT)).*2).
  { intros relPath (f & Hf & HPf & <-)%Hin (g & Hg & HPg & Heq)%Hex.
    pose proof (Hunique g f Hg Hf Heq) as Hpath.
    unfold P in HPf, HPg. rewrite Hpath in HPg. congruence. }
  split; [exact Hdisj|].
  intros f Hf. destruct (P f) eqn:HP.
  - right. assert (f.2 ∈ (List.filter P (visitedFiles wT)).*2)
      by (apply Hex; eauto).
    split; [done|]. intros Hinc. by apply (Hdisj f.2).
  - left. assert (f.2 ∈ (List.filter (λ f, negb (P f)) (visitedFiles wT)).*2)
      by (apply Hin; eauto).
    split; [done|]. by apply Hdisj.
Qed.

End ContentRenderer.

(** ** The examples *)


Lemma writeFileContent_paths_partition_witness :
  (∀ f g,
     f ∈ visitedFiles
           (@contentTraversal Scenario.host Scenario.options Scenario.listing).1 →
     g ∈ visitedFiles
           (@contentTraversal Scenario.host Scenario.options Scenario.listing).1 →
     f.2 = g.2 → f.1 = g.1)
  ∧ @writeFileContent Scenario.host Scenario.options Scenario.listing ∅
    = ((@writeFileContent Scenario.host Scenario.options Scenario.listing ∅).1,
       Ok (["zdir/inner.ts"; "small.ts"], ["big.bin"]))
  ∧ (∀ relPath, relPath ∈ ["zdir/inner.ts"; "small.ts"] →
       relPath ∉ ["big.bin"]).
Proof.
  assert (Hunique : ∀ f g,
     f ∈ visitedFiles
           (@contentTraversal Scenario.host Scenario.options Scenario.listing).1 →
     g ∈ visitedFiles
           (@contentTraversal Scenario.host Scenario.options Scenario.listing).1 →
     f.2 = g.2 → f.1 = g.1).
  { change (visitedFiles _)
      with [("root/zdir/inner.ts", "zdir/inner.ts");
            ("root/big.bin", "big.bin"); ("root/small.ts", "small.ts")].
    intros f g Hf Hg.
    repeat (apply elem_of_cons in Hf as [->|Hf]);
      try (by apply elem_of_nil in Hf);
      repeat (apply elem_of_cons in Hg as [->|Hg]);
      try (by apply elem_of_nil in Hg); simpl; intros; done. }
  assert (Hscan :
    @writeFileContent Scenario.host Scenario.options Scenario.listing ∅
    = ((@writeFileContent Scenario.host Scenario.options Scenario.listing ∅).1,
       Ok (["zdir/inner.ts"; "small.ts"], ["big.bin"]))).
  { rewrite (surjective_pairing (writeFileContent _ _ _)) at 1. f_equal. }
  split; [exact Hunique|]. split; [exact Hscan|].
  exact (proj1 (@writeFileContent_paths_partition Scenario.host _ _ _ _ _ _
                  Hunique Hscan)).
Defined.

Lemma sortEntries_directories_first_then_method_witness :
  let entries := [FileEntry "b.ts"; DirEntry "zdir" (Ok []); FileEntry "a.css";
                  FileEntry "a.ts"] in
  let out := [DirEntry "zdir" (Ok []); FileEntry "a.css"; FileEntry "a.ts";
              FileEntry "b.ts"] in
  (∀ a b, (@localeCompare Scenario.host a b < 0
           ↔ 0 < @localeCompare Scenario.host b a)%Z)
  ∧ (∀ a b c, (@localeCompare Scenario.host a b ≤ 0 →
               @localeCompare Scenario.host b c ≤ 0 →
               @localeCompare Scenario.host a c ≤ 0)%Z)
  ∧ @extensionsApart Scenario.host entries
  ∧ (@sortEntries Scenario.host entries "root" (Some SortType) (Some Asc)
     = Ok out
     ∧ out ≡ₚ entries
     ∧ ∀ i j a b, (i < j)%nat → out !! i = Some a → out !! j = Some b →
         (isDirectory b = true → isDirectory a = true)
         ∧ (isDirectory a = isDirectory b →
            @sameKindOrder Scenario.host "root" SortType 1 a b))
  ∧ (@sortEntries Scenario.host
       [FileEntry "afile"; DirEntry "zdir" (Ok [])] "root"
       (Some SortName) (Some Asc)
     = Ok [DirEntry "zdir" (Ok []); FileEntry "afile"]
     ∧ ∀ i j a b, (i < j)%nat →
         [DirEntry "zdir" (Ok []); FileEntry "afile"] !! i = Some a →
         [DirEntry "zdir" (Ok []); FileEntry "afile"] !! j = Some b →
         (isDirectory b = true → isDirectory a = true)
         ∧ (isDirectory a = isDirectory b →
            @sameKindOrder Scenario.host "root" SortName 1 a b)).
Proof.
  cbn zeta.
  assert (Hext : @extensionsApart Scenario.host
            [FileEntry "b.ts"; DirEntry "zdir" (Ok []); FileEntry "a.css";
             FileEntry "a.ts"]).
  { intros a b _ _ _ _ Hz. by apply ExampleFacts.byteOrder_zero. }
  split; [exact ExampleFacts.byteOrder_flip|].
  split; [exact ExampleFacts.byteOrder_trans|].
  split; [exact Hext|]. split.
  - split; [reflexivity|].
    exact (@sortEntries_directories_first_then_method Scenario.host
             ExampleFacts.byteOrder_flip ExampleFacts.byteOrder_trans
             [FileEntry "b.ts"; DirEntry "zdir" (Ok []); FileEntry "a.css";
              FileEntry "a.ts"] "root"
             (Some SortType) (Some Asc) _ (λ _, Hext) eq_refl).
  - split; [reflexivity|].
    exact (proj2 (@sortEntries_directories_first_then_method Scenario.host
             ExampleFacts.byteOrder_flip ExampleFacts.byteOrder_trans
             [FileEntry "afile"; DirEntry "zdir" (Ok [])] "root"
             (Some SortName) (Some Asc) _ ltac:(discriminate) eq_refl)).
Defined.

Lemma walkDir_depthOpen_closed_witness :
  (@traced Scenario.host Scenario.listing "root" "root" [] 0 emptyConfig ∅).2
  = Ok ()
  ∧ (∀ v, v ∈ user (@traced Scenario.host Scenario.listing "root" "root" [] 0
                      emptyConfig ∅).1 →
       ∀ j, (vDepth v ≤ j)%nat → vDepthOpen v !! j = Some true →
       (∅ : gmap nat bool) !! j = Some true)
  ∧ depthOpen (@traced Scenario.host Scenario.listing "root" "root" [] 0
                 emptyConfig ∅).1 !! 0%nat = Some false.
Proof.
  split; [reflexivity|].
  destruct (@walkDir_depthOpen_closed Scenario.host Scenario.listing "root"
              "root" [] 0 emptyConfig ∅ _ _ (surjective_pairing _))
    as (Hseen & _ & Hreset).
  split; [exact Hseen|].
  apply (Hreset eq_refl _ (DirEntry "zdir" (Ok [FileEntry "inner.ts"])) eq_refl);
    [|reflexivity..].
  apply list_elem_of_further, list_elem_of_further, list_elem_of_here.
Defined.

Lemma extensionOf_file_name_witness :
  @toLowerCase Scenario.host EmptyString = EmptyString
  ∧ Path.lastPortion "src/Index.TS" = "Index" +:+ String "."%char "TS"
  ∧ @extensionOf Scenario.host "src/Index.TS" = "ts".
Proof.
  split; [reflexivity|]. split; [reflexivity|].
  exact (proj1 (@extensionOf_file_name Scenario.host "src/Index.TS" eq_refl)
           "Index" "TS" eq_refl eq_refl ltac:(discriminate)).
Defined.

Lemma sortEntries_type_ascending_witness :
  let names := ["b.ts"; "z.css"; "a.ts"; "a.json"] in
  (∀ a b, (@localeCompare Scenario.host a b < 0
           ↔ 0 < @localeCompare Scenario.host b a)%Z)
  ∧ (∀ a b c, (@localeCompare Scenario.host a b ≤ 0 →
               @localeCompare Scenario.host b c ≤ 0 →
               @localeCompare Scenario.host a c ≤ 0)%Z)
  ∧ @toLowerCase Scenario.host ".ts" = ".ts"
  ∧ @toLowerCase Scenario.host ".css" = ".css"
  ∧ @toLowerCase Scenario.host ".json" = ".json"
  ∧ (@localeCompare Scenario.host ".css" ".json" < 0)%Z
  ∧ (@localeCompare Scenario.host ".json" ".ts" < 0)%Z
  ∧ @extensionsApart Scenario.host (FileEntry <$> names)
  ∧ (∃ out, @sortEntries Scenario.host (FileEntry <$> names) "root"
              (Some SortType) (Some Asc) = Ok out
       ∧ out ≡ₚ FileEntry <$> names
       ∧ ∀ i j a b, (i < j)%nat → out !! i = Some a → out !! j = Some b →
           let extA := @toLowerCase Scenario.host (Path.extname (name a)) in
           let extB := @toLowerCase Scenario.host (Path.extname (name b)) in
           if decide (extA = extB)
           then (@localeCompare Scenario.host (name a) (name b) ≤ 0)%Z
           else (@localeCompare Scenario.host extA extB ≤ 0)%Z)
  ∧ @sortEntries Scenario.host (FileEntry <$> names) "root"
      (Some SortType) (Some Asc)
    = Ok (FileEntry <$> ["z.css"; "a.json"; "a.ts"; "b.ts"])
  ∧ @sortEntries Scenario.host
      [FileEntry "script.ts"; FileEntry "style.css"; FileEntry "data.json"]
      "root" (Some SortType) (Some Asc)
    = Ok [FileEntry "style.css"; FileEntry "data.json"; FileEntry "script.ts"].
Proof.
  cbn zeta.
  assert (Hext : @extensionsApart Scenario.host
                   (FileEntry <$> ["b.ts"; "z.css"; "a.ts"; "a.json"])).
  { intros a b _ _ _ _ Hz. by apply ExampleFacts.byteOrder_zero. }
  destruct (@sortEntries_type_ascending Scenario.host
              ExampleFacts.byteOrder_flip ExampleFacts.byteOrder_trans
              eq_refl eq_refl eq_refl eq_refl eq_refl
              ["b.ts"; "z.css"; "a.ts"; "a.json"] "root") as [Hgeneral Hexample].
  split; [exact ExampleFacts.byteOrder_flip|].
  split; [exact ExampleFacts.byteOrder_trans|].
  do 5 (split; [reflexivity|]).
  split; [exact Hext|]. split; [exact (Hgeneral Hext)|].
  split; [reflexivity|exact Hexample].
Defined.

Lemma walkDir_siblings_isLast_witness :
  (@traced Scenario.host Scenario.listing "root" "root" [] 0 emptyConfig ∅).2
  = Ok ()
  ∧ ∀ k v,
      visitsAt 0 (user (@traced Scenario.host Scenario.listing "root" "root" []
                          0 emptyConfig ∅).1) !! k = Some v →
      (vIsLast v = true ↔ k = 2%nat).
Proof.
  split; [reflexivity|].
  exact (proj2 (proj2 (@walkDir_siblings_isLast Scenario.host Scenario.listing
           "root" "root" [] 0 emptyConfig ∅ _ _ (surjective_pairing _))
           eq_refl)).
Defined.

Lemma walkDir_listing_error_propagates_witness :
  (@traced Scenario.host Scenario.unreadable "root" "root" [] 0 emptyConfig ∅).2
  = Err "EACCES"
  ∧ (∃ e', (@walkDir Scenario.host _ Scenario.unreadable "root" "root" []
              (recordVisit KFile) None 0 emptyConfig (mkWorld ∅ [])).2 = Err e')
  ∧ (@main Scenario.host (Ok (asObject Scenario.options)) (Err "ENOENT")
       ∅).2 = 1%Z.
Proof.
  split; [reflexivity|].
  destruct (@walkDir_listing_error_propagates Scenario.host (list Visit)
              "EACCES" Scenario.unreadable "root" "root" []
              (recordVisit KFile) None 0 emptyConfig (mkWorld ∅ []) ∅
              (Ok (asObject Scenario.options)) ∅) as (_ & Hup & _).
  split; [exact (Hup eq_refl)|].
  exact (proj1 (proj2 (proj2 (@walkDir_listing_error_propagates Scenario.host
           (list Visit) "ENOENT" Scenario.unreadable "root" "root" []
           (recordVisit KFile) None 0 emptyConfig (mkWorld ∅ []) ∅
           (Ok (asObject Scenario.options)) ∅)))).
Defined.

Lemma walkDir_releases_visit_same_entries_witness :
  (@traced Scenario.host Scenario.listing "root" "root" [] 0
     (sortConfig (Some SortSize) (Some Desc)) ∅).2 = Ok ()
  ∧ ∃ w0, @traced_1_0_0 Scenario.host Scenario.listing "root" "root" [] 0 ∅
          = (w0, Ok ())
          ∧ visitTriple <$> user w0
            ≡ₚ [("zdir", 0%nat, KDir); ("zdir/inner.ts", 1%nat, KFile);
                ("big.bin", 0%nat, KFile); ("small.ts", 0%nat, KFile)].
Proof.
  split; [reflexivity|].
  exact (proj1 (@walkDir_releases_visit_same_entries Scenario.host
                  Scenario.listing "root" "root" [] 0
                  (sortConfig (Some SortSize) (Some Desc)) ∅)
           _ (surjective_pairing _)).
Defined.

(** * Further properties *)

(** ** The traversal and the tree *)

(** What holds of every call of a script holds of every visit recorded. *)
Lemma snapshots_calls (Q : Kind → string → string → nat → bool → Prop) dO acts :
  Forall (λ a, match a with
               | ACall k p r d l => Q k p r d l
               | ASet _ _ => True
               end) acts →
  Forall (λ v, Q (vKind v) (vPath v) (vRelPath v) (vDepth v) (vIsLast v))
    (snapshots dO acts).1.
Proof.
  intros Hacts. revert dO.
  induction Hacts as [|a acts Ha _ IH]; intros dO; simpl; [constructor|].
  destruct a as [k p r d l|d b]; simpl; [|apply IH].
  constructor; [exact Ha|apply IH].
Qed.

Section VisitedPaths.
Context `{Host}.

Lemma sorted_not_ignored entries dirPath ignorePatterns sort sortDirection
    sortedEntries entry :
  sortEntries
    (List.filter (λ entry,
       negb (shouldIgnore (join dirPath (name entry)) ignorePatterns)) entries)
    dirPath sort sortDirection = Ok sortedEntries →
  entry ∈ sortedEntries →
  shouldIgnore (join dirPath (name entry)) ignorePatterns = false.
Proof.
  intros Hsort%sortEntries_perm Hin. rewrite Hsort in Hin.
  apply list_elem_of_In, filter_In in Hin as [_ Hin].
  by apply negb_true_iff in Hin.
Qed.

Lemma scriptFuel_calls base fuel listing dirPath rootDir ignorePatterns depth
    options :
  (base ≤ depth)%nat →
  Forall (λ a, match a with
               | ACall k p r d l =>
                   shouldIgnore p ignorePatterns = false
                   ∧ r = relative rootDir p ∧ (base ≤ d)%nat
               | ASet _ _ => True
               end)
    (scriptFuel fuel listing dirPath rootDir ignorePatterns depth options).1.
Proof.
  revert listing dirPath depth.
  induction fuel as [|fuel IH]; intros listing dirPath depth Hbase; simpl;
    [constructor|].
  destruct listing as [entries|e]; [|constructor].
  destruct (sortEntries _ _ _ _) as [sortedEntries|e] eqn:Hsort; [|constructor].
  apply scriptEntries_Forall. intros k entry Hentry.
  pose proof (sorted_not_ignored _ _ _ _ _ _ _ Hsort Hentry) as Hkeep.
  destruct entry as [nm|nm sub]; unfold scriptEntry.
  - by repeat constructor.
  - apply seqScript_Forall; [by repeat constructor|].
    apply seqScript_Forall; [|by repeat constructor].
    apply IH. lia.
Qed.

(** X1.  Every callback of a traversal, however the traversal ends, is called
    with a path that the ignore patterns do not match, with the relative
    path of that path from the root, and with a depth that is not less than
    the depth the traversal was started at. *)
Theorem walkDir_calls_for_kept_paths (listing : result (list Dirent))
    (dirPath rootDir : string) (ignorePatterns : list string) (depth : nat)
    (options : CodeAtlasConfig) (dO : gmap nat bool) :
  Forall (λ v, shouldIgnore (vPath v) ignorePatterns = false
               ∧ vRelPath v = relative rootDir (vPath v)
               ∧ (depth ≤ vDepth v)%nat)
    (user (traced listing dirPath rootDir ignorePatterns depth options dO).1).
Proof.
  rewrite traced_script. cbn zeta. cbn [fst user].
  apply (snapshots_calls (λ _ p r d _,
           shouldIgnore p ignorePatterns = false
           ∧ r = relative rootDir p ∧ (depth ≤ d)%nat)).
  by apply scriptFuel_calls.
Qed.

End VisitedPaths.

(** ** Every entry of the tree, once *)

Lemma list_bind_cons {A B} (f : A → list B) (x : A) (l : list A) :
  (x :: l) ≫= f = (f x ++ (l ≫= f))%list.
Proof. reflexivity. Qed.

Section TreeFacts.
Context `{Host}.

Lemma entryTree_dir rootDir ignorePatterns dirPath depth nm sub :
  entryTree rootDir ignorePatterns dirPath depth (DirEntry nm sub)
  = if shouldIgnore (join dirPath nm) ignorePatterns then []
    else (relative rootDir (join dirPath nm), depth, KDir)
         :: listingTree rootDir ignorePatterns (join dirPath nm) (depth + 1) sub.
Proof.
  simpl. destruct (shouldIgnore _ _); [done|]. by destruct sub.
Qed.

Lemma listableEntry_dir ignorePatterns dirPath nm sub :
  listableEntry ignorePatterns dirPath (DirEntry nm sub)
  ↔ shouldIgnore (join dirPath nm) ignorePatterns = true
    ∨ listableListing ignorePatterns (join dirPath nm) sub.
Proof.
  simpl. destruct (shouldIgnore _ _) eqn:Hig; [by split; [left|]|].
  destruct sub as [entries|e]; simpl.
  - assert (Hall : (fix all (l : list Dirent) : Prop :=
                     match l with
                     | [] => True
                     | x :: rest =>
                         listableEntry ignorePatterns (join dirPath nm) x
                         ∧ all rest
                     end) entries
                   ↔ Forall (listableEntry ignorePatterns (join dirPath nm))
                       entries).
    { induction entries as [|x rest IH]; [by split; [constructor|]|].
      rewrite Forall_cons. by rewrite IH. }
    rewrite Hall. split; [by right|]. by intros [?|?].
  - split; [done|]. by intros [?|?].
Qed.

(** The script of release 1.0.0 completes exactly on the listings whose
    directories, those that are ignored apart, can all be listed. *)
Lemma script_1_0_0_Ok_listable fuel listing dirPath rootDir ignorePatterns depth :
  (scriptFuel_1_0_0 fuel listing dirPath rootDir ignorePatterns depth).2 = Ok () →
  listableListing ignorePatterns dirPath listing.
Proof.
  revert listing dirPath depth.
  induction fuel as [|fuel IH]; intros listing dirPath depth; simpl;
    [discriminate|].
  destruct listing as [entries|e]; [|discriminate].
  rewrite scriptEntries_Ok, Forall_forall. intros Hall.
  apply Forall_forall. intros entry Hentry.
  destruct (shouldIgnore (join dirPath (name entry)) ignorePatterns) eqn:Hig.
  - destruct entry as [nm|nm sub]; [by simpl in *; rewrite Hig|].
    apply listableEntry_dir. by left.
  - assert (Hin : entry ∈ List.filter (λ entry,
              negb (shouldIgnore (join dirPath (name entry)) ignorePatterns))
              entries).
    { apply list_elem_of_In, filter_In. rewrite <- list_elem_of_In.
      by rewrite Hig. }
    specialize (Hall entry Hin).
    destruct entry as [nm|nm sub]; [by simpl in *; rewrite Hig|].
    apply listableEntry_dir. right. simpl in Hall. by eapply IH.
Qed.

Lemma script_1_0_0_listable_Ok fuel listing dirPath rootDir ignorePatterns depth :
  (listingDepth listing < fuel)%nat →
  listableListing ignorePatterns dirPath listing →
  (scriptFuel_1_0_0 fuel listing dirPath rootDir ignorePatterns depth).2 = Ok ().
Proof.
  revert listing dirPath depth.
  induction fuel as [|fuel IH]; intros listing dirPath depth Hfuel Hlist;
    [lia|].
  simpl. destruct listing as [entries|e]; [|done].
  apply scriptEntries_Ok, Forall_forall. intros entry Hentry.
  apply list_elem_of_In, filter_In in Hentry as [Hin Hkeep].
  apply list_elem_of_In in Hin. apply negb_true_iff in Hkeep.
  simpl in Hlist. rewrite Forall_forall in Hlist. specialize (Hlist _ Hin).
  destruct entry as [nm|nm sub]; simpl; [done|].
  apply listableEntry_dir in Hlist as [Hig|Hsub];
    [simpl in Hkeep; congruence|].
  apply IH; [|done].
  pose proof (entryDepth_le_listing _ _ Hin) as Hle.
  rewrite entryDepth_dir in Hle. lia.
Qed.

(** When it completes, its calls are the tree in the order of [readdir]. *)
Lemma script_1_0_0_tree fuel listing dirPath rootDir ignorePatterns depth :
  (scriptFuel_1_0_0 fuel listing dirPath rootDir ignorePatterns depth).2 = Ok () →
  callTriples
    (scriptFuel_1_0_0 fuel listing dirPath rootDir ignorePatterns depth).1
  = listingTree rootDir ignorePatterns dirPath depth listing.
Proof.
  revert listing dirPath depth.
  induction fuel as [|fuel IH]; intros listing dirPath depth; simpl;
    [discriminate|].
  destruct listing as [entries|e]; [|discriminate].
  rewrite scriptEntries_Ok. intros Hall.
  rewrite scriptEntries_triples by done. unfold listingTree.
  induction entries as [|entry rest IHrest]; [done|].
  rewrite list_bind_cons. cbn [List.filter] in Hall |- *.
  destruct (shouldIgnore (join dirPath (name entry)) ignorePatterns) eqn:Hig;
    cbn [negb] in Hall |- *.
  - rewrite IHrest by done.
    destruct entry as [nm|nm sub]; [by simpl in *; rewrite Hig|].
    rewrite entryTree_dir. simpl in Hig. by rewrite Hig.
  - apply Forall_cons in Hall as [Hentry Hrest].
    rewrite list_bind_cons, IHrest by done. f_equal.
    destruct entry as [nm|nm sub]; [by simpl in *; rewrite Hig|].
    rewrite entryTree_dir. simpl in Hig, Hentry |- *. rewrite Hig.
    f_equal. by apply IH.
Qed.

End TreeFacts.

Section TreeVisits.
Context `{Host}.

(** X2.  The traversal of release 1.0.0 completes exactly when every directory
    that is not ignored, and is not below an ignored one, can be listed.
    When it completes, the callbacks have been called for the entries of the
    tree that are not ignored and not below an ignored directory, once each,
    a directory before what it holds and siblings in the order of
    [readdir]. *)
Theorem walkDir_1_0_0_visits_tree_in_order (listing : result (list Dirent))
    (dirPath rootDir : string) (ignorePatterns : list string) (depth : nat)
    (dO : gmap nat bool) :
  ((traced_1_0_0 listing dirPath rootDir ignorePatterns depth dO).2 = Ok ()
   ↔ listableListing ignorePatterns dirPath listing)
  ∧ ((traced_1_0_0 listing dirPath rootDir ignorePatterns depth dO).2 = Ok () →
     visitTriple
       <$> user (traced_1_0_0 listing dirPath rootDir ignorePatterns depth dO).1
     = listingTree rootDir ignorePatterns dirPath depth listing).
Proof.
  rewrite traced_script_1_0_0. cbn zeta. cbn [fst snd user]. split.
  - split; [apply script_1_0_0_Ok_listable|].
    apply script_1_0_0_listable_Ok. lia.
  - intros Hok. rewrite snapshots_triples. by apply script_1_0_0_tree.
Qed.

(** X3.  When the traversal of release 1.1.0 completes, every directory that is
    not ignored could be listed, and the callbacks have been called for the
    entries of the tree that are not ignored and not below an ignored
    directory, once each, whatever the sorting.  Sorted by name or by type,
    it completes whenever those directories can be listed. *)
Theorem walkDir_visits_every_entry_once (listing : result (list Dirent))
    (dirPath rootDir : string) (ignorePatterns : list string) (depth : nat)
    (options : CodeAtlasConfig) (dO : gmap nat bool) :
  ((traced listing dirPath rootDir ignorePatterns depth options dO).2 = Ok () →
   listableListing ignorePatterns dirPath listing
   ∧ visitTriple
       <$> user (traced listing dirPath rootDir ignorePatterns depth options dO).1
     ≡ₚ listingTree rootDir ignorePatterns dirPath depth listing)
  ∧ (default SortName (sort options) = SortName
     ∨ default SortName (sort options) = SortType →
     listableListing ignorePatterns dirPath listing →
     (traced listing dirPath rootDir ignorePatterns depth options dO).2 = Ok ()).
Proof.
  rewrite traced_script. cbn zeta. cbn [fst snd user]. split.
  - intros Hok. destruct (scripts_same_entries _ _ _ _ _ _ _ Hok) as [Hok0 Hperm].
    split; [by eapply script_1_0_0_Ok_listable|].
    rewrite snapshots_triples, <- Hperm. by rewrite script_1_0_0_tree.
  - intros Hmethod Hlist. apply scripts_complete_together; [done|].
    apply script_1_0_0_listable_Ok; [lia|done].
Qed.

Lemma runActions_total {St} (onFile : Callback St) (onDir : option (Callback St))
    (acts : list Action) (w : World St) :
  (∀ p r d l w', (onFile p r d l w').2 = Ok ()) →
  (∀ f p r d l w', onDir = Some f → (f p r d l w').2 = Ok ()) →
  (runActions onFile onDir acts w).2 = Ok ().
Proof.
  intros HonFile HonDir. revert w.
  induction acts as [|a acts IH]; intros w; simpl; [done|].
  rewrite bind_unfold.
  destruct (runAction onFile onDir a w) as [w1 [[]|e]] eqn:Ha; [apply IH|].
  exfalso. destruct a as [[] p r d l|d b]; simpl in Ha.
  - specialize (HonFile p r d l w). by rewrite Ha in HonFile.
  - destruct onDir as [f|]; [|done].
    specialize (HonDir f p r d l w eq_refl). by rewrite Ha in HonDir.
  - done.
Qed.

(** X4.  [walkDir] fails for a cause only: when every directory that is not
    ignored can be listed, the sorting is by name or by type, and the
    callbacks do not fail, the traversal completes, whatever the callbacks
    do to the store. *)
Theorem walkDir_completes {St} (listing : result (list Dirent))
    (dirPath rootDir : string) (ignorePatterns : list string)
    (onFile : Callback St) (onDir : option (Callback St)) (depth : nat)
    (options : CodeAtlasConfig) (w : World St) :
  listableListing ignorePatterns dirPath listing →
  default SortName (sort options) = SortName
  ∨ default SortName (sort options) = SortType →
  (∀ p r d l w', (onFile p r d l w').2 = Ok ()) →
  (∀ f p r d l w', onDir = Some f → (f p r d l w').2 = Ok ()) →
  (walkDir listing dirPath rootDir ignorePatterns onFile onDir depth options w).2
  = Ok ().
Proof.
  intros Hlist Hmethod HonFile HonDir.
  unfold walkDir. rewrite walkDirFuel_script. unfold runScript.
  rewrite bind_unfold.
  pose proof (runActions_total onFile onDir
    (scriptFuel (S (listingDepth listing)) listing dirPath rootDir
       ignorePatterns depth options).1 w HonFile HonDir) as Hrun.
  destruct (runActions _ _ _ _) as [w1 [[]|e]]; [|done].
  unfold await. cbn [snd].
  apply scripts_complete_together; [done|].
  apply script_1_0_0_listable_Ok; [lia|done].
Qed.

End TreeVisits.

Lemma walkDir_completes_witness :
  (@walkDir Scenario.host _ Scenario.listing "root" "root" []
     (recordVisit KFile) (Some (recordVisit KDir)) 0 emptyConfig
     (mkWorld ∅ [])).2 = Ok ().
Proof.
  apply (@walkDir_completes Scenario.host).
  - repeat constructor.
  - by left.
  - done.
  - intros f p r d l w' [= <-]. done.
Defined.

(** ** The tree view *)

Lemma buildIndent_S (depth : nat) (dO : gmap nat bool) :
  buildIndent (S depth) dO
  = buildIndent depth dO
    +:+ (if default false (dO !! depth) then "│  " else "   ").
Proof.
  unfold buildIndent. by rewrite seq_S, foldl_app.
Qed.

Lemma buildIndent_ext (depth : nat) (a b : gmap nat bool) :
  (∀ j, (j < depth)%nat → default false (a !! j) = default false (b !! j)) →
  buildIndent depth a = buildIndent depth b.
Proof.
  induction depth as [|depth IH]; intros Hagree; [done|].
  rewrite !buildIndent_S, IH, Hagree by (intros; apply Hagree; lia) || lia.
  done.
Qed.

(** X9.  The indentation of a level reads the levels below it only: it has one
    segment for each of them, a bar where the level is open and a blank
    where it is closed or was never written; what [depthOpen] holds at the
    level itself or deeper does not matter. *)
Theorem buildIndent_reads_shallower_levels (depth : nat) (a b : gmap nat bool) :
  (∀ j, (j < depth)%nat → default false (a !! j) = default false (b !! j)) →
  buildIndent depth a = buildIndent depth b
  ∧ buildIndent (S depth) a
    = buildIndent depth b
      +:+ (if default false (a !! depth) then "│  " else "   ").
Proof.
  intros Hagree. rewrite buildIndent_S, (buildIndent_ext depth a b) by done.
  done.
Qed.

Lemma treeText_app (xs ys : list Visit) :
  treeText (xs ++ ys) = treeText xs +:+ treeText ys.
Proof.
  induction xs as [|v xs IH]; [done|].
  simpl. rewrite IH. by rewrite string_app_assoc.
Qed.

(** A callback of the tree view that returns has appended its line. *)
Lemma treeLine_Ok `{Host} (output slash path relPath : string) (depth : nat)
    (isLast : bool) (dO : gmap nat bool) (disk : Disk) (old : string)
    (w : World Disk) :
  contents disk !! fileOf output = Some old →
  treeLine output slash path relPath depth isLast (mkWorld dO disk)
    = (w, Ok ()) →
  depthOpen w = dO
  ∧ contents (user w)
    = <[fileOf output :=
          old +:+ (buildIndent depth dO +:+ (if isLast then "└─" else "├─")
                   +:+ Path.lastPortion relPath +:+ slash +:+ LF)]>
        (contents disk).
Proof.
  intros Hold. unfold treeLine, stepUser. cbn [depthOpen user].
  destruct (appendToFile output _ disk) as [disk1 [[]|e]] eqn:Happend;
    cbn [fst snd]; [|discriminate].
  apply appendToFile_Ok in Happend. rewrite Hold in Happend.
  intros [= <-]. by cbn [depthOpen user].
Qed.

(** The callbacks of the tree view append the line of every visit. *)
Lemma runActions_treeLine `{Host} (output : string) (acts : list Action)
    (dO : gmap nat bool) (disk : Disk) (old : string) (w : World Disk) :
  contents disk !! fileOf output = Some old →
  runActions (treeLine output EmptyString) (Some (treeLine output "/")) acts
    (mkWorld dO disk) = (w, Ok ()) →
  depthOpen w = (snapshots dO acts).2
  ∧ contents (user w)
    = <[fileOf output := old +:+ treeText (snapshots dO acts).1]>
        (contents disk).
Proof.
  revert dO disk old.
  induction acts as [|a acts IH]; intros dO disk old Hold; simpl.
  - intros [= <-]. cbn [depthOpen user].
    by rewrite string_app_nil_r, insert_id.
  - rewrite bind_unfold.
    destruct a as [[] path relPath depth isLast|depth b];
      cbn [runAction snapshots fst snd].
    + destruct (treeLine _ _ _ _ _ _ _) as [[dO1 disk1] [[]|e]] eqn:Hline;
        [|discriminate].
      apply (treeLine_Ok _ _ _ _ _ _ _ _ old) in Hline as [HdO Hline];
        [|done].
      cbn [depthOpen user] in HdO, Hline. subst dO1. intros Hrest.
      apply (IH _ _ _ ltac:(by rewrite Hline, lookup_insert_eq)) in Hrest
        as [-> ->].
      split; [done|]. rewrite Hline, insert_insert_eq. f_equal.
      unfold treeText, treeLineOf. simpl. by rewrite !string_app_assoc.
    + destruct (treeLine _ _ _ _ _ _ _) as [[dO1 disk1] [[]|e]] eqn:Hline;
        [|discriminate].
      apply (treeLine_Ok _ _ _ _ _ _ _ _ old) in Hline as [HdO Hline];
        [|done].
      cbn [depthOpen user] in HdO, Hline. subst dO1. intros Hrest.
      apply (IH _ _ _ ltac:(by rewrite Hline, lookup_insert_eq)) in Hrest
        as [-> ->].
      split; [done|]. rewrite Hline, insert_insert_eq. f_equal.
      unfold treeText, treeLineOf. simpl. by rewrite !string_app_assoc.
    + by apply IH.
Qed.

(** They all return when no [appendToFile] to the output throws. *)
Lemma runActions_treeLine_total `{Host} (output : string) (acts : list Action)
    (w : World Disk) :
  appendable output →
  (runActions (treeLine output EmptyString) (Some (treeLine output "/")) acts
     w).2 = Ok ().
Proof.
  intros Happend. revert w. induction acts as [|a acts IH]; intros w; [done|].
  simpl. rewrite bind_unfold.
  assert (Hline : ∀ slash path relPath depth isLast,
            (treeLine output slash path relPath depth isLast w).2 = Ok ()).
  { intros. unfold treeLine, stepUser. cbn [snd]. apply Happend. }
  destruct a as [[] path relPath depth isLast|depth b]; cbn [runAction].
  - specialize (Hline EmptyString path relPath depth isLast).
    destruct (treeLine _ _ _ _ _ _ _) as [w1 [[]|e]]; [apply IH|done].
  - specialize (Hline "/" path relPath depth isLast).
    destruct (treeLine _ _ _ _ _ _ _) as [w1 [[]|e]]; [apply IH|done].
  - apply IH.
Qed.

Section DrawingFacts.
Context `{Host}.

Lemma scriptEntry_keeps below dirPath rootDir depth n i entry dO j :
  (∀ sub fullPath, Forall (λ a, (depth + 1 ≤ actionDepth a)%nat)
                     (below sub fullPath).1) →
  (j < depth)%nat →
  (snapshots dO (scriptEntry below dirPath rootDir depth n i entry).1).2 !! j
  = dO !! j.
Proof.
  intros Hbelow Hj. apply snapshots_preserve.
  eapply Forall_impl; [by apply scriptEntry_levels|]. simpl. intros; lia.
Qed.

Lemma scriptEntry_draw below drawBelow dirPath rootDir depth n i entry dO :
  (∀ sub fullPath dO', (below sub fullPath).2 = Ok () →
     treeText (snapshots dO' (below sub fullPath).1).1
     = drawBelow sub fullPath (buildIndent (depth + 1) dO')) →
  entryOk below dirPath entry →
  treeText (snapshots dO (scriptEntry below dirPath rootDir depth n i entry).1).1
  = drawEntry drawBelow dirPath rootDir n (buildIndent depth dO) i entry.
Proof.
  intros Hdraw Hok. destruct entry as [nm|nm sub]; unfold scriptEntry.
  - reflexivity.
  - simpl in Hok.
    rewrite !seqScript_Ok_fst by (done || by unfold seqScript; rewrite Hok).
    cbn [fst app snapshots]. rewrite snapshots_app. cbn [fst snd snapshots].
    rewrite app_nil_r. cbn [treeText foldr]. fold (treeText).
    unfold drawEntry. cbn [isDirectory name]. f_equal.
    change (foldr (λ v text, treeLineOf v +:+ text) EmptyString ?vs)
      with (treeText vs).
    rewrite Hdraw by done. f_equal.
    rewrite Nat.add_1_r, buildIndent_S, lookup_insert_eq. cbn [default].
    rewrite (buildIndent_ext depth _ dO)
      by (intros j Hj; rewrite lookup_insert_ne by lia; done).
    by destruct (Nat.eqb i (n - 1)).
Qed.

Lemma scriptEntries_draw below drawBelow dirPath rootDir depth n entries i dO :
  (∀ sub fullPath dO', (below sub fullPath).2 = Ok () →
     treeText (snapshots dO' (below sub fullPath).1).1
     = drawBelow sub fullPath (buildIndent (depth + 1) dO')) →
  (∀ sub fullPath, Forall (λ a, (depth + 1 ≤ actionDepth a)%nat)
                     (below sub fullPath).1) →
  Forall (entryOk below dirPath) entries →
  treeText
    (snapshots dO
       (scriptEntries (scriptEntry below dirPath rootDir depth n) i entries).1).1
  = drawEntries (drawEntry drawBelow dirPath rootDir n (buildIndent depth dO))
      i entries.
Proof.
  intros Hdraw Hlevels Hall. revert i dO.
  induction Hall as [|entry rest Hentry Hrest IH]; intros i dO; [done|].
  cbn [scriptEntries drawEntries].
  rewrite seqScript_Ok_fst by by apply scriptEntry_Ok.
  rewrite snapshots_app. cbn [fst]. rewrite treeText_app.
  rewrite (scriptEntry_draw below drawBelow) by done. f_equal.
  rewrite IH. f_equal. f_equal.
  apply buildIndent_ext. intros j Hj. f_equal.
  by apply scriptEntry_keeps.
Qed.

(** The lines of a traversal that completes are the drawing of the tree. *)
Lemma scriptFuel_draw fuel listing dirPath rootDir ignorePatterns depth options dO :
  (scriptFuel fuel listing dirPath rootDir ignorePatterns depth options).2
    = Ok () →
  treeText
    (snapshots dO
       (scriptFuel fuel listing dirPath rootDir ignorePatterns depth options).1).1
  = drawFuel fuel listing dirPath rootDir ignorePatterns options
      (buildIndent depth dO).
Proof.
  revert listing dirPath depth dO.
  induction fuel as [|fuel IH]; intros listing dirPath depth dO; simpl;
    [discriminate|].
  destruct listing as [entries|e]; [|discriminate].
  destruct (sortEntries _ _ _ _) as [sortedEntries|e]; [|discriminate].
  rewrite scriptEntries_Ok. intros Hall.
  apply scriptEntries_draw; [|intros; apply scriptFuel_levels|done].
  intros sub fullPath dO' Hok. by apply IH.
Qed.

End DrawingFacts.

Section TreeView.
Context `{Host}.

(** X10.  The tree view is the drawing of the tree.  With the two callbacks of
    [main], a traversal that completes has appended to the output file, line
    by line, the text that draws the listing with the indentation passed
    down: below a directory that is not the last of its siblings the lines
    carry a bar at its level, below the last one a blank, and no bar is left
    over from a directory that has been left. *)
Theorem walkDir_tree_view_is_drawing (listing : result (list Dirent))
    (dirPath rootDir : string) (ignorePatterns : list string)
    (options : CodeAtlasConfig) (output old : string) (disk : Disk)
    (w : World Disk) :
  contents disk !! fileOf output = Some old →
  walkDir listing dirPath rootDir ignorePatterns
    (treeLine output EmptyString) (Some (treeLine output "/")) 0 options
    (mkWorld ∅ disk) = (w, Ok ()) →
  contents (user w)
  = <[fileOf output :=
        old +:+ drawTree listing dirPath rootDir ignorePatterns options]>
      (contents disk).
Proof.
  intros Hold. unfold walkDir. rewrite walkDirFuel_script. unfold runScript.
  rewrite bind_unfold.
  destruct (runActions _ _ _ _) as [w1 [[]|e]] eqn:Hrun; [|discriminate].
  apply (runActions_treeLine _ _ _ _ old) in Hrun as [_ Hcontents]; [|done].
  unfold await. intros Heq.
  pose proof (f_equal snd Heq) as Hok. apply (f_equal fst) in Heq.
  cbn [fst snd] in Heq, Hok. subst w.
  by rewrite Hcontents, (scriptFuel_draw _ _ _ _ _ _ _ _ Hok).
Qed.

End TreeView.

Lemma walkDir_tree_view_is_drawing_witness :
  let walk :=
    @walkDir Scenario.host _ Scenario.listing "root" "root" []
      (@treeLine Scenario.host "out.md" EmptyString)
      (Some (@treeLine Scenario.host "out.md" "/")) 0
      emptyConfig (mkWorld ∅ (mkDisk {["out.md" := "T"]} [])) in
  walk.2 = Ok ()
  ∧ contents (user walk.1)
    = <["out.md" := "T" +:+ @drawTree Scenario.host Scenario.listing "root" "root"
                              [] emptyConfig]> {["out.md" := "T"]}.
Proof.
  intros walk. split; [reflexivity|].
  exact (@walkDir_tree_view_is_drawing Scenario.host Scenario.listing
           "root" "root" [] emptyConfig "out.md" "T"
           (mkDisk {["out.md" := "T"]} []) walk.1 eq_refl
           (surjective_pairing walk)).
Defined.

(** ** The files that a run writes *)

Section PathsFiles.
Context `{Host}.

(** The outcome of a scan, from the outcome of its traversal. *)
Lemma writeFileContent_unfold options rootListing disk0 :
  writeFileContent options rootListing disk0
  = let w := (contentWalk options rootListing disk0).1 in
    match (contentWalk options rootListing disk0).2 with
    | Err e => (disk (user w), Err e)
    | Ok _ =>
        match writePaths (includedPathsFile options) (includedPaths (user w))
                (disk (user w)) with
        | (disk1, Err e) => (disk1, Err e)
        | (disk1, Ok _) =>
            match writePaths (excludedPathsFile options)
                    (excludedPaths (user w)) disk1 with
            | (disk2, Err e) => (disk2, Err e)
            | (disk2, Ok _) =>
                (disk2, Ok (includedPaths (user w), excludedPaths (user w)))
            end
        end
    end.
Proof.
  unfold writeFileContent.
  by destruct (contentWalk options rootListing disk0) as [w [[]|e]].
Qed.

(** What a scan that returns has returned and written, from the state its
    traversal ended in. *)
Lemma writeFileContent_returns (options : CodeAtlasConfig)
    (rootListing : result (list Dirent)) (disk0 disk1 : Disk)
    (included excluded : list string) :
  writeFileContent options rootListing disk0 = (disk1, Ok (included, excluded)) →
  let s := user (contentWalk options rootListing disk0).1 in
  (contentWalk options rootListing disk0).2 = Ok ()
  ∧ included = includedPaths s
  ∧ excluded = excludedPaths s
  ∧ ∃ between,
      writePaths (includedPathsFile options) included (disk s)
      = (between, Ok ())
      ∧ writePaths (excludedPathsFile options) excluded between
        = (disk1, Ok ()).
Proof.
  rewrite writeFileContent_unfold. cbn zeta.
  destruct (contentWalk options rootListing disk0).2 as [[]|e]; [|discriminate].
  destruct (writePaths (includedPathsFile options) _ _)
    as [between [[]|e1]] eqn:Hinc; [|discriminate].
  destruct (writePaths (excludedPathsFile options) _ _)
    as [d2 [[]|e2]] eqn:Hexc; [|discriminate].
  intros [= <- <- <-]. repeat split. by exists between.
Qed.

(** The files that the paths files leave alone. *)
Lemma writeFileContent_keeps (options : CodeAtlasConfig)
    (rootListing : result (list Dirent)) (disk0 : Disk) (file : string) :
  (∀ f, truthy (includedPathsFile options) = Some f → file ≠ fileOf f) →
  (∀ f, truthy (excludedPathsFile options) = Some f → file ≠ fileOf f) →
  contents (writeFileContent options rootListing disk0).1 !! file
  = contents (disk (user (contentWalk options rootListing disk0).1)) !! file.
Proof.
  intros Hinc Hexc. rewrite writeFileContent_unfold. cbn zeta.
  destruct (contentWalk options rootListing disk0).2 as [[]|e]; [|done].
  pose proof (writePaths_other (includedPathsFile options)
    (includedPaths (user (contentWalk options rootListing disk0).1))
    (disk (user (contentWalk options rootListing disk0).1)) file Hinc) as H1.
  destruct (writePaths (includedPathsFile options) _ _) as [d1 [[]|e1]];
    cbn [fst] in *; [|done].
  pose proof (writePaths_other (excludedPathsFile options)
    (excludedPaths (user (contentWalk options rootListing disk0).1))
    d1 file Hexc) as H2.
  destruct (writePaths (excludedPathsFile options) _ _) as [d2 [[]|e2]];
    cbn [fst] in *; congruence.
Qed.

(** X11.  After a scan that returns, the file named by [excludedPathsFile] holds
    the returned [excludedPaths], one path a line, and the file named by
    [includedPathsFile] holds the returned [includedPaths] unless the two
    name the same file, by the same path or by two, which the excluded
    paths then overwrite.  An empty name is no name: nothing is written for
    it.  No other file is touched after the traversal. *)
Theorem writeFileContent_paths_files (options : CodeAtlasConfig)
    (rootListing : result (list Dirent)) (disk0 disk1 : Disk)
    (included excluded : list string) :
  writeFileContent options rootListing disk0 = (disk1, Ok (included, excluded)) →
  (∀ f, truthy (excludedPathsFile options) = Some f →
     contents disk1 !! fileOf f = Some (JS.joinWith LF excluded))
  ∧ (∀ f, truthy (includedPathsFile options) = Some f →
       (∀ g, truthy (excludedPathsFile options) = Some g →
          fileOf f ≠ fileOf g) →
       contents disk1 !! fileOf f = Some (JS.joinWith LF included))
  ∧ (∀ f g, truthy (includedPathsFile options) = Some f →
       truthy (excludedPathsFile options) = Some g →
       fileOf f = fileOf g →
       contents disk1 !! fileOf f = Some (JS.joinWith LF excluded))
  ∧ (∀ file,
       (∀ f, truthy (includedPathsFile options) = Some f → file ≠ fileOf f) →
       (∀ f, truthy (excludedPathsFile options) = Some f → file ≠ fileOf f) →
       contents disk1 !! file
       = contents (disk (user (contentWalk options rootListing disk0).1))
           !! file)
  ∧ (includedPathsFile options = Some EmptyString →
     excludedPathsFile options = Some EmptyString →
     disk1 = disk (user (contentWalk options rootListing disk0).1)).
Proof.
  intros Hscan.
  pose proof (f_equal fst Hscan) as Hdisk. cbn [fst] in Hdisk.
  apply writeFileContent_returns in Hscan
    as (_ & _ & _ & between & Hinc & Hexc).
  pose proof (writePaths_Ok _ _ _ _ Hinc) as Hbetween.
  pose proof (writePaths_Ok _ _ _ _ Hexc) as Hlast.
  split; [|split; [|split; [|split]]].
  - intros f Hf. rewrite Hlast, Hf. apply lookup_insert_eq.
  - intros f Hf Hne. rewrite Hlast.
    destruct (truthy (excludedPathsFile options)) as [g|].
    + rewrite lookup_insert_ne by (intros Heq; by apply (Hne g)).
      rewrite Hbetween, Hf. apply lookup_insert_eq.
    + rewrite Hbetween, Hf. apply lookup_insert_eq.
  - intros f g Hf Hg Heq. rewrite Hlast, Hg, Heq. apply lookup_insert_eq.
  - intros file Hfile1 Hfile2. rewrite <- Hdisk.
    by apply writeFileContent_keeps.
  - intros Hi He. unfold writePaths in Hinc, Hexc.
    rewrite Hi in Hinc. rewrite He in Hexc. cbn [truthy] in Hinc, Hexc.
    congruence.
Qed.

Lemma contentOnFile_other_files output maxFileSize exts fileTemplate filePath
    relPath depth isLast (w : World ContentState) file :
  file ≠ fileOf output →
  contents (disk (user (contentOnFile output maxFileSize exts fileTemplate
                          filePath relPath depth isLast w).1)) !! file
  = contents (disk (user w)) !! file.
Proof.
  intros Hfile. unfold contentOnFile.
  set (emit := (modifyUser (pushIncluded relPath);; _) : M ContentState unit).
  assert (Hemit : ∀ w0, contents (disk (user (emit w0).1)) !! file
                        = contents (disk (user w0)) !! file).
  { intros w0. unfold emit. rewrite bind_unfold. unfold modifyUser.
    cbn beta iota. rewrite bind_unfold. unfold await. cbn beta iota.
    destruct (readFile filePath) as [content|e]; [|done].
    destruct (truthy fileTemplate) as [t|].
    - destruct (appendOutput_keeps output
        (formatWithTemplate t relPath (extensionOf filePath) content
         +:+ LF +:+ LF)
        (mkWorld (depthOpen w0) (pushIncluded relPath (user w0))))
        as (_ & _ & Hkeep).
      by rewrite Hkeep.
    - rewrite bind_unfold.
      destruct (appendOutput_keeps output ("## " +:+ relPath +:+ LF)
        (mkWorld (depthOpen w0) (pushIncluded relPath (user w0))))
        as (_ & _ & Hkeep1).
      specialize (Hkeep1 file Hfile). cbn [user disk pushIncluded] in Hkeep1.
      destruct (stepUser (appendOutput output ("## " +:+ relPath +:+ LF)) _)
        as [w1 [[]|e]]; cbn [fst] in *; [|done].
      destruct (appendOutput_keeps output
        ("```" +:+ extensionOf filePath +:+ LF +:+ content +:+ LF +:+
         "```" +:+ LF +:+ LF) w1) as (_ & _ & Hkeep2).
      by rewrite Hkeep2. }
  destruct maxFileSize as [m|]; [|apply Hemit].
  rewrite bind_unfold. unfold await at 1.
  destruct (stat filePath) as [fileStat|e]; [|done].
  destruct (_ && _); [done|apply Hemit].
Qed.

Lemma runActions_other_files output maxFileSize exts fileTemplate acts
    (w : World ContentState) file :
  file ≠ fileOf output →
  contents (disk (user (runActions
                          (contentOnFile output maxFileSize exts fileTemplate)
                          None acts w).1)) !! file
  = contents (disk (user w)) !! file.
Proof.
  intros Hfile. revert w. induction acts as [|a acts IH]; intros w; [done|].
  simpl. rewrite bind_unfold.
  assert (Ha : contents (disk (user (runAction
                  (contentOnFile output maxFileSize exts fileTemplate) None a
                  w).1)) !! file = contents (disk (user w)) !! file).
  { destruct a as [[] p r d l|d b]; simpl; [|done..].
    by apply contentOnFile_other_files. }
  destruct (runAction _ None a w) as [w1 [[]|e]]; simpl in *; [|done].
  by rewrite IH.
Qed.

(** The traversal of the content pass, however it ends, writes to the
    output file only. *)
Lemma contentWalk_other_files options rootListing disk0 file :
  file ≠ fileOf (default "codebase.md" (output options)) →
  contents (disk (user (contentWalk options rootListing disk0).1)) !! file
  = contents disk0 !! file.
Proof.
  intros Hfile. unfold contentWalk, walkDir. rewrite walkDirFuel_script.
  unfold runScript. rewrite bind_unfold.
  pose proof (runActions_other_files (default "codebase.md" (output options))
    (maxFileSize options) (default [] (alwaysIncludeExtensions options))
    (fileTemplate options)
    (scriptFuel
       (S (listingDepth rootListing)) rootListing
       (default "." (dir options)) (default "." (dir options))
       (default [] (ignore options)) 0
       (sortConfig (sort options) (sortDirection options))).1
    (mkWorld ∅ (mkContentState [] [] disk0)) file Hfile) as Hrun.
  destruct (runActions _ None _ _) as [w1 [[]|e]]; simpl in *; done.
Qed.

(** X13.  Whatever its outcome, a scan changes no file but the output file and
    the paths files that are configured.  When its traversal fails it writes
    no paths file: every file other than the output file is as it was.  When
    the traversal returns and writing [includedPathsFile] throws, the scan
    throws that error and [excludedPathsFile] is not written; when writing
    [excludedPathsFile] throws, the scan throws after [includedPathsFile]
    has been written. *)
Theorem writeFileContent_touches_its_files_only (options : CodeAtlasConfig)
    (rootListing : result (list Dirent)) (disk0 : Disk) :
  let output := default "codebase.md" (output options) in
  let scan := writeFileContent options rootListing disk0 in
  let walk := contentWalk options rootListing disk0 in
  (∀ file, file ≠ fileOf output →
     (∀ f, truthy (includedPathsFile options) = Some f → file ≠ fileOf f) →
     (∀ f, truthy (excludedPathsFile options) = Some f → file ≠ fileOf f) →
     contents scan.1 !! file = contents disk0 !! file)
  ∧ (∀ e, walk.2 = Err e →
       scan.2 = Err e
       ∧ ∀ file, file ≠ fileOf output →
           contents scan.1 !! file = contents disk0 !! file)
  ∧ (∀ f e, walk.2 = Ok () → truthy (includedPathsFile options) = Some f →
       (writeFileSync f (JS.joinWith LF (includedPaths (user walk.1))) false
          (disk (user walk.1))).2 = Err e →
       scan.2 = Err e
       ∧ ∀ file, file ≠ fileOf output → file ≠ fileOf f →
           contents scan.1 !! file = contents disk0 !! file)
  ∧ (∀ f g e between,
       walk.2 = Ok () → truthy (includedPathsFile options) = Some f →
       truthy (excludedPathsFile options) = Some g →
       writeFileSync f (JS.joinWith LF (includedPaths (user walk.1))) false
         (disk (user walk.1)) = (between, Ok ()) →
       (writeFileSync g (JS.joinWith LF (excludedPaths (user walk.1))) false
          between).2 = Err e →
       scan.2 = Err e
       ∧ (fileOf f ≠ fileOf g →
          contents scan.1 !! fileOf f
          = Some (JS.joinWith LF (includedPaths (user walk.1))))).
Proof.
  cbn zeta. split; [|split; [|split]].
  - intros file Hout Hinc Hexc.
    rewrite writeFileContent_keeps by done.
    by apply contentWalk_other_files.
  - intros e Hwalk.
    assert (Hscan : writeFileContent options rootListing disk0
                    = (disk (user (contentWalk options rootListing disk0).1),
                       Err e)).
    { rewrite writeFileContent_unfold. cbn zeta. by rewrite Hwalk. }
    rewrite Hscan. cbn [fst snd]. split; [done|]. intros file Hout.
    by apply contentWalk_other_files.
  - intros f e Hwalk Hf Hwrite.
    destruct (writeFileSync f _ false _) as [d1 r1] eqn:Hfirst.
    cbn [snd] in Hwrite. subst r1.
    assert (Hscan : writeFileContent options rootListing disk0 = (d1, Err e)).
    { rewrite writeFileContent_unfold. cbn zeta. rewrite Hwalk.
      unfold writePaths. by rewrite Hf, Hfirst. }
    rewrite Hscan. cbn [fst snd]. split; [done|]. intros file Hout Hfile.
    pose proof (writeFileSync_other f
      (JS.joinWith LF
         (includedPaths (user (contentWalk options rootListing disk0).1)))
      false (disk (user (contentWalk options rootListing disk0).1)) file Hfile)
      as Hother.
    rewrite Hfirst in Hother. cbn [fst] in Hother. rewrite Hother.
    by apply contentWalk_other_files.
  - intros f g e between Hwalk Hf Hg Hfirst Hsecond.
    destruct (writeFileSync g _ false between) as [d2 r2] eqn:Hlast.
    cbn [snd] in Hsecond. subst r2.
    assert (Hscan : writeFileContent options rootListing disk0 = (d2, Err e)).
    { rewrite writeFileContent_unfold. cbn zeta. rewrite Hwalk.
      unfold writePaths. by rewrite Hf, Hg, Hfirst, Hlast. }
    rewrite Hscan. cbn [fst snd]. split; [done|]. intros Hne.
    pose proof (writeFileSync_other g
      (JS.joinWith LF
         (excludedPaths (user (contentWalk options rootListing disk0).1)))
      false between (fileOf f) Hne) as Hother.
    rewrite Hlast in Hother. cbn [fst] in Hother. rewrite Hother.
    apply writeFileSync_Ok in Hfirst. rewrite Hfirst. apply lookup_insert_eq.
Qed.

End PathsFiles.

Lemma writeFileContent_paths_files_witness :
  let options :=
    {| dir := Some "root"; output := Some "out.md"; ignore := None;
       includedPathsFile := Some "in.txt"; excludedPathsFile := Some "ex.txt";
       header := None; maxFileSize := Some (Num 1000);
       alwaysIncludeExtensions := None; fileTemplate := None;
       sort := None; sortDirection := None |} in
  let aliased :=
    {| dir := Some "root"; output := Some "out.md"; ignore := None;
       includedPathsFile := Some "paths.txt";
       excludedPathsFile := Some "./paths.txt";
       header := None; maxFileSize := Some (Num 1000);
       alwaysIncludeExtensions := None; fileTemplate := None;
       sort := None; sortDirection := None |} in
  (contents (@writeFileContent Scenario.host options Scenario.listing ∅).1
     !! "ex.txt" = Some "big.bin"
   ∧ contents (@writeFileContent Scenario.host options Scenario.listing ∅).1
       !! "in.txt" = Some ("zdir/inner.ts" +:+ LF +:+ "small.ts"))
  ∧ contents (@writeFileContent Scenario.host aliased Scenario.listing ∅).1
      !! "paths.txt" = Some "big.bin".
Proof.
  intros options aliased. split.
  - destruct (@writeFileContent_paths_files Scenario.host options
                Scenario.listing ∅
                (@writeFileContent Scenario.host options Scenario.listing ∅).1
                ["zdir/inner.ts"; "small.ts"] ["big.bin"])
      as (Hexc & Hinc & _).
    + rewrite (surjective_pairing (writeFileContent _ _ _)) at 1. f_equal.
    + split; [by apply (Hexc "ex.txt")|]. apply (Hinc "in.txt"); [done|].
      by intros g [= <-].
  - destruct (@writeFileContent_paths_files Scenario.host aliased
                Scenario.listing ∅
                (@writeFileContent Scenario.host aliased Scenario.listing ∅).1
                ["zdir/inner.ts"; "small.ts"] ["big.bin"])
      as (_ & _ & Hsame & _).
    + rewrite (surjective_pairing (writeFileContent _ _ _)) at 1. f_equal.
    + by apply (Hsame "paths.txt" "./paths.txt").
Defined.

Lemma writeFileContent_touches_its_files_only_witness :
  let kept := mkDisk {["notes.txt" := "kept"]} [] in
  let options :=
    {| dir := Some "root"; output := Some "out.md"; ignore := None;
       includedPathsFile := Some "in.txt";
       excludedPathsFile := Some "lists/ex.txt";
       header := None; maxFileSize := Some (Num 1000);
       alwaysIncludeExtensions := None; fileTemplate := None;
       sort := None; sortDirection := None |} in
  (contents (@writeFileContent Scenario.host Scenario.options
               Scenario.unreadable kept).1 !! "notes.txt" = Some "kept"
   ∧ contents (@writeFileContent Scenario.host Scenario.options
                 Scenario.listing kept).1 !! "notes.txt" = Some "kept")
  ∧ (@writeFileContent Scenario.host options Scenario.listing kept).2
    = Err "ENOENT"
  ∧ contents (@writeFileContent Scenario.host options Scenario.listing kept).1
      !! "in.txt" = Some ("zdir/inner.ts" +:+ LF +:+ "small.ts").
Proof.
  intros kept options. split; [split|].
  - destruct (@writeFileContent_touches_its_files_only Scenario.host
                Scenario.options Scenario.unreadable kept)
      as (_ & Hfails & _).
    destruct (Hfails "EACCES" eq_refl) as [_ Hkept].
    by rewrite (Hkept "notes.txt").
  - destruct (@writeFileContent_touches_its_files_only Scenario.host
                Scenario.options Scenario.listing kept)
      as (Hkept & _).
    by rewrite (Hkept "notes.txt").
  - destruct (@writeFileContent_touches_its_files_only Scenario.host
                options Scenario.listing kept)
      as (_ & _ & _ & Hsecond).
    edestruct (Hsecond "in.txt" "lists/ex.txt" "ENOENT") as [Hthrows Hfirst];
      [reflexivity|reflexivity|reflexivity|apply surjective_pairing
      |reflexivity|].
    split; [exact Hthrows|]. apply Hfirst. discriminate.
Defined.

(** ** The whole run *)

Section WholeRun.
Context `{Host}.

(** The traversal of the tree view, when it completes. *)
Lemma walkDir_treeLine (listing : result (list Dirent))
    (dirPath rootDir : string) (ignorePatterns : list string)
    (options : CodeAtlasConfig) (output old : string) (disk : Disk)
    (w : World Disk) :
  contents disk !! fileOf output = Some old →
  walkDir listing dirPath rootDir ignorePatterns
    (treeLine output EmptyString) (Some (treeLine output "/")) 0 options
    (mkWorld ∅ disk) = (w, Ok ()) →
  let script := scriptFuel (S (listingDepth listing)) listing dirPath rootDir
                  ignorePatterns 0 options in
  script.2 = Ok ()
  ∧ contents (user w)
    = <[fileOf output := old +:+ treeText (snapshots ∅ script.1).1]>
        (contents disk).
Proof.
  intros Hold. unfold walkDir. rewrite walkDirFuel_script. unfold runScript.
  rewrite bind_unfold.
  destruct (runActions _ _ _ _) as [w1 [[]|e]] eqn:Hrun; [|discriminate].
  apply (runActions_treeLine _ _ _ _ old) in Hrun as [_ Hcontents]; [|done].
  unfold await. intros Heq.
  pose proof (f_equal snd Heq) as Hok. apply (f_equal fst) in Heq.
  cbn [fst snd] in Heq, Hok. by subst w.
Qed.

(** The keys of the options that [main] hands to the content pass. *)
Lemma declared_mainOptions (c : Config.RawConfig) (dir0 output0 : string)
    (ignore0 : list string) :
  let options := Config.mainOptions c in
  Config.read (Config.dir options) = Some dir0 →
  Config.read (Config.output options) = Some output0 →
  Config.read (Config.ignore options) = Some ignore0 →
  default "." (dir (declared options)) = dir0
  ∧ default "codebase.md" (output (declared options)) = output0
  ∧ default [] (ignore (declared options)) = ignore0.
Proof.
  cbn zeta. unfold declared. cbn [dir output ignore].
  by intros -> -> ->.
Qed.

(** X17.  When [main] ends with exit code 0, the options name a directory, an
    output and patterns, and, unless a paths file is the output file under
    this or another name, the output file holds, in this order: the header
    (the configured one, or the default one when none or an empty one is
    configured), the opening of the tree view, the drawing of the tree
    sorted by name whatever sorting is configured, the opening of the
    content section, and the text emitted for the files that the traversal
    of the content pass visits and the size policy does not leave out, in
    the order in which the configured sorting visits them. *)
Theorem main_output_layout (c : Config.RawConfig)
    (rootListing : result (list Dirent)) (disk0 disk3 : Disk) :
  let options := Config.mainOptions c in
  let header :=
    default ("# Code Atlas Documentation" +:+ LF +:+ LF +:+
             "Generated with Code Atlas" +:+ LF +:+ LF)
      (truthy (Config.read (Config.header options))) in
  main (Ok c) rootListing disk0 = (disk3, 0%Z) →
  ∃ dir output ignore wT,
    Config.read (Config.dir options) = Some dir
    ∧ Config.read (Config.output options) = Some output
    ∧ Config.read (Config.ignore options) = Some ignore
    ∧ contentTraversal (declared options) rootListing = (wT, Ok ())
    ∧ ((∀ f, truthy (Config.read (Config.includedPathsFile options)) = Some f →
          fileOf output ≠ fileOf f) →
       (∀ f, truthy (Config.read (Config.excludedPathsFile options)) = Some f →
          fileOf output ≠ fileOf f) →
       default EmptyString (contents disk3 !! fileOf output)
       = (header +:+ "## Tree View:" +:+ LF +:+ "```" +:+ LF)
         +:+ drawTree rootListing dir dir ignore emptyConfig
         +:+ ("```" +:+ LF +:+ LF +:+ "## Content:" +:+ LF)
         +:+ emittedAll (Config.read (Config.maxFileSize options))
               (default [] (Config.read (Config.alwaysIncludeExtensions options)))
               (Config.read (Config.fileTemplate options)) (visitedFiles wT)).
Proof.
  intros options header0. unfold main. fold options. fold header0.
  destruct (Config.validateConfig options) as [[]|e]; [|discriminate].
  destruct (Config.read (Config.ignore options)) as [ignore0|] eqn:Hignore;
    [|discriminate].
  destruct (Config.read (Config.output options)) as [output0|] eqn:Houtput;
    [|discriminate].
  destruct (writeFileSync output0 _ false disk0) as [disk1 [[]|e]] eqn:Hheader;
    [|discriminate].
  destruct (Config.read (Config.dir options)) as [dir0|] eqn:Hdir;
    [|discriminate].
  destruct (walkDir rootListing dir0 dir0 ignore0 _ _ 0 emptyConfig _)
    as [w [[]|e]] eqn:Htree; [|discriminate].
  destruct (appendToFile output0 _ (user w)) as [disk2 [[]|e]] eqn:Hcontent;
    [|discriminate].
  destruct (writeFileContent (declared options) rootListing disk2)
    as [disk4 [[inc exc]|e]] eqn:Hscan; [|discriminate].
  intros [= ->].
  destruct (declared_mainOptions c dir0 output0 ignore0 Hdir Houtput Hignore)
    as (Hdir' & Houtput' & Hignore'). fold options in Hdir', Houtput', Hignore'.
  apply writeFileSync_Ok in Hheader. cbn [append] in Hheader.
  apply (walkDir_treeLine _ _ _ _ _ _
           (header0 +:+ "## Tree View:" +:+ LF +:+ "```" +:+ LF)) in Htree
    as [Hok Htree]; [|rewrite Hheader; apply lookup_insert_eq].
  apply appendToFile_Ok in Hcontent.
  rewrite Htree, lookup_insert_eq in Hcontent.
  cbn [default from_option] in Hcontent. unfold id in Hcontent.
  pose proof (writeFileContent_keeps (declared options) rootListing disk2
                (fileOf output0)) as Hkeep.
  rewrite Hscan in Hkeep. cbn [fst] in Hkeep.
  destruct (writeFileContent_scan _ _ _ _ _ _ Hscan)
    as (wT & w' & HwT & Hw' & _ & _ & Hout).
  rewrite Houtput' in Hout. rewrite Hw' in Hkeep. cbn [fst] in Hkeep.
  exists dir0, output0, ignore0, wT. do 4 (split; [done|]).
  intros Hinc Hexc. rewrite Hkeep by done. rewrite Hout.
  rewrite Hcontent, lookup_insert_eq. cbn [default from_option]. unfold id.
  rewrite (scriptFuel_draw _ _ _ _ _ _ _ _ Hok).
  by rewrite !string_app_assoc.
Qed.

Lemma contentOnFile_succeeds output maxFileSize exts fileTemplate filePath
    relPath depth isLast (w : World ContentState) :
  appendable output →
  (∃ content, readFile filePath = Ok content) →
  (maxFileSize = None ∨ ∃ fileStat, stat filePath = Ok fileStat) →
  (contentOnFile output maxFileSize exts fileTemplate filePath relPath depth
     isLast w).2 = Ok ().
Proof.
  intros Happend [content Hread] Hstat. unfold contentOnFile.
  set (emit := (modifyUser (pushIncluded relPath);; _) : M ContentState unit).
  assert (Hstep : ∀ data w0, (stepUser (appendOutput output data) w0).2 = Ok ()).
  { intros data w0. unfold stepUser, appendOutput. cbn [snd]. apply Happend. }
  assert (Hemit : ∀ w0, (emit w0).2 = Ok ()).
  { intros w0. unfold emit. rewrite bind_unfold. unfold modifyUser.
    cbn beta iota. rewrite bind_unfold. unfold await. cbn beta iota.
    rewrite Hread.
    destruct (truthy fileTemplate) as [t|]; [apply Hstep|].
    rewrite bind_unfold.
    pose proof (Hstep ("## " +:+ relPath +:+ LF)
      (mkWorld (depthOpen w0) (pushIncluded relPath (user w0)))) as Hfirst.
    destruct (stepUser (appendOutput output ("## " +:+ relPath +:+ LF)) _)
      as [w1 [[]|e]]; [apply Hstep|done]. }
  destruct maxFileSize as [m|]; [|apply Hemit].
  destruct Hstat as [[=]|[fileStat Hstat]].
  rewrite bind_unfold. unfold await at 1. rewrite Hstat.
  destruct (_ && _); [done|apply Hemit].
Qed.

Lemma runActions_content_succeeds output maxFileSize exts fileTemplate acts
    (w : World ContentState) :
  appendable output →
  (∀ f, f ∈ fileCalls acts →
     (∃ content, readFile f.1 = Ok content)
     ∧ (maxFileSize = None ∨ ∃ fileStat, stat f.1 = Ok fileStat)) →
  (runActions (contentOnFile output maxFileSize exts fileTemplate) None acts
     w).2 = Ok ().
Proof.
  intros Happend. revert w.
  induction acts as [|a acts IH]; intros w Hfiles; [done|].
  simpl. rewrite bind_unfold.
  destruct a as [[] p r d l|d b].
  - pose proof (contentOnFile_succeeds output maxFileSize exts fileTemplate
                  p r d l w Happend) as Ha.
    destruct (Hfiles (p, r)) as [Hread Hstat]; [apply list_elem_of_here|].
    specialize (Ha Hread Hstat). simpl.
    destruct (contentOnFile _ _ _ _ p r d l w) as [w1 [[]|e]]; [|done].
    apply IH. intros f Hf. apply Hfiles. simpl. by apply list_elem_of_further.
  - simpl. apply IH. intros f Hf. by apply Hfiles.
  - simpl. apply IH. intros f Hf. by apply Hfiles.
Qed.

Lemma writePaths_succeeds pathsFile paths d :
  (∀ f, truthy pathsFile = Some f → writable f) →
  (writePaths pathsFile paths d).2 = Ok ().
Proof.
  intros Hwritable. unfold writePaths.
  destruct (truthy pathsFile) as [f|]; [|done]. by apply Hwritable.
Qed.

(** X18.  [main] ends with exit code 0 whenever the configuration is loaded and
    accepted by [validateConfig], the options name a directory, an output
    and patterns (none of the three keys holds [undefined]), no write to the
    output file or to a configured paths file throws, the traversal of the
    content pass completes, and every file it visits can be read and, when
    a maximum size is configured, examined with [stat]. *)
Theorem main_succeeds (c : Config.RawConfig) (rootListing : result (list Dirent))
    (disk0 : Disk) (wT : World (list Visit)) (dir output : string)
    (ignore : list string) :
  let options := Config.mainOptions c in
  Config.validateConfig options = Ok () →
  Config.read (Config.dir options) = Some dir →
  Config.read (Config.output options) = Some output →
  Config.read (Config.ignore options) = Some ignore →
  writable output → appendable output →
  (∀ f, truthy (Config.read (Config.includedPathsFile options)) = Some f →
     writable f) →
  (∀ f, truthy (Config.read (Config.excludedPathsFile options)) = Some f →
     writable f) →
  contentTraversal (declared options) rootListing = (wT, Ok ()) →
  (∀ f, f ∈ visitedFiles wT →
     (∃ content, readFile f.1 = Ok content)
     ∧ (Config.read (Config.maxFileSize options) = None
        ∨ ∃ fileStat, stat f.1 = Ok fileStat)) →
  (main (Ok c) rootListing disk0).2 = 0%Z.
Proof.
  intros options Hvalid Hdir Houtput Hignore Hwrite Happend Hinc Hexc
    Htraced Hfiles.
  destruct (declared_mainOptions c dir output ignore Hdir Houtput Hignore)
    as (Hdir' & Houtput' & Hignore'). fold options in Hdir', Houtput', Hignore'.
  unfold main. fold options. rewrite Hvalid, Hignore, Houtput.
  pose proof (Hwrite
    (default ("# Code Atlas Documentation" +:+ LF +:+ LF +:+
              "Generated with Code Atlas" +:+ LF +:+ LF)
       (truthy (Config.read (Config.header options)))
     +:+ "## Tree View:" +:+ LF +:+ "```" +:+ LF) disk0) as Hheader.
  destruct (writeFileSync output _ false disk0) as [disk1 [[]|e]];
    [|discriminate]. clear Hheader.
  rewrite Hdir.
  unfold contentTraversal in Htraced.
  rewrite Hdir', Hignore' in Htraced.
  rewrite traced_script in Htraced. cbn zeta in Htraced.
  pose proof (f_equal snd Htraced) as Hok. apply (f_equal fst) in Htraced.
  cbn [fst snd] in Htraced, Hok. subst wT.
  unfold visitedFiles in Hfiles. cbn [user] in Hfiles.
  rewrite snapshots_fileCalls in Hfiles.
  (* the tree pass *)
  destruct (scripts_same_entries _ _ _ _ _ _ _ Hok) as [Hok0 _].
  assert (HokT : (scriptFuel (S (listingDepth rootListing)) rootListing dir
                    dir ignore 0 emptyConfig).2 = Ok ()).
  { apply scripts_complete_together; [by left|done]. }
  unfold walkDir at 1. rewrite walkDirFuel_script. unfold runScript at 1.
  rewrite bind_unfold.
  pose proof (runActions_treeLine_total output
    (scriptFuel (S (listingDepth rootListing)) rootListing dir dir ignore 0
       emptyConfig).1 (mkWorld ∅ disk1) Happend) as Htree.
  destruct (runActions _ _ _ _) as [w1 [[]|e]]; [|discriminate]. clear Htree.
  unfold await at 1. rewrite HokT.
  pose proof (Happend ("```" +:+ LF +:+ LF +:+ "## Content:" +:+ LF) (user w1))
    as Hcontent.
  destruct (appendToFile output _ (user w1)) as [disk2 [[]|e]]; [|discriminate].
  clear Hcontent.
  (* the content pass *)
  rewrite writeFileContent_unfold. cbn zeta.
  assert (Hwalk : (contentWalk (declared options) rootListing disk2).2 = Ok ()).
  { unfold contentWalk, walkDir. rewrite walkDirFuel_script. unfold runScript.
    rewrite bind_unfold. rewrite Hdir', Houtput', Hignore'.
    match goal with
    | |- context [runActions ?f None ?acts ?w] =>
        pose proof (runActions_content_succeeds output
          (maxFileSize (declared options))
          (default [] (alwaysIncludeExtensions (declared options)))
          (fileTemplate (declared options)) acts w Happend Hfiles) as Hrun;
        destruct (runActions f None acts w) as [w2 [[]|e]]; [|done]
    end.
    unfold await. cbn [snd]. exact Hok. }
  rewrite Hwalk.
  match goal with
  | |- context [writePaths (includedPathsFile (declared options)) ?paths ?d] =>
      pose proof (writePaths_succeeds (includedPathsFile (declared options))
                    paths d Hinc) as H1;
      destruct (writePaths (includedPathsFile (declared options)) paths d)
        as [d1 [[]|e1]]; [|discriminate]
  end.
  match goal with
  | |- context [writePaths (excludedPathsFile (declared options)) ?paths ?d] =>
      pose proof (writePaths_succeeds (excludedPathsFile (declared options))
                    paths d Hexc) as H2;
      destruct (writePaths (excludedPathsFile (declared options)) paths d)
        as [d2 [[]|e2]]; [|discriminate]
  end.
  reflexivity.
Qed.

End WholeRun.

Section Failures.
Context `{Host}.

(** X19.  How a run that fails leaves the disk.  When the configuration cannot be
    loaded, [validateConfig] rejects the options, or the options hold
    [undefined] for [ignore] (as they do once [package.json] has a section
    and no patterns are given anywhere) or for [output], [main] ends with
    exit code 1 and has written nothing.  Otherwise it first replaces the
    output file by the header and the opening of the tree view.  When that
    write throws, it ends with exit code 1 and no other file is changed.
    When the write succeeds and the root of the scan cannot be listed, or
    [dir] holds [undefined], it ends with exit code 1 and leaves the output
    file with that text: what the file held before is lost. *)
Theorem main_failure_states (c : Config.RawConfig) (e e' : error)
    (rootListing : result (list Dirent)) (disk0 : Disk) :
  let options := Config.mainOptions c in
  let opening :=
    default ("# Code Atlas Documentation" +:+ LF +:+ LF +:+
             "Generated with Code Atlas" +:+ LF +:+ LF)
      (truthy (Config.read (Config.header options)))
    +:+ "## Tree View:" +:+ LF +:+ "```" +:+ LF in
  main (Err e') rootListing disk0 = (disk0, 1%Z)
  ∧ (Config.validateConfig options = Err e
     ∨ Config.read (Config.ignore options) = None
     ∨ Config.read (Config.output options) = None →
     main (Ok c) rootListing disk0 = (disk0, 1%Z))
  ∧ (∀ output ignore,
       Config.validateConfig options = Ok () →
       Config.read (Config.ignore options) = Some ignore →
       Config.read (Config.output options) = Some output →
       ((writeFileSync output opening false disk0).2 = Err e →
        (main (Ok c) rootListing disk0).2 = 1%Z
        ∧ ∀ file, file ≠ fileOf output →
            contents (main (Ok c) rootListing disk0).1 !! file
            = contents disk0 !! file)
       ∧ ((writeFileSync output opening false disk0).2 = Ok () →
          rootListing = Err e ∨ Config.read (Config.dir options) = None →
          (main (Ok c) rootListing disk0).2 = 1%Z
          ∧ contents (main (Ok c) rootListing disk0).1
            = <[fileOf output := opening]> (contents disk0))).
Proof.
  intros options opening.
  split; [reflexivity|]. split.
  - unfold main. fold options. intros [Hvalid|[Hignore|Houtput]].
    + by rewrite Hvalid.
    + rewrite Hignore. by destruct (Config.validateConfig options).
    + rewrite Houtput.
      by destruct (Config.validateConfig options),
                  (Config.read (Config.ignore options)).
  - intros output ignore Hvalid Hignore Houtput.
    destruct (writeFileSync output opening false disk0) as [disk1 r1]
      eqn:Hheader.
    pose proof (λ file, writeFileSync_other output opening false disk0 file)
      as Hother.
    rewrite Hheader in Hother. cbn [fst snd] in Hother |- *.
    split.
    + intros ->.
      assert (Hmain : main (Ok c) rootListing disk0 = (disk1, 1%Z)).
      { unfold main. fold options. rewrite Hvalid, Hignore, Houtput.
        fold opening. by rewrite Hheader. }
      rewrite Hmain. by split.
    + intros -> Hcase.
      assert (Hmain : main (Ok c) rootListing disk0 = (disk1, 1%Z)).
      { unfold main. fold options. rewrite Hvalid, Hignore, Houtput.
        fold opening. rewrite Hheader.
        destruct (Config.read (Config.dir options)) as [dir|]; [|done].
        by destruct Hcase as [->|[=]]. }
      rewrite Hmain. split; [done|]. cbn [fst].
      apply writeFileSync_Ok in Hheader. by rewrite Hheader.
Qed.

End Failures.

Lemma main_output_layout_witness :
  ∃ wT,
    @contentTraversal Scenario.host
      (declared (Config.mainOptions (asObject Scenario.options)))
      Scenario.listing = (wT, Ok ())
    ∧ default EmptyString
        (contents (@main Scenario.host (Ok (asObject Scenario.options))
                     Scenario.listing ∅).1 !! "out.md")
      = (("# Code Atlas Documentation" +:+ LF +:+ LF +:+
          "Generated with Code Atlas" +:+ LF +:+ LF)
         +:+ "## Tree View:" +:+ LF +:+ "```" +:+ LF)
        +:+ @drawTree Scenario.host Scenario.listing "root" "root" ["\.git.*"]
              emptyConfig
        +:+ ("```" +:+ LF +:+ LF +:+ "## Content:" +:+ LF)
        +:+ @emittedAll Scenario.host (Some (Num 1000)) [] None
              (visitedFiles wT).
Proof.
  destruct (@main_output_layout Scenario.host (asObject Scenario.options)
              Scenario.listing ∅
              (@main Scenario.host (Ok (asObject Scenario.options))
                 Scenario.listing ∅).1)
    as (dir & output & ignore & wT & [= <-] & [= <-] & [= <-] & HwT & Hout).
  - apply surjective_pairing.
  - exists wT. split; [exact HwT|]. apply Hout; discriminate.
Defined.

Lemma main_succeeds_witness :
  (@main Scenario.host (Ok (asObject Scenario.options)) Scenario.listing ∅).2
  = 0%Z.
Proof.
  apply (@main_succeeds Scenario.host (asObject Scenario.options)
           Scenario.listing ∅
           (@contentTraversal Scenario.host
              (declared (Config.mainOptions (asObject Scenario.options)))
              Scenario.listing).1 "root" "out.md" ["\.git.*"]).
  - reflexivity.
  - reflexivity.
  - reflexivity.
  - reflexivity.
  - intros data disk. reflexivity.
  - intros data disk. reflexivity.
  - discriminate.
  - discriminate.
  - apply surjective_pairing.
  - intros f Hf. vm_compute in Hf.
    repeat (apply elem_of_cons in Hf as [->|Hf]);
      [split; [by eexists|right; by eexists]..|].
    by apply elem_of_nil in Hf.
Defined.

Lemma main_failure_states_witness :
  let merged := Config.mergeConfigs Config.emptyRaw (asObject Scenario.options) in
  let elsewhere :=
    {| dir := Some "root"; output := Some "docs/out.md"; ignore := None;
       includedPathsFile := None; excludedPathsFile := None; header := None;
       maxFileSize := None; alwaysIncludeExtensions := None;
       fileTemplate := None; sort := None; sortDirection := None |} in
  @main Scenario.host (Ok merged) Scenario.listing ∅ = (∅, 1%Z)
  ∧ (@main Scenario.host (Ok (asObject elsewhere)) Scenario.listing ∅).2 = 1%Z
  ∧ (@main Scenario.host (Ok (asObject Scenario.options)) (Err "ENOENT") ∅).2
    = 1%Z.
Proof.
  intros merged elsewhere.
  destruct (@main_failure_states Scenario.host merged "ENOENT" "none"
              Scenario.listing ∅) as (_ & Hbefore & _).
  destruct (@main_failure_states Scenario.host (asObject elsewhere) "ENOENT"
              "none" Scenario.listing ∅) as (_ & _ & Hwrite).
  destruct (@main_failure_states Scenario.host (asObject Scenario.options)
              "ENOENT" "none" (Err "ENOENT") ∅) as (_ & _ & Hlisting).
  split; [apply Hbefore; right; left; reflexivity|]. split.
  - destruct (Hwrite "docs/out.md" ["\.git.*"] eq_refl eq_refl eq_refl)
      as [Hthrows _].
    exact (proj1 (Hthrows eq_refl)).
  - destruct (Hlisting "out.md" ["\.git.*"] eq_refl eq_refl eq_refl)
      as [_ Hfails].
    exact (proj1 (Hfails eq_refl (or_introl eq_refl))).
Defined.

(** ** What the sort returns *)

Lemma promiseAll_all_Ok {A B} (f : A → result B) (xs : list A) :
  (∃ ys, promiseAll f xs = Ok ys) ↔ ∀ x, x ∈ xs → ∃ y, f x = Ok y.
Proof.
  induction xs as [|x xs IH]; simpl.
  - split; [|by eexists]. intros _ x Hx. by apply elem_of_nil in Hx.
  - split.
    + intros [ys (y & Hy & (ys' & Hys & _)%result_bind_Ok)%result_bind_Ok].
      intros x' [->|Hx']%elem_of_cons; [by eexists|].
      apply IH; [by eexists|done].
    + intros Hall. destruct (Hall x) as [y Hy]; [apply list_elem_of_here|].
      destruct (proj2 IH) as [ys Hys].
      { intros x' Hx'. apply Hall. by apply list_elem_of_further. }
      exists (y :: ys). by rewrite Hy, Hys.
Qed.

Section SortOutcome.
Context `{Host}.

(** X7.  The sort never drops, repeats or adds an entry: what it returns is a
    rearrangement of what it was given.  By name and by type it always
    returns; by size and by modification time it returns exactly when
    [stat] succeeds for every entry of the listing, directories included,
    and otherwise the whole listing fails. *)
Theorem sortEntries_outcome (entries : list Dirent) (dirPath : string)
    (sort : option SortMethod) (sortDirection : option SortDirection) :
  (∀ out, sortEntries entries dirPath sort sortDirection = Ok out →
     out ≡ₚ entries ∧ length out = length entries)
  ∧ (default SortName sort = SortName ∨ default SortName sort = SortType →
     ∃ out, sortEntries entries dirPath sort sortDirection = Ok out)
  ∧ (default SortName sort = SortSize ∨ default SortName sort = SortModified →
     ((∃ out, sortEntries entries dirPath sort sortDirection = Ok out)
      ↔ ∀ entry, entry ∈ entries →
          ∃ stats, stat (join dirPath (name entry)) = Ok stats)).
Proof.
  split; [|split].
  - intros out Hsort%sortEntries_perm. split; [done|]. by rewrite Hsort.
  - intros Hmethod. unfold sortEntries. cbn zeta.
    destruct Hmethod as [->| ->]; by eexists.
  - intros Hmethod. unfold sortEntries. cbn zeta.
    assert (bool_decide (default SortName sort = SortSize)
            || bool_decide (default SortName sort = SortModified) = true)
      as ->.
    { destruct Hmethod as [->| ->]; done. }
    split.
    + intros [out (pairs & Hpairs & _)%result_bind_Ok] entry Hentry.
      destruct (proj1 (promiseAll_all_Ok _ _) (ex_intro _ pairs Hpairs)
                  entry Hentry) as [y Hy].
      apply result_bind_Ok in Hy as (stats & Hstats & _). by eexists.
    + intros Hall.
      assert (∃ pairs, promiseAll (λ entry,
                stats ← stat (join dirPath (name entry)); Ok (entry, stats))
                entries = Ok pairs) as [pairs Hpairs].
      { apply promiseAll_all_Ok. intros entry Hentry.
        destruct (Hall entry Hentry) as [stats Hstats].
        rewrite Hstats. by eexists. }
      rewrite Hpairs. by eexists.
Qed.

End SortOutcome.

(** ** The order of [readdir] and the order of the sort *)

Lemma sorted_rearrangement_unique {A} (R : A → A → Prop) (l1 l2 : list A) :
  StronglySorted R l1 → StronglySorted R l2 → l1 ≡ₚ l2 →
  (∀ a b, a ∈ l1 → b ∈ l1 → R a b → R b a → a = b) →
  l1 = l2.
Proof.
  intros Hs1. revert l2.
  induction Hs1 as [|x l1 Hs1 IH Hx]; intros l2 Hs2 Hperm Hanti.
  - by apply Permutation_nil_l in Hperm.
  - destruct Hs2 as [|y l2 Hs2 Hy].
    { by apply Permutation_nil_r in Hperm. }
    assert (x = y) as <-.
    { assert (Hxin : x ∈ y :: l2) by (rewrite <- Hperm; apply list_elem_of_here).
      assert (Hyin : y ∈ x :: l1) by (rewrite Hperm; apply list_elem_of_here).
      apply elem_of_cons in Hxin as [Heq|Hxin]; [done|].
      apply elem_of_cons in Hyin as [Heq|Hyin]; [done|].
      rewrite Forall_forall in Hx, Hy.
      apply Hanti; [apply list_elem_of_here|by apply list_elem_of_further|
                    by apply Hx|by apply Hy]. }
    f_equal. apply IH; [done|by eapply Permutation_cons_inv|].
    intros a b Ha Hb. apply Hanti; by apply list_elem_of_further.
Qed.

Section ReaddirOrder.
Context `{Host}.

Lemma compareByName_antisym method multiplier (a b : Dirent) :
  (∀ a b, (localeCompare a b < 0 ↔ 0 < localeCompare b a)%Z) →
  (∀ a b, localeCompare a b = 0%Z → a = b) →
  multiplier = 1%Z ∨ multiplier = (-1)%Z →
  (compareByName method multiplier a b ≤ 0)%Z →
  (compareByName method multiplier b a ≤ 0)%Z →
  name a = name b.
Proof.
  intros Hflip Hzero Hm. unfold compareByName, directoriesFirst.
  pose proof (Hflip (name a) (name b)). pose proof (Hflip (name b) (name a)).
  pose proof (Hflip (toLowerCase (Path.extname (name a)))
                (toLowerCase (Path.extname (name b)))).
  pose proof (Hflip (toLowerCase (Path.extname (name b)))
                (toLowerCase (Path.extname (name a)))).
  pose proof (Hzero (name a) (name b)).
  pose proof (Hzero (toLowerCase (Path.extname (name a)))
                (toLowerCase (Path.extname (name b)))).
  destruct Hm; subst multiplier;
    destruct (isDirectory a), (isDirectory b); simpl; try lia;
    destruct (bool_decide (method = SortType)); simpl;
    repeat case_bool_decide; simpl; intros; try lia; try congruence;
    try (match goal with H : _ = 0%Z → name a = name b |- _ => apply H; lia end);
    exfalso;
    match goal with Hne : ?x ≠ ?y, Hz : _ = 0%Z → ?x = ?y |- _ =>
      apply Hne, Hz; lia
    end.
Qed.

(** X8.  Sorted by name or by type, a listing whose names are all different comes
    out in one order, whatever order [readdir] returned it in, provided
    [localeCompare] is a strict total order. *)
Theorem sortEntries_readdir_order_irrelevant
    (Hflip : ∀ a b, (localeCompare a b < 0 ↔ 0 < localeCompare b a)%Z)
    (Htrans : ∀ a b c, (localeCompare a b ≤ 0 → localeCompare b c ≤ 0 →
                        localeCompare a c ≤ 0)%Z)
    (Hzero : ∀ a b, localeCompare a b = 0%Z → a = b)
    (entries entries' : list Dirent) (dirPath : string)
    (sort : option SortMethod) (sortDirection : option SortDirection) :
  default SortName sort = SortName ∨ default SortName sort = SortType →
  NoDup (name <$> entries) →
  entries ≡ₚ entries' →
  sortEntries entries dirPath sort sortDirection
  = sortEntries entries' dirPath sort sortDirection.
Proof.
  intros Hmethod Hnames Hperm. unfold sortEntries. cbn zeta.
  assert (bool_decide (default SortName sort = SortSize)
          || bool_decide (default SortName sort = SortModified) = false) as ->.
  { destruct Hmethod as [->| ->]; done. }
  f_equal.
  fold (multiplierOf sortDirection).
  pose proof (multiplierOf_cases sortDirection) as Hm.
  set (cmp := compareByName (default SortName sort) (multiplierOf sortDirection)).
  assert (Hcons : consistent cmp)
    by (by apply compareByName_consistent).
  apply (sorted_rearrangement_unique (λ a b, (cmp a b ≤ 0)%Z));
    [by apply arraySort_sorted..| |].
  - by rewrite !arraySort_perm.
  - intros a b Ha Hb Hab Hba. rewrite arraySort_perm in Ha, Hb.
    pose proof (compareByName_antisym _ _ a b Hflip Hzero Hm Hab Hba) as Hname.
    apply list_elem_of_lookup in Ha as [i Hi].
    apply list_elem_of_lookup in Hb as [j Hj].
    assert (i = j) as ->.
    { eapply (NoDup_lookup (name <$> entries)); [done|..].
      - by rewrite list_lookup_fmap, Hi.
      - by rewrite list_lookup_fmap, Hj, Hname. }
    congruence.
Qed.

End ReaddirOrder.

Lemma sortEntries_readdir_order_irrelevant_witness :
  @sortEntries (Example.host [])
    [FileEntry "b.ts"; DirEntry "lib" (Ok []); FileEntry "a.ts"] "root"
    None None
  = @sortEntries (Example.host [])
      [FileEntry "a.ts"; FileEntry "b.ts"; DirEntry "lib" (Ok [])] "root"
      None None.
Proof.
  apply (@sortEntries_readdir_order_irrelevant (Example.host [])
           ExampleFacts.byteOrder_flip ExampleFacts.byteOrder_trans
           ExampleFacts.byteOrder_zero).
  - by left.
  - apply (bool_decide_unpack _). by vm_compute.
  - apply Permutation_sym.
    apply (Permutation_cons_append [FileEntry "b.ts"; DirEntry "lib" (Ok [])]).
Defined.

(** ** Templates *)

Lemma replaceScan_no_brace (pat replacement before s : string) :
  occurs "{" s = false →
  JS.replaceScan (String "{" pat) replacement before 0 s = s.
Proof.
  revert before. induction s as [|c s IH]; intros before; [done|].
  simpl occurs. intros [Hc Hs]%orb_false_elim.
  apply bool_decide_eq_false in Hc. cbn [JS.replaceScan JS.isPrefix].
  destruct (decide ("{"%char = c)) as [Heq|_]; [by rewrite Heq in Hc|].
  by rewrite IH.
Qed.

Lemma replaceScan_plain (pat replacement before : string) (skip : nat)
    (s : string) :
  occurs "$" replacement = false →
  JS.replaceScan pat replacement before skip s
  = replacePlainScan pat replacement skip s.
Proof.
  intros Hplain. revert before skip.
  induction s as [|c s IH]; intros before skip; [done|].
  cbn [JS.replaceScan replacePlainScan].
  destruct skip as [|k]; [|apply IH].
  destruct (JS.isPrefix pat (String c s)).
  - by rewrite getSubstitution_without_dollar, IH.
  - by rewrite IH.
Qed.

Section Templates.
Context `{Host}.

(** X15.  A template that holds no opening brace holds no placeholder: it is
    emitted as it is for every file, whatever the path, the extension and
    the content of the file are. *)
Theorem formatWithTemplate_without_placeholder
    (fileTemplate relPath extension content : string) :
  occurs "{" fileTemplate = false →
  formatWithTemplate fileTemplate relPath extension content = fileTemplate.
Proof.
  intros Hnone. unfold formatWithTemplate, JS.replaceAllLiteral.
  rewrite (replaceScan_no_brace "{path}}" relPath EmptyString fileTemplate)
    by done.
  rewrite (replaceScan_no_brace "{extension}}" extension EmptyString
             fileTemplate) by done.
  by apply (replaceScan_no_brace "{content}}").
Qed.

(** X16.  When neither the relative path, nor the extension, nor the content of
    the file holds a dollar sign, the three replacements of the template
    insert them as they are: every [{{path}}] gives way to the path, then
    every [{{extension}}] to the extension, then every [{{content}}] to the
    content, each scan running over the result of the one before. *)
Theorem formatWithTemplate_plain_text
    (fileTemplate relPath extension content : string) :
  occurs "$" relPath = false →
  occurs "$" extension = false →
  occurs "$" content = false →
  formatWithTemplate fileTemplate relPath extension content
  = replaceAllPlain "{{content}}" content
      (replaceAllPlain "{{extension}}" extension
         (replaceAllPlain "{{path}}" relPath fileTemplate)).
Proof.
  intros Hpath Hext Hcontent.
  unfold formatWithTemplate, JS.replaceAllLiteral, replaceAllPlain.
  by rewrite !replaceScan_plain.
Qed.

End Templates.

Lemma formatWithTemplate_without_placeholder_witness :
  @formatWithTemplate "-- a file --" "src/a.ts" "ts" "let x = $$" = "-- a file --".
Proof. by apply formatWithTemplate_without_placeholder. Defined.

Lemma formatWithTemplate_plain_text_witness :
  @formatWithTemplate "{{path}} ({{extension}}): {{content}}" "src/a.ts" "ts"
     "let x"
  = "src/a.ts (ts): let x".
Proof.
  by rewrite (formatWithTemplate_plain_text
                "{{path}} ({{extension}}): {{content}}" "src/a.ts" "ts" "let x").
Defined.

Lemma buildIndent_reads_shallower_levels_witness :
  buildIndent 2 {[0%nat := true; 2%nat := true]}
  = buildIndent 2 {[0%nat := true; 1%nat := false; 5%nat := true]}
  ∧ buildIndent 3 {[0%nat := true; 2%nat := true]}
    = buildIndent 2 {[0%nat := true; 1%nat := false; 5%nat := true]}
      +:+ "│  ".
Proof.
  assert (Hagree : ∀ j, (j < 2)%nat →
            default false (({[0%nat := true; 2%nat := true]} : gmap nat bool) !! j)
            = default false
                (({[0%nat := true; 1%nat := false; 5%nat := true]}
                  : gmap nat bool) !! j)).
  { intros [|[|j]] Hj; [reflexivity..|lia]. }
  exact (buildIndent_reads_shallower_levels 2 _ _ Hagree).
Defined.

(** ** The command line *)

Lemma string_app_cons (a : ascii) (x y : string) :
  String a x +:+ y = String a (x +:+ y).
Proof. reflexivity. Qed.

Lemma split_nonempty (c : ascii) (s : string) : JS.split c s ≠ [].
Proof.
  destruct s as [|a rest]; simpl; [done|].
  destruct (decide (a = c)); [done|]. by destruct (JS.split c rest).
Qed.

Lemma split_pieces (c : ascii) (s : string) :
  Forall (λ piece, occurs c piece = false) (JS.split c s).
Proof.
  induction s as [|a rest IH]; simpl; [by repeat constructor|].
  destruct (decide (a = c)) as [->|Hne]; [by constructor|].
  destruct (JS.split c rest) as [|piece pieces]; simpl.
  - constructor; [|done]. simpl. by rewrite bool_decide_eq_false_2.
  - apply Forall_cons in IH as [Hpiece Hpieces]. constructor; [|done].
    simpl. by rewrite bool_decide_eq_false_2.
Qed.

Lemma split_join (c : ascii) (s : string) :
  JS.joinWith (String c EmptyString) (JS.split c s) = s.
Proof.
  induction s as [|a rest IH]; simpl; [done|].
  pose proof (split_nonempty c rest) as Hne.
  destruct (decide (a = c)) as [->|Hac].
  - destruct (JS.split c rest) as [|piece pieces] eqn:Hsplit; [done|].
    cbn [JS.joinWith]. cbn [JS.joinWith] in IH. by rewrite IH.
  - destruct (JS.split c rest) as [|piece pieces] eqn:Hsplit; [done|].
    destruct pieces as [|p ps]; cbn [JS.joinWith] in IH |- *.
    + by rewrite IH.
    + by rewrite string_app_cons, IH.
Qed.

Lemma split_without (c : ascii) (s : string) :
  occurs c s = false → JS.split c s = [s].
Proof.
  induction s as [|a rest IH]; simpl; [done|].
  intros [Ha Hrest]%orb_false_elim. apply bool_decide_eq_false in Ha.
  destruct (decide (a = c)); [done|]. by rewrite IH.
Qed.

Lemma split_app (c : ascii) (name v : string) :
  occurs c name = false →
  JS.split c (name +:+ String c v) = name :: JS.split c v.
Proof.
  induction name as [|a rest IH].
  - intros _. change (EmptyString +:+ String c v) with (String c v).
    cbn [JS.split]. by rewrite decide_True.
  - simpl occurs. intros [Ha Hrest]%orb_false_elim.
    apply bool_decide_eq_false in Ha.
    change (String a rest +:+ String c v) with (String a (rest +:+ String c v)).
    cbn [JS.split]. rewrite decide_False by done. by rewrite IH.
Qed.

Lemma isPrefix_app (p s : string) : JS.isPrefix p (p +:+ s) = true.
Proof.
  induction p as [|a p IH]; [done|].
  rewrite string_app_cons. simpl. by rewrite decide_True.
Qed.

Lemma find_first {A} (f : A → bool) (pre post : list A) (x : A) :
  Forall (λ y, f y = false) pre → f x = true →
  List.find f (pre ++ x :: post) = Some x.
Proof.
  intros Hpre Hx. induction Hpre as [|y pre Hy _ IH]; simpl.
  - by rewrite Hx.
  - by rewrite Hy.
Qed.

Lemma find_none {A} (f : A → bool) (l : list A) :
  Forall (λ y, f y = false) l → List.find f l = None.
Proof.
  induction 1 as [|y l Hy _ IH]; simpl; [done|]. by rewrite Hy.
Qed.

(** X20.  A flag [-name=value] is read from the first argument that starts with
    [-name=], later ones are not looked at; its value is the text up to the
    next equals sign, so a value never holds one and what follows it is
    dropped.  A flag no argument starts with is [undefined]. *)
Theorem flagValue_first_occurrence (name v : string) (pre post : list string) :
  occurs "=" name = false →
  Forall (λ arg, JS.isPrefix (name +:+ "=") arg = false) pre →
  CLI.flagValue (name +:+ "=") (pre ++ (name +:+ "=" +:+ v) :: post)
    = head (JS.split "=" v)
  ∧ (∃ value, CLI.flagValue (name +:+ "=") (pre ++ (name +:+ "=" +:+ v) :: post)
              = Some value ∧ occurs "=" value = false)
  ∧ (occurs "=" v = false →
     CLI.flagValue (name +:+ "=") (pre ++ (name +:+ "=" +:+ v) :: post) = Some v)
  ∧ CLI.flagValue (name +:+ "=") pre = None.
Proof.
  intros Hname Hpre.
  assert (Hvalue : CLI.flagValue (name +:+ "=")
                     (pre ++ (name +:+ "=" +:+ v) :: post)
                   = head (JS.split "=" v)).
  { unfold CLI.flagValue. rewrite (find_first _ pre post); [|done|].
    - simpl. change ("=" +:+ v) with (String "=" v).
      rewrite split_app by done. by destruct (JS.split "=" v).
    - rewrite <- string_app_assoc. apply isPrefix_app. }
  split; [exact Hvalue|]. split; [|split].
  - rewrite Hvalue. pose proof (split_nonempty "=" v) as Hne.
    pose proof (split_pieces "=" v) as Hpieces.
    destruct (JS.split "=" v) as [|piece pieces]; [done|].
    apply Forall_cons in Hpieces as [Hpiece _]. by exists piece.
  - intros Hv. by rewrite Hvalue, split_without.
  - unfold CLI.flagValue. by rewrite find_none.
Qed.

Lemma flagValue_first_occurrence_witness :
  CLI.dir (CLI.parseFlags ["-output=o.md"; "-dir=a=b"; "-dir=c"]) = Some "a".
Proof.
  apply (flagValue_first_occurrence "-dir" "a=b" ["-output=o.md"] ["-dir=c"]);
    [reflexivity|by repeat constructor].
Defined.

(** X21.  The script looks for [-version] first and for [-help] next, wherever
    they stand among the arguments: with [-version] present it prints the
    version, otherwise with [-help] present or with no argument at all it
    prints the help, and in both cases it exits before anything is loaded or
    scanned; [main] runs in the remaining case only, with the flags read
    from the arguments. *)
Theorem start_cases (args : list string) :
  (CLI.start args = CLI.PrintVersion ↔ "-version" ∈ args)
  ∧ (CLI.start args = CLI.PrintHelp
     ↔ ("-version" ∉ args) ∧ ("-help" ∈ args ∨ args = []))
  ∧ ((∃ flags, CLI.start args = CLI.RunMain flags)
     ↔ ("-version" ∉ args) ∧ ("-help" ∉ args) ∧ args ≠ [])
  ∧ (∀ flags, CLI.start args = CLI.RunMain flags → flags = CLI.parseFlags args).
Proof.
  unfold CLI.start. cbn [CLI.version CLI.help CLI.parseFlags].
  assert (Hlen : length args = 0%nat ↔ args = [])
    by (destruct args; simpl; split; (done || lia)).
  case_bool_decide as Hv.
  { split; [done|]. split; [split; [done|tauto]|].
    split; [split; [by intros [? [=]]|tauto]|done]. }
  case_bool_decide as Hh; cbn [orb].
  { split; [done|]. split; [split; [tauto|done]|].
    split; [split; [by intros [? [=]]|tauto]|done]. }
  case_bool_decide as Hl; rewrite Hlen in Hl.
  { split; [done|]. split; [split; [tauto|done]|].
    split; [split; [by intros [? [=]]|tauto]|done]. }
  split; [done|]. split; [split; [done|tauto]|].
  split; [split; [tauto|by eauto]|]. by intros flags [= <-].
Qed.

(** ** The configuration *)

Section ConfigFacts.
Context `{Host} `{Config.ConfigHost}.

(** X22.  The patterns of the flag [-ignore=] are the pieces of its text between
    the commas.  There is always at least one, none holds a comma, so a
    pattern with a comma cannot be given on the command line, and joined
    with commas they give the text back.  They take the place of the
    patterns of the configuration. *)
Theorem mergeConfigWithArgs_ignore_patterns (config : Config.RawConfig)
    (args : CLI.CLIArgs) (text : string) :
  CLI.ignore args = Some text →
  ∃ patterns,
    Config.ignore (Config.mergeConfigWithArgs config args) = Some (Some patterns)
    ∧ patterns ≠ []
    ∧ Forall (λ pattern, occurs "," pattern = false) patterns
    ∧ JS.joinWith "," patterns = text.
Proof.
  intros Hignore. exists (JS.split "," text).
  unfold Config.mergeConfigWithArgs. cbn [Config.ignore]. rewrite Hignore.
  split; [done|]. split; [apply split_nonempty|].
  split; [apply split_pieces|apply (split_join ",")].
Qed.

End ConfigFacts.

Lemma mergeConfigWithArgs_ignore_patterns_witness :
  ∃ patterns,
    Config.ignore
      (@Config.mergeConfigWithArgs (ConfigExample.host [])
         (ConfigExample.fromDir "src")
         (CLI.parseFlags ["-ignore=**/*.{js,ts},dist"]))
    = Some (Some patterns)
    ∧ patterns ≠ []
    ∧ Forall (λ pattern, occurs "," pattern = false) patterns
    ∧ JS.joinWith "," patterns = "**/*.{js,ts},dist".
Proof.
  by apply (@mergeConfigWithArgs_ignore_patterns (ConfigExample.host [])).
Defined.

Lemma spread_assoc {A} (a b c : Config.Key A) :
  Config.spread (Config.spread a b) c = Config.spread a (Config.spread b c).
Proof. by destruct c. Qed.

Lemma orElse_assoc {A} (a b c : option A) :
  Config.orElse a (Config.orElse b c) = Config.orElse (Config.orElse a b) c.
Proof. by destruct a. Qed.

(** X23.  What [mergeConfigs] returns, key by key.  A key that [override] has
    wins, holding [undefined] included; a key that it lacks is taken from
    [base].  The keys [ignore] and [alwaysIncludeExtensions] are different:
    the result always has them, holding the array of [override] when there
    is one, else the array of [base], else [undefined].  Merging is
    associative. *)
Theorem mergeConfigs_keys (base override last : Config.RawConfig) :
  let merged := Config.mergeConfigs base override in
  Config.dir merged = Config.spread (Config.dir base) (Config.dir override)
  ∧ Config.output merged
    = Config.spread (Config.output base) (Config.output override)
  ∧ Config.maxFileSize merged
    = Config.spread (Config.maxFileSize base) (Config.maxFileSize override)
  ∧ Config.sort merged = Config.spread (Config.sort base) (Config.sort override)
  ∧ (∃ patterns, Config.ignore merged = Some patterns
       ∧ patterns = Config.orElse (Config.read (Config.ignore override))
                      (Config.read (Config.ignore base)))
  ∧ (∃ extensions, Config.alwaysIncludeExtensions merged = Some extensions
       ∧ extensions
         = Config.orElse (Config.read (Config.alwaysIncludeExtensions override))
             (Config.read (Config.alwaysIncludeExtensions base)))
  ∧ Config.mergeConfigs (Config.mergeConfigs base override) last
    = Config.mergeConfigs base (Config.mergeConfigs override last).
Proof.
  cbn zeta.
  split; [done|]. split; [done|]. split; [done|]. split; [done|].
  split; [by eexists|]. split; [by eexists|].
  unfold Config.mergeConfigs.
  cbn [Config.dir Config.output Config.ignore Config.includedPathsFile
       Config.excludedPathsFile Config.header Config.maxFileSize
       Config.alwaysIncludeExtensions Config.fileTemplate Config.sort
       Config.sortDirection Config.read].
  by rewrite !spread_assoc, !orElse_assoc.
Qed.

(** X24.  The default patterns of [main] stand in only for a key that is missing.
    A configuration that went through [mergeConfigs], as it does whenever
    [package.json] has a section for the tool, has the key [ignore]; so
    when neither that section, nor the configuration file, nor the command
    line gives patterns, the options hold [undefined] for [ignore] and not
    the default.  Without the merge, the same configuration gets the
    default. *)
Theorem mainOptions_ignore_after_merge `{Config.ConfigHost}
    (packageConfig config : Config.RawConfig) (args : CLI.CLIArgs) :
  (∀ c, Config.read (Config.ignore (Config.mainOptions c))
        = match Config.ignore c with
          | None => Some ["\.git.*"]
          | Some patterns => patterns
          end)
  ∧ Config.read
      (Config.ignore
         (Config.mainOptions
            (Config.mergeConfigWithArgs
               (Config.mergeConfigs packageConfig config) args)))
    = Config.orElse (JS.split "," <$> CLI.ignore args)
        (Config.orElse (Config.read (Config.ignore config))
           (Config.read (Config.ignore packageConfig)))
  ∧ (Config.ignore config = None →
     Config.read
       (Config.ignore
          (Config.mainOptions (Config.mergeConfigWithArgs config args)))
     = Some (default ["\.git.*"] (JS.split "," <$> CLI.ignore args))).
Proof.
  split; [|split].
  - intros c. unfold Config.mainOptions. cbn [Config.ignore].
    by destruct (Config.ignore c) as [[]|].
  - unfold Config.mainOptions, Config.mergeConfigWithArgs, Config.mergeConfigs.
    cbn [Config.ignore]. by destruct (CLI.ignore args).
  - intros Hnone.
    unfold Config.mainOptions, Config.mergeConfigWithArgs.
    cbn [Config.ignore]. rewrite Hnone. by destruct (CLI.ignore args).
Qed.

(** X26.  [validateConfig] accepts a configuration exactly when its [maxFileSize],
    if it is a number other than [NaN], is not negative, and its [sort] and
    [sortDirection], if they are not empty, are among the known names: zero,
    [NaN] and the empty text pass.  The size is checked first: a negative
    size is what the error reports, whatever [sort] holds. *)
Theorem validateConfig_accepts (config : Config.RawConfig) :
  (Config.validateConfig config = Ok ()
   ↔ (∀ m, Config.read (Config.maxFileSize config) = Some (Config.Num m) →
        (0 ≤ m)%Z)
     ∧ (∀ s, Config.read (Config.sort config) = Some s →
          s = EmptyString ∨ s ∈ ["name"; "size"; "modified"; "type"])
     ∧ (∀ s, Config.read (Config.sortDirection config) = Some s →
          s = EmptyString ∨ s ∈ ["asc"; "desc"]))
  ∧ ((∃ m, Config.read (Config.maxFileSize config) = Some (Config.Num m)
           ∧ (m < 0)%Z) →
     Config.validateConfig config
     = Err "maxFileSize must be a positive number").
Proof.
  unfold Config.validateConfig.
  destruct (Config.read (Config.maxFileSize config)) as [[|m]|] eqn:Hsize;
  destruct (Config.read (Config.sort config)) as [s|] eqn:Hsort;
  destruct (Config.read (Config.sortDirection config)) as [d|] eqn:Hdir;
  try (destruct (m =? 0)%Z eqn:Hz; [apply Z.eqb_eq in Hz|apply Z.eqb_neq in Hz]);
  try (destruct (m <? 0)%Z eqn:Hlt; [apply Z.ltb_lt in Hlt|apply Z.ltb_ge in Hlt]);
  cbn [negb andb];
  repeat case_bool_decide; cbn [negb andb];
  (split; [split|]);
  try done;
  try (by intros (m' & [= <-] & ?); (done || lia));
  try (by intros (m' & [=] & ?));
  try (intros _; split; [by intros ? [=]; (done || lia)|];
       split; intros ? [= <-]; by auto);
  try (intros (Hm & Hs & Hd);
       first [ specialize (Hm m eq_refl); lia
             | destruct (Hs s eq_refl); done
             | destruct (Hd d eq_refl); done ]).
Qed.

(** X27.  On a configuration of the declared type, seen as the object it is, the
    checks of [validateConfig] come down to the one on [maxFileSize], and
    the options of [main] are the configuration with [dir], [output] and
    [ignore] filled in where they are missing. *)
Theorem typed_configuration_view (c : CodeAtlasConfig) :
  Config.validateConfig (asObject c) = validateConfig c
  ∧ Config.mainOptions (asObject c)
    = asObject
        {| dir := Some (default "." (dir c));
           output := Some (default "codebase.md" (output c));
           ignore := Some (default ["\.git.*"] (ignore c));
           includedPathsFile := includedPathsFile c;
           excludedPathsFile := excludedPathsFile c;
           header := header c;
           maxFileSize := maxFileSize c;
           alwaysIncludeExtensions := alwaysIncludeExtensions c;
           fileTemplate := fileTemplate c;
           sort := sort c;
           sortDirection := sortDirection c |}.
Proof.
  split.
  - unfold Config.validateConfig, validateConfig, asObject.
    cbn [Config.maxFileSize Config.sort Config.sortDirection].
    destruct (maxFileSize c) as [[|m]|], (sort c) as [[]|],
      (sortDirection c) as [[]|]; cbn;
      try destruct (negb (m =? 0)%Z && (m <? 0)%Z); reflexivity.
  - unfold Config.mainOptions, asObject. cbn.
    by destruct (dir c), (output c), (ignore c).
Qed.

Section LoadingFacts.
Context `{Host} `{Config.ConfigHost}.

Lemma findAmong_first dir pre post configFile :
  Forall (λ f, Config.existsSync (join dir f) = false) pre →
  Config.existsSync (join dir configFile) = true →
  Config.findAmong dir (pre ++ configFile :: post)%list
  = Config.loadConfigFile (join dir configFile).
Proof.
  intros Hpre Hfile. induction Hpre as [|f pre Hf _ IH]; simpl.
  - by rewrite Hfile.
  - by rewrite Hf.
Qed.

Lemma findAmong_none dir configFiles :
  Forall (λ f, Config.existsSync (join dir f) = false) configFiles →
  Config.findAmong dir configFiles = Ok (Some Config.emptyRaw).
Proof.
  induction 1 as [|f rest Hf _ IH]; simpl; [done|]. by rewrite Hf.
Qed.

(** X28.  The configuration file of a directory is the first of the five names,
    in their order of priority, that exists there: it alone is loaded,
    whether a later one exists or not, and when loading it fails the search
    fails with it instead of going on to the next name.  When none of the
    five exists the configuration is the empty object.  One of the two is
    always the case. *)
Theorem findAndLoadConfig_first_existing (dir : string) :
  (∀ (configFile : string) (pre post : list string),
     Config.CONFIG_FILES = (pre ++ configFile :: post)%list →
     Forall (λ f, Config.existsSync (join dir f) = false) pre →
     Config.existsSync (join dir configFile) = true →
     Config.findAndLoadConfig dir = Config.loadConfigFile (join dir configFile))
  ∧ (Forall (λ f, Config.existsSync (join dir f) = false) Config.CONFIG_FILES →
     Config.findAndLoadConfig dir = Ok (Some Config.emptyRaw))
  ∧ ((∃ configFile, configFile ∈ Config.CONFIG_FILES
        ∧ Config.existsSync (join dir configFile) = true
        ∧ Config.findAndLoadConfig dir
          = Config.loadConfigFile (join dir configFile))
     ∨ (Forall (λ f, Config.existsSync (join dir f) = false) Config.CONFIG_FILES
        ∧ Config.findAndLoadConfig dir = Ok (Some Config.emptyRaw))).
Proof.
  unfold Config.findAndLoadConfig. split; [|split].
  - intros configFile pre post Hfiles Hpre Hfile. rewrite Hfiles.
    by apply findAmong_first.
  - apply findAmong_none.
  - generalize Config.CONFIG_FILES. intros configFiles.
    induction configFiles as [|f rest IH]; [by right|]. simpl.
    destruct (Config.existsSync (join dir f)) eqn:Hf.
    + left. exists f. split; [apply list_elem_of_here|done].
    + destruct IH as [(configFile & Hin & Hexists & Hload)|[Hnone Hload]].
      * left. exists configFile. split; [by apply list_elem_of_further|done].
      * right. split; [by constructor|done].
Qed.

Lemma loadConfigFile_error filePath e :
  Config.loadConfigFile filePath = Err e →
  ∃ cause, e = "Failed to load config from " +:+ filePath +:+ ": " +:+ cause.
Proof.
  unfold Config.loadConfigFile. cbn zeta.
  destruct (if decide _ then _ else _) as [config|cause]; [done|].
  intros [= <-]. by exists cause.
Qed.

Lemma findAmong_error dir configFiles e :
  Config.findAmong dir configFiles = Err e →
  ∃ path cause,
    e = "Failed to load config from " +:+ path +:+ ": " +:+ cause
    ∧ Config.existsSync path = true.
Proof.
  induction configFiles as [|f rest IH]; simpl; [done|].
  destruct (Config.existsSync (join dir f)) eqn:Hf; [|exact IH].
  intros [cause ->]%loadConfigFile_error. by exists (join dir f), cause.
Qed.

(** X29.  The errors of [loadConfig].  A path given with [-config=] that does not
    exist is reported as not found, before anything else is looked at.
    Every other error is the failure to load a file that exists, reported
    with the path of the file and the cause, or the [TypeError] of
    [mergeConfigs] reading a key of [null]: it is thrown exactly when the
    file that is loaded holds [null] and [package.json] has a section for
    the tool.  When [package.json] has none, because it is missing, cannot
    be read or parsed, or holds none, the configuration of the file is
    returned as it is, [null] included, and [main] goes on with the keys of
    that configuration and the flags, [null] having no keys. *)
Theorem loadConfig_errors (configPath : option string) :
  let loaded :=
    match truthy configPath with
    | Some path => Config.loadConfigFile path
    | None => Config.findAndLoadConfig Config.cwd
    end in
  let found := ∀ path, truthy configPath = Some path →
                       Config.existsSync path = true in
  (∀ path, truthy configPath = Some path → Config.existsSync path = false →
     Config.loadConfig configPath = Err ("Config file not found: " +:+ path))
  ∧ (∀ e, Config.loadConfig configPath = Err e →
       (∃ path, truthy configPath = Some path
                ∧ Config.existsSync path = false
                ∧ e = "Config file not found: " +:+ path)
       ∨ (∃ path cause,
            e = "Failed to load config from " +:+ path +:+ ": " +:+ cause
            ∧ Config.existsSync path = true)
       ∨ (e = "Cannot read properties of null (reading 'ignore')"
          ∧ found ∧ loaded = Ok None
          ∧ ∃ packageConfig,
              Config.loadPackageJsonConfig = Some packageConfig))
  ∧ (∀ packageConfig, found → loaded = Ok None →
       Config.loadPackageJsonConfig = Some packageConfig →
       Config.loadConfig configPath
       = Err "Cannot read properties of null (reading 'ignore')")
  ∧ (∀ config, found → loaded = Ok config →
       Config.loadPackageJsonConfig = None →
       Config.loadConfig configPath = Ok config
       ∧ ∀ flags, CLI.config flags = configPath →
           Config.finalConfig flags
           = Ok (Config.mergeConfigWithArgs
                   match config with
                   | Some config => config
                   | None => Config.emptyRaw
                   end flags)).
Proof.
  cbn zeta. unfold Config.finalConfig, Config.loadConfig.
  split; [|split; [|split]].
  - intros path -> Hmissing. by rewrite Hmissing.
  - intros e. destruct (truthy configPath) as [path|].
    + destruct (Config.existsSync path) eqn:Hexists; cbn [negb].
      * destruct (Config.loadConfigFile path) as [config|e'] eqn:Hload.
        -- simpl.
           destruct Config.loadPackageJsonConfig as [packageConfig|];
             [|done].
           destruct config as [config|]; [done|]. intros [= <-].
           right. right. split; [done|]. split; [by intros ? [= <-]|].
           split; [done|]. by exists packageConfig.
        -- simpl. intros [= <-].
           apply loadConfigFile_error in Hload as [cause ->].
           right. left. by exists path, cause.
      * simpl. intros [= <-]. left. by exists path.
    + destruct (Config.findAndLoadConfig Config.cwd) as [config|e'] eqn:Hfind.
      * simpl.
        destruct Config.loadPackageJsonConfig as [packageConfig|]; [|done].
        destruct config as [config|]; [done|]. intros [= <-].
        right. right. split; [done|]. split; [done|].
        split; [done|]. by exists packageConfig.
      * simpl. intros [= <-]. right. left. by apply findAmong_error in Hfind.
  - intros packageConfig Hexists Hload Hpkg. rewrite Hpkg.
    destruct (truthy configPath) as [path|].
    + rewrite (Hexists path eq_refl). cbn [negb]. by rewrite Hload.
    + by rewrite Hload.
  - intros config Hexists Hload Hpkg. rewrite Hpkg.
    assert (Hloaded : (match truthy configPath with
                       | Some path =>
                           if negb (Config.existsSync path)
                           then Err ("Config file not found: " +:+ path)
                           else Config.loadConfigFile path
                       | None => Config.findAndLoadConfig Config.cwd
                       end) = Ok config).
    { destruct (truthy configPath) as [path|]; [|done].
      rewrite (Hexists path eq_refl). cbn [negb]. done. }
    split; [by rewrite Hloaded|].
    intros flags ->. rewrite Hloaded. cbn. by destruct config.
Qed.

(** X25.  The precedence of the sources for [dir] and [output]: the flag of the
    command line, else the key of the configuration file, else the key of
    the section of [package.json], else the default.  A key that is present
    is not looked behind, an empty text included. *)
Theorem option_priority_chain (packageConfig fileConfig : Config.RawConfig)
    (args : CLI.CLIArgs) :
  let options :=
    Config.mainOptions
      (Config.mergeConfigWithArgs
         (Config.mergeConfigs packageConfig fileConfig) args) in
  Config.read (Config.dir options)
  = match CLI.dir args, Config.dir fileConfig, Config.dir packageConfig with
    | Some flag, _, _ => Some flag
    | None, Some value, _ => value
    | None, None, Some value => value
    | None, None, None => Some "."
    end
  ∧ Config.read (Config.output options)
    = match CLI.output args, Config.output fileConfig,
            Config.output packageConfig with
      | Some flag, _, _ => Some flag
      | None, Some value, _ => value
      | None, None, Some value => value
      | None, None, None => Some "codebase.md"
      end.
Proof.
  cbn zeta.
  unfold Config.mainOptions, Config.mergeConfigWithArgs, Config.mergeConfigs.
  cbn [Config.dir Config.output].
  destruct (CLI.dir args), (Config.dir fileConfig) as [[]|],
    (Config.dir packageConfig) as [[]|], (CLI.output args),
    (Config.output fileConfig) as [[]|],
    (Config.output packageConfig) as [[]|]; done.
Qed.

End LoadingFacts.

Lemma findAndLoadConfig_first_existing_witness :
  @Config.findAndLoadConfig (Example.host [])
     (ConfigExample.host [("/work/.code-atlasrc", "src");
                          ("/work/code-atlas.config.js", "lib")]) "/work"
  = Ok (Some (ConfigExample.fromDir "src"))
  ∧ @Config.findAndLoadConfig (Example.host [])
      (ConfigExample.host [("/work/package.json", "{}")]) "/work"
    = Ok (Some Config.emptyRaw).
Proof.
  split.
  - apply (proj1 (@findAndLoadConfig_first_existing (Example.host [])
             (ConfigExample.host [("/work/.code-atlasrc", "src");
                                  ("/work/code-atlas.config.js", "lib")])
             "/work") ".code-atlasrc" [".code-atlas.json"]
             [".code-atlasrc.json"; "code-atlas.config.json";
              "code-atlas.config.js"]).
    + reflexivity.
    + by repeat constructor.
    + reflexivity.
  - apply (proj1 (proj2 (@findAndLoadConfig_first_existing (Example.host [])
             (ConfigExample.host [("/work/package.json", "{}")]) "/work"))).
    by repeat constructor.
Defined.

Lemma loadConfig_errors_witness :
  let host := ConfigExample.host [("/work/.code-atlasrc", "null");
                                  ("/work/package.json", "lib")] in
  @Config.loadConfig (Example.host []) host None
  = Err "Cannot read properties of null (reading 'ignore')"
  ∧ @Config.loadConfig (Example.host []) host (Some "missing.json")
    = Err "Config file not found: missing.json"
  ∧ @Config.loadConfig (Example.host [])
      (ConfigExample.host [("/work/.code-atlasrc", "null")]) None
    = Ok None.
Proof.
  intros host.
  destruct (@loadConfig_errors (Example.host []) host None)
    as (_ & _ & Hnull & _).
  destruct (@loadConfig_errors (Example.host []) host (Some "missing.json"))
    as (Hmissing & _).
  destruct (@loadConfig_errors (Example.host [])
              (ConfigExample.host [("/work/.code-atlasrc", "null")]) None)
    as (_ & _ & _ & Hplain).
  split; [|split].
  - apply (Hnull (ConfigExample.fromDir "lib")); [discriminate|reflexivity..].
  - by apply Hmissing.
  - apply (proj1 (Hplain None ltac:(discriminate) eq_refl eq_refl)).
Defined.

(** ** Ignore patterns *)

Lemma Dirent_nested_ind (P : Dirent → Prop) :
  (∀ nm, P (FileEntry nm)) →
  (∀ nm e, P (DirEntry nm (Err e))) →
  (∀ nm entries, Forall P entries → P (DirEntry nm (Ok entries))) →
  ∀ e, P e.
Proof.
  intros Hfile Herr Hdir.
  fix IH 1. intros [nm|nm [entries|e]]; [apply Hfile| |apply Herr].
  apply Hdir. induction entries as [|x rest IHrest]; constructor.
  - apply IH.
  - exact IHrest.
Qed.

Section IgnorePatterns.
Context `{Host}.

Lemma shouldIgnore_app path (ps qs : list string) :
  shouldIgnore path (ps ++ qs)
  = shouldIgnore path ps || shouldIgnore path qs.
Proof.
  unfold shouldIgnore. destruct (decide (path = ".")); [done|].
  apply existsb_app.
Qed.

Lemma entryTree_more_patterns rootDir (ps qs : list string) e :
  ∀ dirPath depth,
    entryTree rootDir (ps ++ qs) dirPath depth e
    `sublist_of` entryTree rootDir ps dirPath depth e.
Proof.
  induction e as [nm|nm e|nm entries IH] using Dirent_nested_ind;
    intros dirPath depth.
  - simpl. rewrite shouldIgnore_app.
    destruct (shouldIgnore (join dirPath nm) ps); simpl; [done|].
    destruct (shouldIgnore (join dirPath nm) qs); [apply sublist_nil_l|done].
  - rewrite !entryTree_dir, shouldIgnore_app.
    destruct (shouldIgnore (join dirPath nm) ps); simpl; [done|].
    destruct (shouldIgnore (join dirPath nm) qs); [apply sublist_nil_l|done].
  - rewrite !entryTree_dir, shouldIgnore_app.
    destruct (shouldIgnore (join dirPath nm) ps); simpl; [done|].
    destruct (shouldIgnore (join dirPath nm) qs); [apply sublist_nil_l|].
    apply sublist_skip. simpl.
    induction IH as [|x rest Hx _ IHrest]; [done|].
    rewrite !list_bind_cons. by apply sublist_app.
Qed.

(** X6.  Patterns are alternatives: a path is ignored under a list of patterns
    exactly when it is the path [.] or one of the patterns matches it, so
    the order of the patterns does not matter and with no pattern only [.]
    is ignored.  More patterns never bring an entry back: the entries to be
    visited under a longer list are among those under the shorter one, in
    the same order. *)
Theorem shouldIgnore_patterns (path : string) (ps qs : list string)
    (rootDir dirPath : string) (depth : nat) (listing : result (list Dirent)) :
  shouldIgnore "." ps = true
  ∧ shouldIgnore path [] = bool_decide (path = ".")
  ∧ shouldIgnore path (ps ++ qs) = shouldIgnore path ps || shouldIgnore path qs
  ∧ shouldIgnore path (ps ++ qs) = shouldIgnore path (qs ++ ps)
  ∧ listingTree rootDir (ps ++ qs) dirPath depth listing
    `sublist_of` listingTree rootDir ps dirPath depth listing.
Proof.
  split; [done|]. split.
  { unfold shouldIgnore. simpl.
    case_decide; [by rewrite bool_decide_eq_true_2|by rewrite bool_decide_eq_false_2]. }
  split; [apply shouldIgnore_app|]. split.
  { rewrite !shouldIgnore_app. apply orb_comm. }
  destruct listing as [entries|e]; [|done]. simpl.
  induction entries as [|x rest IH]; [done|].
  rewrite !list_bind_cons.
  apply sublist_app; [apply entryTree_more_patterns|exact IH].
Qed.

(** X5.  The sorting changes the order of the visits and nothing else: two
    traversals of the same listing under the same patterns that both
    complete have called the callbacks for the same entries, the same
    number of times, whatever sorting each was given.  So the files of the
    tree view, which is always sorted by name, are the files of the content
    section. *)
Theorem walkDir_sorting_keeps_entries (listing : result (list Dirent))
    (dirPath rootDir : string) (ignorePatterns : list string) (depth : nat)
    (options1 options2 : CodeAtlasConfig) (dO1 dO2 : gmap nat bool)
    (w1 w2 : World (list Visit)) :
  traced listing dirPath rootDir ignorePatterns depth options1 dO1
    = (w1, Ok ()) →
  traced listing dirPath rootDir ignorePatterns depth options2 dO2
    = (w2, Ok ()) →
  visitTriple <$> user w1 ≡ₚ visitTriple <$> user w2.
Proof.
  rewrite !traced_script. cbn zeta. intros Heq1 Heq2.
  pose proof (f_equal snd Heq1) as Hok1. apply (f_equal fst) in Heq1.
  pose proof (f_equal snd Heq2) as Hok2. apply (f_equal fst) in Heq2.
  cbn [fst snd] in *. subst w1 w2. cbn [user].
  rewrite !snapshots_triples.
  destruct (scripts_same_entries _ _ _ _ _ _ _ Hok1) as [_ <-].
  by destruct (scripts_same_entries _ _ _ _ _ _ _ Hok2) as [_ <-].
Qed.

End IgnorePatterns.

Lemma walkDir_sorting_keeps_entries_witness :
  visitTriple
    <$> user (@traced Scenario.host Scenario.listing "root" "root" [] 0
                emptyConfig ∅).1
  ≡ₚ visitTriple
       <$> user (@traced Scenario.host Scenario.listing "root" "root" [] 0
                   (sortConfig (Some SortSize) (Some Desc)) ∅).1.
Proof.
  apply (@walkDir_sorting_keeps_entries Scenario.host Scenario.listing
           "root" "root" [] 0 emptyConfig
           (sortConfig (Some SortSize) (Some Desc)) ∅ ∅);
    apply surjective_pairing.
Defined.

(** ** Edge cases of the content pass *)

Lemma filter_none {A} (f : A → bool) (l : list A) :
  Forall (λ x, f x = false) l → List.filter f l = [].
Proof.
  induction 1 as [|x l Hx _ IH]; simpl; [done|]. by rewrite Hx.
Qed.

Lemma split_joinWith (c : ascii) (paths : list string) :
  paths ≠ [] →
  Forall (λ path, occurs c path = false) paths →
  JS.split c (JS.joinWith (String c EmptyString) paths) = paths.
Proof.
  intros Hne Hpaths. induction Hpaths as [|x rest Hx Hrest IH]; [done|].
  destruct rest as [|y rest]; cbn [JS.joinWith].
  - by apply split_without.
  - change (String c EmptyString +:+ ?t) with (String c t).
    rewrite split_app by done. f_equal. by apply IH.
Qed.

Section ContentEdges.
Context `{Host}.

Lemma sortEntries_nil dirPath sort sortDirection :
  sortEntries [] dirPath sort sortDirection = Ok [].
Proof.
  unfold sortEntries. cbn zeta. by destruct (bool_decide _ || bool_decide _).
Qed.

Lemma writePaths_made pathsFile paths d :
  made (writePaths pathsFile paths d).1 = made d.
Proof.
  unfold writePaths, writeFileSync.
  destruct (truthy pathsFile) as [f|]; [|done].
  by destruct (writeError _ _ _ _) as [[e rest]|].
Qed.

(** X14.  A scan that finds nothing to visit, because the directory is empty or
    every entry of it is ignored, appends nothing: it does not create the
    output file and makes no directory.  A paths file that is configured is
    written all the same, empty; so the scan returns two empty lists when
    these writes succeed, and throws the error of the first of them that
    throws. *)
Theorem writeFileContent_nothing_to_scan (options : CodeAtlasConfig)
    (entries : list Dirent) (disk0 : Disk) :
  Forall (λ entry,
            shouldIgnore (join (default "." (dir options)) (name entry))
              (default [] (ignore options)) = true) entries →
  let scan := writeFileContent options (Ok entries) disk0 in
  (made scan.1 = made disk0
   ∧ ∀ file,
       (∀ f, truthy (includedPathsFile options) = Some f → file ≠ fileOf f) →
       (∀ f, truthy (excludedPathsFile options) = Some f → file ≠ fileOf f) →
       contents scan.1 !! file = contents disk0 !! file)
  ∧ ((∀ f, truthy (includedPathsFile options) = Some f → writable f) →
     (∀ f, truthy (excludedPathsFile options) = Some f → writable f) →
     scan.2 = Ok ([], [])
     ∧ ∀ f, truthy (includedPathsFile options) = Some f
            ∨ truthy (excludedPathsFile options) = Some f →
         contents scan.1 !! fileOf f = Some EmptyString)
  ∧ (∀ f e, truthy (includedPathsFile options) = Some f →
       (writeFileSync f EmptyString false disk0).2 = Err e →
       scan.2 = Err e)
  ∧ (∀ f e between,
       writePaths (includedPathsFile options) [] disk0 = (between, Ok ()) →
       truthy (excludedPathsFile options) = Some f →
       (writeFileSync f EmptyString false between).2 = Err e →
       scan.2 = Err e).
Proof.
  intros Hall.
  assert (Hwalk : contentWalk options (Ok entries) disk0
                  = (mkWorld ∅ (mkContentState [] [] disk0), Ok ())).
  { unfold contentWalk, walkDir. rewrite walkDirFuel_script.
    cbn [scriptFuel]. rewrite filter_none.
    - by rewrite sortEntries_nil.
    - eapply Forall_impl; [exact Hall|]. simpl. by intros entry ->. }
  assert (Hscan : writeFileContent options (Ok entries) disk0
    = match writePaths (includedPathsFile options) [] disk0 with
      | (disk1, Err e) => (disk1, Err e)
      | (disk1, Ok _) =>
          match writePaths (excludedPathsFile options) [] disk1 with
          | (disk2, Err e) => (disk2, Err e)
          | (disk2, Ok _) => (disk2, Ok ([], []))
          end
      end).
  { rewrite writeFileContent_unfold. by rewrite Hwalk. }
  cbn zeta. rewrite Hscan. clear Hscan Hwalk Hall.
  split; [|split; [|split]].
  - pose proof (writePaths_made (includedPathsFile options) [] disk0) as Hm1.
    pose proof (λ file, writePaths_other (includedPathsFile options) [] disk0
                  file) as Ho1.
    destruct (writePaths (includedPathsFile options) [] disk0)
      as [disk1 [[]|e1]]; cbn [fst] in *; [|by split; auto].
    pose proof (writePaths_made (excludedPathsFile options) [] disk1) as Hm2.
    pose proof (λ file, writePaths_other (excludedPathsFile options) [] disk1
                  file) as Ho2.
    destruct (writePaths (excludedPathsFile options) [] disk1)
      as [disk2 [[]|e2]]; cbn [fst] in *.
    + split; [congruence|]. intros file Hinc Hexc.
      by rewrite Ho2, Ho1.
    + split; [congruence|]. intros file Hinc Hexc.
      by rewrite Ho2, Ho1.
  - intros Hinc Hexc.
    pose proof (writePaths_succeeds (includedPathsFile options) [] disk0 Hinc)
      as H1.
    destruct (writePaths (includedPathsFile options) [] disk0)
      as [disk1 [[]|e1]] eqn:Hfirst; [|discriminate].
    pose proof (writePaths_succeeds (excludedPathsFile options) [] disk1 Hexc)
      as H2.
    destruct (writePaths (excludedPathsFile options) [] disk1)
      as [disk2 [[]|e2]] eqn:Hsecond; [|discriminate].
    cbn [fst snd]. split; [done|].
    apply writePaths_Ok in Hfirst. apply writePaths_Ok in Hsecond.
    intros f [Hf|Hf].
    + rewrite Hsecond.
      destruct (truthy (excludedPathsFile options)) as [g|].
      * destruct (decide (fileOf f = fileOf g)) as [->|Hne];
          [by rewrite lookup_insert_eq|].
        rewrite lookup_insert_ne by done.
        rewrite Hfirst, Hf. by rewrite lookup_insert_eq.
      * rewrite Hfirst, Hf. by rewrite lookup_insert_eq.
    + rewrite Hsecond, Hf. by rewrite lookup_insert_eq.
  - intros f e Hf Hwrite. unfold writePaths at 1. rewrite Hf.
    change (JS.joinWith LF []) with EmptyString.
    destruct (writeFileSync f EmptyString false disk0) as [disk1 [[]|e1]];
      cbn [snd] in *; congruence.
  - intros f e between Hfirst Hf Hwrite. rewrite Hfirst.
    unfold writePaths. rewrite Hf.
    change (JS.joinWith LF []) with EmptyString.
    destruct (writeFileSync f EmptyString false between) as [disk2 [[]|e2]];
      cbn [snd] in *; congruence.
Qed.

(** X12.  The paths files can be read back: when the returned [excludedPaths] is
    not empty and no path holds a line feed, splitting the file named by
    [excludedPathsFile] at the line feeds gives the list back, and the same
    holds of [includedPaths] and its file when the two are different files.
    An empty list is written as the empty text. *)
Theorem paths_file_round_trip (options : CodeAtlasConfig)
    (rootListing : result (list Dirent)) (disk0 disk1 : Disk)
    (included excluded : list string) :
  writeFileContent options rootListing disk0 = (disk1, Ok (included, excluded)) →
  (∀ f, truthy (excludedPathsFile options) = Some f →
     ∃ text, contents disk1 !! fileOf f = Some text
       ∧ (excluded = [] → text = EmptyString)
       ∧ (excluded ≠ [] →
          Forall (λ path, occurs "010" path = false) excluded →
          JS.split "010" text = excluded))
  ∧ (∀ f, truthy (includedPathsFile options) = Some f →
       (∀ g, truthy (excludedPathsFile options) = Some g →
          fileOf f ≠ fileOf g) →
       ∃ text, contents disk1 !! fileOf f = Some text
         ∧ (included = [] → text = EmptyString)
         ∧ (included ≠ [] →
            Forall (λ path, occurs "010" path = false) included →
            JS.split "010" text = included)).
Proof.
  intros Hscan.
  apply writeFileContent_returns in Hscan
    as (_ & _ & _ & between & Hinc & Hexc).
  apply writePaths_Ok in Hinc. apply writePaths_Ok in Hexc. split.
  - intros f Hf. exists (JS.joinWith LF excluded).
    split; [by rewrite Hexc, Hf, lookup_insert_eq|]. split; [by intros ->|].
    intros Hne Hpaths. by apply (split_joinWith "010").
  - intros f Hf Hne. exists (JS.joinWith LF included). split.
    + rewrite Hexc. destruct (truthy (excludedPathsFile options)) as [g|].
      * rewrite lookup_insert_ne by (intros Heq; by apply (Hne g)).
        by rewrite Hinc, Hf, lookup_insert_eq.
      * by rewrite Hinc, Hf, lookup_insert_eq.
    + split; [by intros ->|].
      intros Hne' Hpaths. by apply (split_joinWith "010").
Qed.

End ContentEdges.

Lemma writeFileContent_nothing_to_scan_witness :
  let options (pathsFile : string) :=
    {| dir := Some "root"; output := Some "out.md";
       ignore := Some ["root/node_modules"];
       includedPathsFile := Some pathsFile; excludedPathsFile := None;
       header := None; maxFileSize := None; alwaysIncludeExtensions := None;
       fileTemplate := None; sort := None; sortDirection := None |} in
  let listing := Ok [DirEntry "node_modules" (Ok [FileEntry "x.js"])] in
  ((@writeFileContent Scenario.host (options "in.txt") listing ∅).2
   = Ok ([], [])
   ∧ contents (@writeFileContent Scenario.host (options "in.txt") listing ∅).1
     = {["in.txt" := EmptyString]})
  ∧ (@writeFileContent Scenario.host (options "lists/in.txt") listing ∅).2
    = Err "ENOENT".
Proof.
  intros options listing.
  assert (Hall : ∀ pathsFile,
    Forall (λ entry,
              @shouldIgnore Scenario.host
                (@join Scenario.host
                   (default "." (dir (options pathsFile))) (name entry))
                (default [] (ignore (options pathsFile))) = true)
      [DirEntry "node_modules" (Ok [FileEntry "x.js"])])
    by (intros; by repeat constructor).
  destruct (@writeFileContent_nothing_to_scan Scenario.host (options "in.txt")
              [DirEntry "node_modules" (Ok [FileEntry "x.js"])] ∅
              (Hall "in.txt")) as (_ & Hwritten & _).
  destruct (@writeFileContent_nothing_to_scan Scenario.host
              (options "lists/in.txt")
              [DirEntry "node_modules" (Ok [FileEntry "x.js"])] ∅
              (Hall "lists/in.txt")) as (_ & _ & Hthrows & _).
  split.
  - split; [|reflexivity]. apply Hwritten.
    + intros f [= <-] data disk. reflexivity.
    + discriminate.
  - by apply (Hthrows "lists/in.txt").
Defined.

Lemma paths_file_round_trip_witness :
  let options :=
    {| dir := Some "root"; output := Some "out.md"; ignore := None;
       includedPathsFile := Some "in.txt"; excludedPathsFile := Some "ex.txt";
       header := None; maxFileSize := Some (Num 1000);
       alwaysIncludeExtensions := None; fileTemplate := None;
       sort := None; sortDirection := None |} in
  ∃ text,
    contents (@writeFileContent Scenario.host options Scenario.listing ∅).1
      !! "in.txt" = Some text
    ∧ JS.split "010" text = ["zdir/inner.ts"; "small.ts"].
Proof.
  intros options.
  destruct (@paths_file_round_trip Scenario.host options Scenario.listing
              ∅ (@writeFileContent Scenario.host options Scenario.listing ∅).1
              ["zdir/inner.ts"; "small.ts"] ["big.bin"])
    as (_ & Hinc).
  - rewrite (surjective_pairing (writeFileContent _ _ _)) at 1. f_equal.
  - destruct (Hinc "in.txt") as (text & Htext & _ & Hsplit);
      [reflexivity|by intros g [= <-]|].
    exists text. split; [exact Htext|].
    apply Hsplit; [discriminate|by repeat constructor].
Defined.

(** ** The file of the configuration *)

Lemma splitLast_Some c s pre post :
  Path.splitLast c s = Some (pre, post) →
  s = pre +:+ String c post ∧ occurs c post = false.
Proof.
  revert pre. induction s as [|a s IH]; intros pre; simpl; [done|].
  destruct (Path.splitLast c s) as [[pre' post']|] eqn:Hs.
  - intros [= <- <-]. destruct (IH pre' eq_refl) as [-> Hpost]. by split.
  - destruct (decide (a = c)) as [->|]; [|done]. intros [= <- <-].
    split; [done|]. clear IH. induction s as [|b s IH]; [done|].
    simpl in Hs |- *. destruct (Path.splitLast c s) as [[]|]; [done|].
    destruct (decide (b = c)); [done|].
    rewrite bool_decide_eq_false_2 by done. by apply IH.
Qed.

Lemma splitLast_None c s : Path.splitLast c s = None → occurs c s = false.
Proof.
  induction s as [|a s IH]; simpl; [done|].
  destruct (Path.splitLast c s) as [[]|]; [done|].
  destruct (decide (a = c)); [done|]. intros _.
  rewrite bool_decide_eq_false_2 by done. by apply IH.
Qed.

Lemma split_append (c : ascii) (stem v : string) :
  JS.split c (stem +:+ String c v) = (JS.split c stem ++ JS.split c v)%list.
Proof.
  induction stem as [|a rest IH].
  - change (EmptyString +:+ String c v) with (String c v).
    cbn [JS.split]. by rewrite decide_True.
  - change (String a rest +:+ String c v) with (String a (rest +:+ String c v)).
    cbn [JS.split]. rewrite IH.
    pose proof (split_nonempty c rest) as Hne.
    destruct (decide (a = c)); [done|].
    by destruct (JS.split c rest).
Qed.

(** [s.split(c).pop()] is the text after the last [c], or all of [s]. *)
Lemma split_last (c : ascii) (s : string) :
  last (JS.split c s) = Some (afterLast c s)
  ∧ occurs c (afterLast c s) = false
  ∧ (s = afterLast c s
     ∨ ∃ stem, s = stem +:+ String c (afterLast c s)).
Proof.
  unfold afterLast.
  destruct (Path.splitLast c s) as [[pre post]|] eqn:Hs.
  - apply splitLast_Some in Hs as [-> Hpost].
    rewrite split_append, (split_without c post) by done.
    split; [apply last_snoc|]. split; [done|]. right. by exists pre.
  - apply splitLast_None in Hs. rewrite split_without by done.
    split; [done|]. split; [done|]. by left.
Qed.

Section ConfigFile.
Context `{Host} `{Config.ConfigHost}.

(** X30.  How a configuration file is read depends on the text after the last
    dot of its path, or on the whole path when it has no dot, whatever its
    case: when that text is [js] the file is imported as a module, from the
    URL of its resolved path, so a file named [js] is, as is one whose path
    ends in [.js]; every other file is read and parsed as JSON, the names
    without a JSON ending included.  Whatever goes wrong is reported as a
    failure to load that file, with the cause. *)
Theorem loadConfigFile_by_extension (filePath : string) :
  let ending := afterLast "." filePath in
  let wrap := λ attempt : result (option Config.RawConfig),
    match attempt with
    | Ok config => Ok config
    | Err cause =>
        Err ("Failed to load config from " +:+ filePath +:+ ": " +:+ cause)
    end in
  occurs "." ending = false
  ∧ (filePath = ending ∨ ∃ stem, filePath = stem +:+ "." +:+ ending)
  ∧ (toLowerCase ending = "js" →
     Config.loadConfigFile filePath
     = wrap (module ← Config.importConfig
                        ("file://" +:+ Config.resolve filePath);
             Ok (Some module)))
  ∧ (toLowerCase ending ≠ "js" →
     Config.loadConfigFile filePath
     = wrap (content ← Config.readFileSync filePath;
             Config.parseConfig content)).
Proof.
  intros ending wrap. unfold Config.loadConfigFile. cbn zeta.
  destruct (split_last "." filePath) as (Hlast & Hending & Hshape).
  fold ending in Hlast, Hending, Hshape.
  rewrite Hlast. cbn [fmap option_fmap option_map].
  split; [done|]. split; [done|]. split.
  - intros ->. by rewrite decide_True.
  - intros Hne. rewrite decide_False; [done|]. by intros [= ?].
Qed.

End ConfigFile.

Lemma loadConfigFile_by_extension_witness :
  @Config.loadConfigFile (Example.host [])
     (ConfigExample.host [("conf/atlas.JS", "ignored")]) "conf/atlas.JS"
  = Ok (Some (ConfigExample.fromDir "file:///work/conf/atlas.JS"))
  ∧ @Config.loadConfigFile (Example.host [])
      (ConfigExample.host [("js", "ignored")]) "js"
    = Ok (Some (ConfigExample.fromDir "file:///work/js"))
  ∧ @Config.loadConfigFile (Example.host [])
      (ConfigExample.host [("/work/.code-atlasrc", "src")]) "/work/.code-atlasrc"
    = Ok (Some (ConfigExample.fromDir "src")).
Proof.
  split; [|split].
  - by apply (proj1 (proj2 (proj2 (@loadConfigFile_by_extension
             (Example.host [])
             (ConfigExample.host [("conf/atlas.JS", "ignored")])
             "conf/atlas.JS")))).
  - by apply (proj1 (proj2 (proj2 (@loadConfigFile_by_extension
             (Example.host [])
             (ConfigExample.host [("js", "ignored")]) "js")))).
  - by apply (proj2 (proj2 (proj2 (@loadConfigFile_by_extension
             (Example.host [])
             (ConfigExample.host [("/work/.code-atlasrc", "src")])
             "/work/.code-atlasrc")))).
Defined.
